(** * Quantum-algorithm demo scripts: a shallow embedding and its properties

    The repository is a flat set of Python scripts.  Each one builds a
    circuit with a quantum SDK, submits it to a cloud backend and prints an
    analysis of the returned counts.  This development embeds the parts of
    the scripts that carry behaviour of their own:

    - [shor-algorithm/main.py]: the classical number theory ([gcd],
      [modular_exponentiation], [analyze_shor_measurement]), the circuit
      builders, [run_shor], [analyze_results] and the main block;
    - [vqe/main.py]: the ansatz, [compute_expectation], the loop over the
      Hamiltonian terms, the optimisation loop and the main block;
    - [grover-algorithm/main.py]: [create_oracle], [create_diffuser],
      [optimal_iterations], [create_grover_circuit], [run_grover],
      [analyze_results] and the main block;
    - [deutsch-algorithm/main.py]: [create_oracle],
      [create_deutsch_circuit], [run_deutsch_algorithm], [analyze_results]
      and the main block;
    - [bb84/bb84-with-eavesdropping/main.py]: the circuit builders,
      [remove_garbage] and [calculate_qber];
    - [quantum-fourier-transform/main.py]: the circuit builders;
    - [error-correction/main.py]: the whole script, an index that prints.

    Python integers are [Z], Python lists are [list], a function that may
    raise returns an [outcome], and code that talks to the SDK is a
    [script]: it yields its result together with the events it adds to
    the trace of the run.  A float is kept as the rational it denotes;
    the arithmetic of the scripts on floats, which rounds, is a primitive
    of the [runtime].

    The first part of the file holds the definitions; the second part,
    from "Properties of the classical arithmetic" on, the proofs. *)

From Stdlib Require Import ZArith List Bool Arith Lia String Ascii.
From Stdlib Require Import QArith Qabs Lqa.
From Stdlib Require Import Reals Lra FunctionalExtensionality.
From Stdlib Require Import Permutation.
Import ListNotations.

Set Implicit Arguments.

(** ** Results of Python calls *)

(** The exceptions that the embedded code can meet. *)
Inductive exn : Type :=
| ValueError (msg : string)
| ZeroDivisionError
| OverflowError
| IndexError
| SdkError (msg : string).

(** A call returns a value, raises, or (for a loop run on bounded fuel)
    runs out of fuel.  Every top-level function below supplies fuel that
    is proved sufficient, so [OutOfFuel] never escapes. *)
Inductive outcome (A : Type) : Type :=
| Returns (a : A)
| Raises (e : exn)
| OutOfFuel.

Arguments Returns {A} a.
Arguments Raises {A} e.
Arguments OutOfFuel {A}.

Definition bind {A B : Type} (m : outcome A) (k : A -> outcome B) : outcome B :=
  match m with
  | Returns a => k a
  | Raises e => Raises e
  | OutOfFuel => OutOfFuel
  end.

Declare Scope outcome_scope.
Delimit Scope outcome_scope with outcome.
Notation "x <- m ;; k" := (bind m (fun x => k))
  (at level 61, m at next level, right associativity) : outcome_scope.

(** Python's [%] on integers: floor modulus, [ZeroDivisionError] on a zero
    divisor.  [Z.modulo] has the sign of the divisor, as Python's has. *)
Definition py_mod (a b : Z) : outcome Z :=
  if (b =? 0)%Z then Raises ZeroDivisionError else Returns (a mod b)%Z.

(** Python's [//] on integers. *)
Definition py_floordiv (a b : Z) : outcome Z :=
  if (b =? 0)%Z then Raises ZeroDivisionError else Returns (a / b)%Z.

(** Python's [/] on integers whose quotient is computed exactly: the value
    is a float, kept here as the rational number it denotes. *)
Definition exact_true_div (a b : Z) : outcome Q :=
  if (b =? 0)%Z then Raises ZeroDivisionError
  else Returns (Qred (inject_Z a / inject_Z b)).

(** ** Floating point and [fractions.Fraction]

    The operations of the scripts that go through Python floats or
    through [fractions.Fraction] belong to the language runtime, not to
    the repository, so the embedding takes them as a record of
    primitives.  A float is kept as the rational it denotes, and the
    arithmetic on floats, which rounds, is left to the record.  Every
    theorem below holds for all such records; [exact_runtime] is the
    instance that computes them over exact rationals and integers, which
    is what the runtime returns as long as no rounding occurs. *)
Record runtime : Type := {
  (** [m / d] on integers: the float, as the rational it denotes. *)
  true_div : Z -> Z -> outcome Q;
  (** [x + y] on floats: the rounded sum. *)
  float_add : Q -> Q -> Q;
  (** [x * y] on floats: the rounded product. *)
  float_mul : Q -> Q -> Q;
  (** [Fraction(x).limit_denominator(m)] as numerator and denominator. *)
  limit_denominator : Q -> Z -> outcome (Z * Z);
  (** [int(math.log2(N))]. *)
  int_log2 : Z -> outcome Z;
  (** [round(N ** (1 / k))]. *)
  round_root : Z -> Z -> outcome Z
}.

(** The loop of [Fraction.limit_denominator] (CPython, [Lib/fractions.py]):
    it walks the continued fraction of [n/d] and stops at the last
    convergent whose denominator fits. *)
Fixpoint limit_denominator_loop (fuel : nat) (max_den p0 q0 p1 q1 n d : Z)
  : outcome (Z * Z * Z * Z * Z) :=
  match fuel with
  | O => OutOfFuel
  | S fuel' =>
      if (d =? 0)%Z then Raises ZeroDivisionError
      else
        let a := (n / d)%Z in
        let q2 := (q0 + a * q1)%Z in
        if (q2 >? max_den)%Z then Returns (p0, q0, p1, q1, d)
        else limit_denominator_loop fuel' max_den p1 q1 (p0 + a * p1)%Z q2
                                    d (n - a * d)%Z
  end.

Definition exact_limit_denominator (x : Q) (max_den : Z) : outcome (Z * Z) :=
  let x := Qred x in
  let num := Qnum x in
  let den := Zpos (Qden x) in
  if (max_den <? 1)%Z then
    Raises (ValueError "max_denominator should be at least 1")
  else if (den <=? max_den)%Z then Returns (num, den)
  else
    match limit_denominator_loop (S (Z.to_nat den)) max_den 0 1 1 0 num den with
    | Returns (p0, q0, p1, q1, d) =>
        let k := ((max_den - q0) / q1)%Z in
        if (2 * d * (q0 + k * q1) <=? den)%Z then Returns (p1, q1)
        else Returns (p0 + k * p1, q0 + k * q1)%Z
    | Raises e => Raises e
    | OutOfFuel => OutOfFuel
    end.

(** The integer nearest to the real [k]-th root of [N]: the [r] with
    [(2r-1)^k <= 2^k N < (2r+1)^k], found by counting up from [0]. *)
Fixpoint nearest_root_from (fuel : nat) (r N k : Z) : Z :=
  match fuel with
  | O => r
  | S fuel' =>
      if (2 ^ k * N <? (2 * r + 1) ^ k)%Z then r
      else nearest_root_from fuel' (r + 1)%Z N k
  end.

Definition exact_runtime : runtime := {|
  true_div := exact_true_div;
  float_add := Qplus;
  float_mul := Qmult;
  limit_denominator := exact_limit_denominator;
  int_log2 := fun N =>
    if (N <=? 0)%Z then Raises (ValueError "math domain error")
    else Returns (Z.log2 N);
  round_root := fun N k =>
    if (k =? 0)%Z then Raises ZeroDivisionError
    else Returns (nearest_root_from (Z.to_nat N) 0 N k)
|}.

(** ** Circuits

    A [QuantumCircuit] is kept as its qubit and classical-bit counts and
    the list of instructions appended to it, in program order.  Barrier
    labels and circuit names are decoration and are dropped. *)
Inductive gate : Type :=
| Gh (q : nat)
| Gx (q : nat)
| Gz (q : nat)
| Gs (q : nat)
| Gsdg (q : nat)
| Gry (theta : Q) (q : nat)                 (* angle in radians *)
| Gcx (control target : nat)
| Gcz (control target : nat)
| Gcp (turns : Q) (control target : nat)    (* angle [2 * pi * turns] *)
| Gswap (a b : nat)
| Gmcx (controls : list nat) (target : nat)
| Gcswaps (control : nat) (swaps : list (nat * nat))
                                          (* controlled circuit of swaps *)
| Gbarrier
| Gmeasure (qubits clbits : list nat).

Record circuit : Type := {
  num_qubits : nat;
  num_clbits : nat;
  gates : list gate
}.

Definition QuantumCircuit (n_qubits n_clbits : nat) : circuit :=
  {| num_qubits := n_qubits; num_clbits := n_clbits; gates := [] |}.

(** [qc.h(i)], [qc.x(i)], ...: append one instruction. *)
Definition add_gate (g : gate) (qc : circuit) : circuit :=
  {| num_qubits := num_qubits qc; num_clbits := num_clbits qc;
     gates := gates qc ++ [g] |}.

Definition extend (gs : list gate) (qc : circuit) : circuit :=
  {| num_qubits := num_qubits qc; num_clbits := num_clbits qc;
     gates := gates qc ++ gs |}.

(** Renaming of the qubits of an instruction, as [compose] does when it
    places a sub-circuit on chosen qubits. *)
Definition map_qubits (f : nat -> nat) (g : gate) : gate :=
  match g with
  | Gh q => Gh (f q)
  | Gx q => Gx (f q)
  | Gz q => Gz (f q)
  | Gs q => Gs (f q)
  | Gsdg q => Gsdg (f q)
  | Gry theta q => Gry theta (f q)
  | Gcx c t => Gcx (f c) (f t)
  | Gcz c t => Gcz (f c) (f t)
  | Gcp turns c t => Gcp turns (f c) (f t)
  | Gswap a b => Gswap (f a) (f b)
  | Gmcx cs t => Gmcx (map f cs) (f t)
  | Gcswaps c swaps =>
      Gcswaps (f c) (map (fun ab => (f (fst ab), f (snd ab))) swaps)
  | Gbarrier => Gbarrier
  | Gmeasure qs cs => Gmeasure (map f qs) cs
  end.

(** [qc.compose(other, inplace=True)]: the instructions of [other] are
    appended on the same qubit indices. *)
Definition compose (other qc : circuit) : circuit := extend (gates other) qc.

(** [qc.compose(other, qubits, inplace=True)]: qubit [i] of [other] is
    placed on [qubits[i]]. *)
Definition compose_on (other : circuit) (qubits : list nat) (qc : circuit)
  : circuit :=
  extend (map (map_qubits (fun i => nth i qubits i)) (gates other)) qc.

(** The SDK's inverse of a single instruction.  A measurement has none. *)
Definition inverse_gate (g : gate) : outcome gate :=
  match g with
  | Gs q => Returns (Gsdg q)
  | Gsdg q => Returns (Gs q)
  | Gry theta q => Returns (Gry (Qopp theta) q)
  | Gcp turns c t => Returns (Gcp (Qopp turns) c t)
  | Gcswaps c swaps => Returns (Gcswaps c (rev swaps))
  | Gmeasure _ _ => Raises (SdkError "circuit with a measurement has no inverse")
  | _ => Returns g
  end.

(** [inverse_gates gs acc] inverts [gs] front to back, pushing onto [acc],
    which yields the inverses in reverse order. *)
Fixpoint inverse_gates (gs : list gate) (acc : list gate) : outcome (list gate) :=
  match gs with
  | [] => Returns acc
  | g :: gs' =>
      match inverse_gate g with
      | Returns i => inverse_gates gs' (i :: acc)
      | Raises e => Raises e
      | OutOfFuel => OutOfFuel
      end
  end.

(** [qc.inverse()]: the inverses of the instructions, last one first. *)
Definition inverse (qc : circuit) : outcome circuit :=
  match inverse_gates (gates qc) [] with
  | Returns gs =>
      Returns {| num_qubits := num_qubits qc; num_clbits := num_clbits qc;
                 gates := gs |}
  | Raises e => Raises e
  | OutOfFuel => OutOfFuel
  end.

(** The angle [2 * math.pi / (2 ** k)], as a fraction of a full turn. *)
Definition two_pi_over_pow2 (k : nat) : Q := 1 # Pos.of_nat (2 ^ k).

(** ** The outside world: environment, SDK, printed output *)

(** The process environment after [load_dotenv()]: [os.getenv] gives
    [None] for a name that is not set. *)
Definition environment : Type := string -> option string.

(** What [job.result()[0].data] offers under one attribute name: reading
    it can raise, it can be an object without [get_counts], or it can be a
    register whose [get_counts()] is a dictionary of counts (kept in the
    dictionary's own order). *)
Inductive attribute : Type :=
| AttrRaises (e : exn)
| AttrPlain
| AttrCounts (counts : list (string * Z)).

Record job : Type := {
  job_id : string;
  (* [job.result()[0].data], attribute by attribute, in [dir] order *)
  job_result : outcome (list (string * attribute))
}.

(** The cloud service.  Nothing here is decided by the repository: which
    backend is least busy, what a transpiled circuit looks like and what
    the hardware measures are all inputs of the embedding.  [sdk_run] gets
    the number of jobs submitted so far, so that repeated submissions may
    be answered differently. *)
Record sdk : Type := {
  sdk_service : string -> option string -> option string -> outcome unit;
  sdk_least_busy : Z -> outcome string;
  sdk_transpile : circuit -> outcome circuit;
  sdk_depth : circuit -> Z;
  sdk_draw : circuit -> string;
  sdk_run : nat -> list circuit -> Z -> outcome job
}.

(** A printed line: the pieces of the f-string, unformatted. *)
Inductive fragment : Type :=
| Txt (s : string)
| Int (z : Z)
| Ints (l : list Z)
| Num (q : Q)
| Nums (l : list Q)
| Strs (l : list string)
| Counts (d : list (string * Z)).

Definition message : Type := list fragment.

(** What a run of a script does that can be seen from outside, in order. *)
Inductive event : Type :=
| Print (m : message)     (* a progress line printed while running *)
| Report (m : message)    (* a line printed by a script's [analyze_results] *)
| Getenv (name : string)
| Service (channel : string) (token instance : option string)
| LeastBusy (min_num_qubits : Z)
| Built (qc : circuit)    (* the script has finished constructing [qc] *)
| Transpile (qc : circuit)
| Submit (circuits : list circuit) (shots : Z).

(** The number of jobs submitted in a trace. *)
Definition is_submit (e : event) : bool :=
  match e with Submit _ _ => true | _ => false end.

Definition submissions (t : list event) : nat :=
  List.length (filter is_submit t).

(** A piece of a script: given the number of jobs the run has submitted
    before it starts, it yields a result and the events it adds to the
    trace.  An exception keeps the events that came before it. *)
Definition script (A : Type) : Type := nat -> outcome A * list event.

Definition ret {A : Type} (a : A) : script A := fun _ => (Returns a, []).

Definition sbind {A B : Type} (m : script A) (k : A -> script B) : script B :=
  fun n =>
    match m n with
    | (Returns a, d1) =>
        let r := k a (n + submissions d1)%nat in (fst r, d1 ++ snd r)
    | (Raises e, d1) => (Raises e, d1)
    | (OutOfFuel, d1) => (OutOfFuel, d1)
    end.

Declare Scope script_scope.
Delimit Scope script_scope with script.
Notation "x <~ m ;; k" := (sbind m (fun x => k))
  (at level 61, m at next level, right associativity) : script_scope.
Notation "m ;;; k" := (sbind m (fun _ => k))
  (at level 61, right associativity) : script_scope.

Definition emit (e : event) : script unit := fun _ => (Returns tt, [e]).

Definition print (m : message) : script unit := emit (Print m).

Definition report (m : message) : script unit := emit (Report m).

Definition lift {A : Type} (o : outcome A) : script A := fun _ => (o, []).

Definition raise {A : Type} (e : exn) : script A := lift (Raises e).

(** [try: body except Exception: handler]. *)
Definition try_except {A : Type} (body : script A) (handler : exn -> script A)
  : script A :=
  fun n =>
    match body n with
    | (Raises e, d1) =>
        let r := handler e (n + submissions d1)%nat in (fst r, d1 ++ snd r)
    | r => r
    end.

(** The whole trace of a script started with no job submitted yet. *)
Definition trace_of {A : Type} (m : script A) : list event := snd (m 0%nat).

(** [os.getenv(name)]. *)
Definition getenv (env : environment) (name : string) : script (option string) :=
  (emit (Getenv name) ;;; ret (env name))%script.

(** The two module-level assignments that open every script that talks to
    the service:
    [IBM_QUANTUM_TOKEN = os.getenv("IBM_QUANTUM_TOKEN")] and
    [IBM_QUANTUM_INSTANCE = os.getenv("IBM_QUANTUM_INSTANCE")]. *)
Record credentials : Type := {
  IBM_QUANTUM_TOKEN : option string;
  IBM_QUANTUM_INSTANCE : option string
}.

Definition read_credentials (env : environment) : script credentials :=
  (token <~ getenv env "IBM_QUANTUM_TOKEN" ;;
   instance <~ getenv env "IBM_QUANTUM_INSTANCE" ;;
   ret {| IBM_QUANTUM_TOKEN := token; IBM_QUANTUM_INSTANCE := instance |})%script.

(** [QiskitRuntimeService(channel="ibm_quantum_platform",
     token=IBM_QUANTUM_TOKEN, instance=IBM_QUANTUM_INSTANCE)], the same
    line in every script that connects. *)
Definition connect (cloud : sdk) (creds : credentials) : script unit :=
  (emit (Service "ibm_quantum_platform" (IBM_QUANTUM_TOKEN creds)
                 (IBM_QUANTUM_INSTANCE creds)) ;;;
   lift (sdk_service cloud "ibm_quantum_platform" (IBM_QUANTUM_TOKEN creds)
                     (IBM_QUANTUM_INSTANCE creds)))%script.

Definition least_busy (cloud : sdk) (min_num_qubits : Z) : script string :=
  (emit (LeastBusy min_num_qubits) ;;; lift (sdk_least_busy cloud min_num_qubits))%script.

Definition transpile (cloud : sdk) (qc : circuit) : script circuit :=
  (emit (Transpile qc) ;;; lift (sdk_transpile cloud qc))%script.

(** [sampler.run(circuits, shots=shots)]. *)
Definition sampler_run (cloud : sdk) (circuits : list circuit) (shots : Z)
  : script job :=
  fun n => (sdk_run cloud n circuits shots, [Submit circuits shots]).

(** [attr.startswith('_')]. *)
Definition starts_with_underscore (name : string) : bool :=
  match name with
  | String c _ => Ascii.eqb c "_"%char
  | EmptyString => false
  end.

(** The loop that every script uses to find the counts:
    [[
    counts = {}
    for attr in dir(pub_result.data):
        if not attr.startswith('_'):
            try:
                data_obj = getattr(pub_result.data, attr)
                if hasattr(data_obj, 'get_counts'):
                    counts = data_obj.get_counts()
                    if counts:
                        break
            except:
                pass
    ]]
    An attribute whose access raises is skipped by the bare [except]. *)
Fixpoint extract_counts (attrs : list (string * attribute))
                        (counts : list (string * Z)) : list (string * Z) :=
  match attrs with
  | [] => counts
  | (name, value) :: rest =>
      if starts_with_underscore name then extract_counts rest counts
      else
        match value with
        | AttrRaises _ => extract_counts rest counts
        | AttrPlain => extract_counts rest counts
        | AttrCounts c =>
            match c with
            | [] => extract_counts rest c
            | _ :: _ => c
            end
        end
  end.

(** The handler of the [try] that wraps the main block, the same in every
    script: [except Exception as e:] followed by four [print]s. *)
Definition credential_hint (e : exn) : script unit :=
  let text := match e with
              | ValueError msg => msg
              | ZeroDivisionError => "division by zero"%string
              | OverflowError => "integer division result too large for a float"%string
              | IndexError => "index out of bounds"%string
              | SdkError msg => msg
              end in
  (print [Txt "Error during execution: "; Txt text] ;;;
  print [Txt "Make sure you have set your IBM Quantum credentials in .env file:"] ;;;
  print [Txt "  IBM_QUANTUM_TOKEN=your_token_here"] ;;;
   print [Txt "  IBM_QUANTUM_INSTANCE=your_instance_here"])%script.

(** ** bb84/bb84-with-eavesdropping/main.py *)

Module BB84.

Local Open Scope Z_scope.

(** [sum(a != b for a, b in zip(alice_key, bob_key))]: [zip] stops at the
    shorter key. *)
Definition count_errors (alice_key bob_key : list Z) : Z :=
  fold_left Z.add
            (map (fun ab => if fst ab =? snd ab then 0 else 1)
                 (combine alice_key bob_key))
            0.

(** [calculate_qber(alice_key, bob_key)].  The quotient is a Python float;
    it is kept as the exact rational that the float rounds. *)
Definition calculate_qber (alice_key bob_key : list Z) : outcome Q :=
  match alice_key with
  | [] => Returns 0%Q
  | _ :: _ =>
      let errors := count_errors alice_key bob_key in
      exact_true_div errors (Z.of_nat (List.length alice_key))
  end.

(** The error count in the words of the specification: the number of
    positions, among those that both keys have, where the keys differ. *)
Definition differing_positions (alice_key bob_key : list Z) : nat :=
  List.length
    (filter (fun i => negb (nth i alice_key 0 =? nth i bob_key 0))
            (seq 0 (Nat.min (List.length alice_key) (List.length bob_key)))).

Local Open Scope outcome_scope.

(** [bases[i]] for [i >= 0]: [IndexError] past the end. *)
Definition getitem (l : list Z) (i : nat) : outcome Z :=
  match nth_error l i with
  | Some v => Returns v
  | None => Raises IndexError
  end.

(** [remove_garbage(a_bases, b_bases, bits)]:
    [[bit for i, bit in enumerate(bits) if a_bases[i] == b_bases[i]]],
    with [i] the index of [bit]. *)
Fixpoint remove_garbage_from (i : nat) (a_bases b_bases bits : list Z)
  : outcome (list Z) :=
  match bits with
  | [] => Returns []
  | bit :: rest =>
      a <- getitem a_bases i ;;
      b <- getitem b_bases i ;;
      kept <- remove_garbage_from (S i) a_bases b_bases rest ;;
      Returns (if a =? b then bit :: kept else kept)
  end.

Definition remove_garbage (a_bases b_bases bits : list Z) : outcome (list Z) :=
  remove_garbage_from 0 a_bases b_bases bits.

(** The state preparation of qubit [i], the same lines for Alice and for
    Eve: in the Z-basis ([basis == 0]) an [x] for bit [1]; in the X-basis
    an [h] for bit [0] and [x], [h] for any other bit. *)
Definition prepare (i : nat) (bit basis : Z) : list gate :=
  if basis =? 0 then (if bit =? 1 then [Gx i] else [])
  else (if bit =? 0 then [Gh i] else [Gx i; Gh i]).

(** The first loop of [create_bb84_circuit_with_eve]: Eve's simulated
    measurement results.  [randint k] is the [k]-th value that
    [np.random.randint(2)] gives; [drawn] counts the draws so far. *)
Fixpoint eve_measures (randint : nat -> Z) (drawn : nat)
                      (alice_bits alice_bases eve_bases : list Z)
                      (indices : list nat) : outcome (list Z) :=
  match indices with
  | [] => Returns []
  | i :: rest =>
      eve_basis <- getitem eve_bases i ;;
      alice_basis <- getitem alice_bases i ;;
      if eve_basis =? alice_basis then
        bit <- getitem alice_bits i ;;
        bits <- eve_measures randint drawn alice_bits alice_bases eve_bases rest ;;
        Returns (bit :: bits)
      else
        bits <- eve_measures randint (S drawn) alice_bits alice_bases eve_bases
                             rest ;;
        Returns (randint drawn :: bits)
  end.

(** The second loop: Eve prepares a new qubit from each of her results. *)
Fixpoint eve_resends (eve_measured_bits eve_bases : list Z) (indices : list nat)
  : outcome (list gate) :=
  match indices with
  | [] => Returns []
  | i :: rest =>
      eve_bit <- getitem eve_measured_bits i ;;
      eve_basis <- getitem eve_bases i ;;
      gs <- eve_resends eve_measured_bits eve_bases rest ;;
      Returns (prepare i eve_bit eve_basis ++ gs)
  end.

(** Bob's measurement: [if bob_bases[i] == 1: qc.h(i)]. *)
Fixpoint bob_measures (bob_bases : list Z) (indices : list nat)
  : outcome (list gate) :=
  match indices with
  | [] => Returns []
  | i :: rest =>
      bob_basis <- getitem bob_bases i ;;
      gs <- bob_measures bob_bases rest ;;
      Returns ((if bob_basis =? 1 then [Gh i] else []) ++ gs)
  end.

(** [create_bb84_circuit_with_eve(alice_bits, alice_bases, eve_bases,
    bob_bases)]: the circuit and Eve's bits. *)
Definition create_bb84_circuit_with_eve (randint : nat -> Z)
           (alice_bits alice_bases eve_bases bob_bases : list Z)
  : outcome (circuit * list Z) :=
  let n_qubits := List.length alice_bits in
  let qc := QuantumCircuit n_qubits n_qubits in
  eve_measured_bits <-
    eve_measures randint 0 alice_bits alice_bases eve_bases (seq 0 n_qubits) ;;
  resent <- eve_resends eve_measured_bits eve_bases (seq 0 n_qubits) ;;
  let qc := extend resent qc in
  let qc := add_gate Gbarrier qc in
  measured <- bob_measures bob_bases (seq 0 n_qubits) ;;
  let qc := extend measured qc in
  Returns (add_gate (Gmeasure (seq 0 n_qubits) (seq 0 n_qubits)) qc,
           eve_measured_bits).

(** Alice's state preparation in the branch of
    [run_bb84_with_eavesdropping] without Eve. *)
Fixpoint alice_prepares (alice_bits alice_bases : list Z) (indices : list nat)
  : outcome (list gate) :=
  match indices with
  | [] => Returns []
  | i :: rest =>
      alice_basis <- getitem alice_bases i ;;
      alice_bit <- getitem alice_bits i ;;
      gs <- alice_prepares alice_bits alice_bases rest ;;
      Returns (prepare i alice_bit alice_basis ++ gs)
  end.

(** The circuit that [run_bb84_with_eavesdropping] builds when
    [eve_present] is false. *)
Definition standard_circuit (n_bits : nat) (alice_bits alice_bases bob_bases : list Z)
  : outcome circuit :=
  let qc := QuantumCircuit n_bits n_bits in
  prepared <- alice_prepares alice_bits alice_bases (seq 0 n_bits) ;;
  let qc := extend prepared qc in
  let qc := add_gate Gbarrier qc in
  measured <- bob_measures bob_bases (seq 0 n_bits) ;;
  let qc := extend measured qc in
  Returns (add_gate (Gmeasure (seq 0 n_bits) (seq 0 n_bits)) qc).

End BB84.

(** ** quantum-fourier-transform/main.py *)

Module QFT.

(** [qft_rotations(circuit, n)]: a Hadamard on the top qubit, the
    controlled rotations onto it, then the same for the qubits below. *)
Fixpoint qft_rotations (qc : circuit) (n : nat) : circuit :=
  match n with
  | O => qc
  | S n' =>
      let qc := add_gate (Gh n') qc in
      let qc :=
        extend (map (fun qubit => Gcp (two_pi_over_pow2 (n' - qubit + 1)) qubit n')
                    (seq 0 n')) qc in
      qft_rotations qc n'
  end.

(** [swap_registers(circuit, n)]. *)
Definition swap_registers (qc : circuit) (n : nat) : circuit :=
  extend (map (fun qubit => Gswap qubit (n - qubit - 1)) (seq 0 (n / 2))) qc.

(** [create_qft_circuit(n_qubits, swap=True)]. *)
Definition create_qft_circuit (n_qubits : nat) (swap : bool) : circuit :=
  let qc := QuantumCircuit n_qubits 0 in
  let qc := qft_rotations qc n_qubits in
  if swap then swap_registers qc n_qubits else qc.

(** [create_inverse_qft_circuit(n_qubits, swap=True)]. *)
Definition create_inverse_qft_circuit (n_qubits : nat) (swap : bool)
  : outcome circuit :=
  inverse (create_qft_circuit n_qubits swap).

(** The [X] gates that prepare [|input_state>]:
    [for i in range(n_qubits): if (input_state >> i) & 1: qc.x(i)]. *)
Definition prepare_input (n_qubits : nat) (input_state : Z) : list gate :=
  flat_map
    (fun i =>
       if (Z.land (Z.shiftr input_state (Z.of_nat i)) 1 =? 0)%Z then []
       else [Gx i])
    (seq 0 n_qubits).

(** [create_qft_inverse_test_circuit(n_qubits, input_state)]: "applies QFT
    followed by inverse QFT. This should return the original state". *)
Definition create_qft_inverse_test_circuit (n_qubits : nat)
                                           (input_state : option Z)
  : outcome circuit :=
  let qc := QuantumCircuit n_qubits n_qubits in
  let qc :=
    match input_state with
    | Some st =>
        if (st >? 0)%Z then
          add_gate Gbarrier (extend (prepare_input n_qubits st) qc)
        else qc
    | None => qc
    end in
  let qft := create_qft_circuit n_qubits true in
  let qc := add_gate Gbarrier (compose qft qc) in
  (inv_qft <- create_inverse_qft_circuit n_qubits true ;;
   let qc := add_gate Gbarrier (compose inv_qft qc) in
   Returns (add_gate (Gmeasure (seq 0 n_qubits) (seq 0 n_qubits)) qc))%outcome.

End QFT.

(** ** Cancelling adjacent inverse instructions

    Two circuits placed one after the other make the identity circuit when
    their instructions cancel pairwise from the middle outwards: each
    instruction meets, right after it, the instruction that the SDK gives as
    its inverse. *)

Definition list_eqb {A : Type} (eqb : A -> A -> bool) : list A -> list A -> bool :=
  fix go (l1 l2 : list A) : bool :=
    match l1, l2 with
    | [], [] => true
    | x :: l1', y :: l2' => eqb x y && go l1' l2'
    | _, _ => false
    end.

Definition Q_eqb (p q : Q) : bool :=
  (Qnum p =? Qnum q)%Z && (Qden p =? Qden q)%positive.

Definition pair_eqb (p q : nat * nat) : bool :=
  (fst p =? fst q)%nat && (snd p =? snd q)%nat.

Definition gate_eqb (g1 g2 : gate) : bool :=
  match g1, g2 with
  | Gh a, Gh b | Gx a, Gx b | Gz a, Gz b | Gs a, Gs b | Gsdg a, Gsdg b =>
      (a =? b)%nat
  | Gry t1 a, Gry t2 b => Q_eqb t1 t2 && (a =? b)%nat
  | Gcx c1 t1, Gcx c2 t2 | Gcz c1 t1, Gcz c2 t2 | Gswap c1 t1, Gswap c2 t2 =>
      (c1 =? c2)%nat && (t1 =? t2)%nat
  | Gcp a1 c1 t1, Gcp a2 c2 t2 =>
      Q_eqb a1 a2 && (c1 =? c2)%nat && (t1 =? t2)%nat
  | Gmcx cs1 t1, Gmcx cs2 t2 => list_eqb Nat.eqb cs1 cs2 && (t1 =? t2)%nat
  | Gcswaps c1 s1, Gcswaps c2 s2 => (c1 =? c2)%nat && list_eqb pair_eqb s1 s2
  | Gbarrier, Gbarrier => true
  | Gmeasure q1 c1, Gmeasure q2 c2 =>
      list_eqb Nat.eqb q1 q2 && list_eqb Nat.eqb c1 c2
  | _, _ => false
  end.

(** [g2] undoes [g1]. *)
Definition undoes (g1 g2 : gate) : bool :=
  match inverse_gate g1 with
  | Returns i => gate_eqb i g2
  | _ => false
  end.

(** [push stack g] reads one more instruction; [stack] holds the
    instructions still standing, the latest on top. *)
Definition push (stack : list gate) (g : gate) : list gate :=
  match stack with
  | top :: below => if undoes top g then below else g :: stack
  | [] => [g]
  end.

(** What is left of a list of instructions once every instruction that
    directly follows its inverse has been removed together with it. *)
Definition cancel (gs : list gate) : list gate := rev (fold_left push gs []).

(** A stack is reduced when no instruction on it undoes the one below. *)
Fixpoint reduced (stack : list gate) : Prop :=
  match stack with
  | top :: below =>
      match below with
      | under :: _ => undoes under top = false
      | [] => True
      end /\ reduced below
  | [] => True
  end.

(** An instruction other than a measurement. *)
Definition unmeasured (g : gate) : Prop :=
  match g with Gmeasure _ _ => False | _ => True end.

(** [int(bitstring, 2)] for a string of binary digits. *)
Fixpoint int_base2_from (acc : Z) (s : string) : outcome Z :=
  match s with
  | EmptyString => Returns acc
  | String c rest =>
      if Ascii.eqb c "0"%char then int_base2_from (2 * acc)%Z rest
      else if Ascii.eqb c "1"%char then int_base2_from (2 * acc + 1)%Z rest
      else Raises (ValueError "invalid literal for int() with base 2")
  end.

Definition int_base2 (s : string) : outcome Z :=
  match s with
  | EmptyString => Raises (ValueError "invalid literal for int() with base 2")
  | _ => int_base2_from 0 s
  end.

(** ** grover-algorithm/main.py *)

Module Grover.

Local Open Scope Z_scope.
Local Open Scope outcome_scope.

(** An entry of [marked_states]: an integer or a binary string. *)
Inductive marked_state : Type :=
| StateInt (z : Z)
| StateStr (s : string).

(** The first loop of [create_oracle]: strings go through [int(state, 2)]. *)
Fixpoint marked_ints (marked_states : list marked_state) : outcome (list Z) :=
  match marked_states with
  | [] => Returns []
  | StateInt z :: rest => ints <- marked_ints rest ;; Returns (z :: ints)
  | StateStr s :: rest =>
      z <- int_base2 s ;; ints <- marked_ints rest ;; Returns (z :: ints)
  end.

(** [for i in range(n_qubits): if not (target >> i) & 1: oracle.x(i)]. *)
Definition flip_zero_bits (n_qubits : nat) (target : Z) : list gate :=
  flat_map
    (fun i =>
       if Z.land (Z.shiftr target (Z.of_nat i)) 1 =? 0 then [Gx i] else [])
    (seq 0 n_qubits).

(** The multi-controlled [Z] that oracle and diffuser share: [z(0)] on one
    qubit, [cz(0, 1)] on two, and otherwise [mcx] between two Hadamards on
    the last qubit, [n_qubits - 1].  Without qubits the last branch starts
    with [h(-1)] on a circuit that has none, which the SDK refuses. *)
Definition multi_controlled_z (n_qubits : nat) : outcome (list gate) :=
  if (n_qubits =? 1)%nat then Returns [Gz 0]
  else if (n_qubits =? 2)%nat then Returns [Gcz 0 1]
  else
    match n_qubits with
    | O => Raises (SdkError "Index -1 out of range for size 0.")
    | S last => Returns [Gh last; Gmcx (seq 0 last) last; Gh last]
    end.

(** The instructions that [create_oracle] appends for one marked state. *)
Definition mark_target (n_qubits : nat) (target : Z) : outcome (list gate) :=
  mcz <- multi_controlled_z n_qubits ;;
  Returns (flip_zero_bits n_qubits target
           ++ mcz
           ++ flip_zero_bits n_qubits target).

(** [create_oracle(n_qubits, marked_states)]. *)
Definition create_oracle (n_qubits : nat) (marked_states : list marked_state)
  : outcome circuit :=
  targets <- marked_ints marked_states ;;
  fold_left (fun acc target =>
               oracle <- acc ;;
               marking <- mark_target n_qubits target ;;
               Returns (extend marking oracle))
            targets (Returns (QuantumCircuit n_qubits 0)).

(** [create_diffuser(n_qubits)]. *)
Definition create_diffuser (n_qubits : nat) : outcome circuit :=
  let diffuser := QuantumCircuit n_qubits 0 in
  let diffuser := extend (map Gh (seq 0 n_qubits)) diffuser in
  let diffuser := extend (map Gx (seq 0 n_qubits)) diffuser in
  mcz <- multi_controlled_z n_qubits ;;
  let diffuser := extend mcz diffuser in
  let diffuser := extend (map Gx (seq 0 n_qubits)) diffuser in
  Returns (extend (map Gh (seq 0 n_qubits)) diffuser).

(** [optimal_iterations(n_qubits, num_marked)]:
    [max(1, round(math.pi / 4 * math.sqrt(N / num_marked)))] with
    [N = 2 ** n_qubits].  The division of two integers raises on a zero
    divisor before any float is made; what follows is float arithmetic,
    taken as the primitive [round_quarter_pi_sqrt N num_marked]. *)
Definition optimal_iterations (round_quarter_pi_sqrt : Z -> Z -> outcome Z)
                              (n_qubits : nat) (num_marked : Z) : outcome Z :=
  let N := 2 ^ Z.of_nat n_qubits in
  if num_marked =? 0 then Raises ZeroDivisionError
  else
    rounded <- round_quarter_pi_sqrt N num_marked ;;
    Returns (Z.max 1 rounded).

(** The body of the loop [for iteration in range(num_iterations)] of
    [create_grover_circuit]. *)
Definition grover_iteration (oracle diffuser : circuit) (num_iterations : Z)
                            (qc : circuit) (iteration : Z) : circuit :=
  let qc := compose oracle qc in
  let qc := add_gate Gbarrier qc in
  let qc := compose diffuser qc in
  if iteration <? num_iterations - 1 then add_gate Gbarrier qc else qc.

(** [create_grover_circuit(n_qubits, marked_states, num_iterations)]. *)
Definition create_grover_circuit (round_quarter_pi_sqrt : Z -> Z -> outcome Z)
                                 (n_qubits : nat)
                                 (marked_states : list marked_state)
                                 (num_iterations : option Z)
  : outcome circuit :=
  num_iterations <-
    match num_iterations with
    | None =>
        optimal_iterations round_quarter_pi_sqrt n_qubits
                           (Z.of_nat (List.length marked_states))
    | Some k => Returns k
    end ;;
  let qc := QuantumCircuit n_qubits n_qubits in
  let qc := extend (map Gh (seq 0 n_qubits)) qc in
  let qc := add_gate Gbarrier qc in
  oracle <- create_oracle n_qubits marked_states ;;
  diffuser <- create_diffuser n_qubits ;;
  let qc :=
    fold_left (grover_iteration oracle diffuser num_iterations)
              (map Z.of_nat (seq 0 (Z.to_nat num_iterations))) qc in
  let qc := add_gate Gbarrier qc in
  Returns (add_gate (Gmeasure (seq 0 n_qubits) (seq 0 n_qubits)) qc).

End Grover.

(** ** deutsch-algorithm/main.py *)

Module Deutsch.

Local Open Scope outcome_scope.

(** [create_oracle(oracle_type)]: the circuit of [|x>|y> -> |x>|y xor f(x)>]
    for the function that [oracle_type] names. *)
Definition create_oracle (oracle_type : string) : outcome circuit :=
  let oracle := QuantumCircuit 2 0 in
  if String.eqb oracle_type "constant_0" then Returns oracle
  else if String.eqb oracle_type "constant_1" then
    Returns (add_gate (Gx 1) oracle)
  else if String.eqb oracle_type "balanced_identity" then
    Returns (add_gate (Gcx 0 1) oracle)
  else if String.eqb oracle_type "balanced_negation" then
    Returns (add_gate (Gx 1) (add_gate (Gcx 0 1) oracle))
  else Raises (ValueError ("Unknown oracle type: " ++ oracle_type)).

(** [create_deutsch_circuit(oracle_type)]. *)
Definition create_deutsch_circuit (oracle_type : string) : outcome circuit :=
  let qc := QuantumCircuit 2 1 in
  let qc := add_gate (Gx 1) qc in
  let qc := add_gate Gbarrier qc in
  let qc := add_gate (Gh 0) qc in
  let qc := add_gate (Gh 1) qc in
  let qc := add_gate Gbarrier qc in
  oracle <- create_oracle oracle_type ;;
  let qc := compose oracle qc in
  let qc := add_gate Gbarrier qc in
  let qc := add_gate (Gh 0) qc in
  let qc := add_gate Gbarrier qc in
  Returns (add_gate (Gmeasure [0%nat] [0%nat]) qc).

(** The [expected_measurement] of [analyze_results]: ['0'] for the two
    constant oracle types and ['1'] for any other, as the value of the
    measured bit. *)
Definition expected_measurement (oracle_type : string) : bool :=
  negb (String.eqb oracle_type "constant_0"
        || String.eqb oracle_type "constant_1").

End Deutsch.

(** ** What the gates do

    The gates that Grover's oracle and diffuser use have real matrices, so
    a state is taken as a real amplitude for every basis state, and a
    basis state as the value of every qubit.  Qubit [i] carries bit [i] of
    the integer that names the basis state, as in the SDK. *)

Definition basis : Type := nat -> bool.

Definition amplitudes : Type := basis -> R.

Definition basis_of (x : Z) : basis := fun i => Z.testbit x (Z.of_nat i).

Definition set_bit (i : nat) (v : bool) (b : basis) : basis :=
  fun j => if (j =? i)%nat then v else b j.

Definition flip_bit (i : nat) (b : basis) : basis :=
  set_bit i (negb (b i)) b.

Definition sign (v : bool) : R := if v then (-1)%R else 1%R.

(** The Hadamard gate on qubit [q]. *)
Definition hadamard (q : nat) (psi : amplitudes) : amplitudes :=
  fun b =>
    (/ sqrt 2 * (psi (set_bit q false b) + sign (b q) * psi (set_bit q true b)))%R.

(** The action of one instruction on the amplitudes; [None] for an
    instruction that is not a real unitary (phase rotations, measurement). *)
Definition apply_gate (g : gate) (psi : amplitudes) : option amplitudes :=
  match g with
  | Gh q => Some (hadamard q psi)
  | Gx q => Some (fun b : basis => psi (flip_bit q b))
  | Gz q => Some (fun b : basis => (sign (b q) * psi b)%R)
  | Gcx c t => Some (fun b : basis => if b c then psi (flip_bit t b) else psi b)
  | Gcz c t => Some (fun b : basis => (sign (andb (b c) (b t)) * psi b)%R)
  | Gmcx cs t =>
      Some (fun b : basis => if forallb b cs then psi (flip_bit t b) else psi b)
  | Gswap p q =>
      Some (fun b : basis => psi (set_bit p (b q) (set_bit q (b p) b)))
  | Gbarrier => Some psi
  | _ => None
  end.

Fixpoint apply_gates (gs : list gate) (psi : amplitudes) : option amplitudes :=
  match gs with
  | [] => Some psi
  | g :: gs' =>
      match apply_gate g psi with
      | Some psi' => apply_gates gs' psi'
      | None => None
      end
  end.

(** The sum of the amplitudes over all values of qubits [0 .. n-1], the
    other qubits being as in [b]. *)
Fixpoint sum_over (n : nat) (psi : amplitudes) (b : basis) : R :=
  match n with
  | O => psi b
  | S n' =>
      (sum_over n' psi (set_bit n' false b)
       + sum_over n' psi (set_bit n' true b))%R
  end.

(** Hadamard gates on qubits [0 .. n-1], qubit [0] first. *)
Fixpoint hadamards (n : nat) (psi : amplitudes) : amplitudes :=
  match n with
  | O => psi
  | S n' => hadamard n' (hadamards n' psi)
  end.

(** Qubits [0 .. n-1] all set. *)
Definition all_ones (n : nat) (b : basis) : bool := forallb b (seq 0 n).

(** Qubits [0 .. n-1] all clear. *)
Definition all_zero (n : nat) (b : basis) : bool :=
  forallb (fun i => negb (b i)) (seq 0 n).

(** Qubits [0 .. n-1] spell the low [n] bits of [target]. *)
Definition agrees (n : nat) (target : Z) (b : basis) : bool :=
  forallb (fun i => Bool.eqb (b i) (Z.testbit target (Z.of_nat i))) (seq 0 n).

(** [b] with qubits [0 .. n-1] cleared. *)
Definition clear_below (n : nat) (b : basis) : basis :=
  fun i => if (i <? n)%nat then false else b i.

(** [b] with qubits [0 .. n-1] flipped. *)
Definition flip_below (n : nat) (b : basis) : basis :=
  fun i => if (i <? n)%nat then negb (b i) else b i.

(** [b] with those of qubits [0 .. n-1] flipped where [target] has a
    zero bit. *)
Definition flip_unset (n : nat) (target : Z) (b : basis) : basis :=
  fun i =>
    if ((i <? n)%nat && negb (Z.testbit target (Z.of_nat i)))%bool
    then negb (b i) else b i.

(** The phase that an oracle for [targets] gives to [b]. *)
Fixpoint oracle_phase (n : nat) (targets : list Z) (b : basis) : R :=
  match targets with
  | [] => 1%R
  | target :: rest => (oracle_phase n rest b * sign (agrees n target b))%R
  end.


(** [(2 |s><s| - I) psi] at [b], where [|s>] is the uniform superposition
    of [n] qubits: twice the mean amplitude, minus the amplitude. *)
Definition reflect_about_uniform (n : nat) (psi : amplitudes) : amplitudes :=
  fun b => (2 * (sum_over n psi b / 2 ^ n) - psi b)%R.

(** The sum of the amplitudes of the basis states [0 .. 2^n - 1]. *)
Definition sum_basis_states (n : nat) (psi : amplitudes) : R :=
  fold_right Rplus 0%R
             (map (fun y => psi (basis_of (Z.of_nat y))) (seq 0 (2 ^ n))).

(** The state [|0...0>] of qubits [0 .. n-1]. *)
Definition zero_state (n : nat) : amplitudes :=
  fun b => if all_zero n b then 1%R else 0%R.

(** Qubits [0 .. n-1] spell one of [targets]. *)
Definition marked_by (n : nat) (targets : list Z) (b : basis) : bool :=
  existsb (fun target => agrees n target b) targets.

(** The probability that a measurement of the state gives one of
    [targets]. *)
Definition success_probability (targets : list Z) (psi : amplitudes) : R :=
  fold_right Rplus 0%R (map (fun t => (psi (basis_of t) ^ 2)%R) targets).

(** [theoretical_prob] of the result analysis of the Grover script, for
    [M] marked states among [N = 2 ** n_qubits]:
    [math.sin((2 * num_iterations + 1) * theta) ** 2 * 100] with
    [theta = math.asin(math.sqrt(M / N))]; the real number that the float
    expression approximates. *)
Definition theoretical_prob (n_qubits : nat) (M : nat) (num_iterations : Z) : R :=
  let N := (2 ^ n_qubits)%R in
  let theta := asin (sqrt (INR M / N)) in
  (sin ((2 * IZR num_iterations + 1) * theta) ^ 2 * 100)%R.

(** ** vqe/main.py *)

(** The draws of [numpy.random] after [np.random.seed(42)]: the initial
    parameters and, for each iteration, the perturbation.  They are inputs
    of the embedding. *)
Record numpy_random : Type := {
  uniform : nat -> list Q;          (* [np.random.uniform(0, 2 * np.pi, size)] *)
  randn : nat -> nat -> list Q      (* the [k]-th [np.random.randn(size)] *)
}.

Module VQE.

Local Open Scope outcome_scope.

(** [params[param_idx]]. *)
Definition getitem (params : list Q) (idx : nat) : outcome Q :=
  match nth_error params idx with
  | Some theta => Returns theta
  | None => Raises IndexError
  end.

(** [for i in range(n_qubits): qc.ry(params[param_idx], i); param_idx += 1]. *)
Fixpoint rotation_layer (params : list Q) (qubits : list nat)
                        (qc : circuit) (param_idx : nat)
  : outcome (circuit * nat) :=
  match qubits with
  | [] => Returns (qc, param_idx)
  | i :: rest =>
      theta <- getitem params param_idx ;;
      rotation_layer params rest (add_gate (Gry theta i) qc) (S param_idx)
  end.

(** The loop [for layer in range(layers)] of [create_ansatz]. *)
Fixpoint ansatz_layers (n_qubits : nat) (params : list Q) (layers : nat)
                       (layer_range : list nat) (qc : circuit) (param_idx : nat)
  : outcome (circuit * nat) :=
  match layer_range with
  | [] => Returns (qc, param_idx)
  | layer :: rest =>
      st <- rotation_layer params (seq 0 n_qubits) qc param_idx ;;
      let qc := fst st in
      let qc := extend (map (fun i => Gcx i (i + 1)) (seq 0 (n_qubits - 1))) qc in
      let qc := if (layer <? layers - 1)%nat then add_gate Gbarrier qc else qc in
      ansatz_layers n_qubits params layers rest qc (snd st)
  end.

(** [create_ansatz(n_qubits, params, layers)]. *)
Definition create_ansatz (n_qubits : nat) (params : list Q) (layers : nat)
  : outcome circuit :=
  let qc := QuantumCircuit n_qubits 0 in
  st <- ansatz_layers n_qubits params layers (seq 0 layers) qc 0 ;;
  st <- rotation_layer params (seq 0 n_qubits) (fst st) (snd st) ;;
  Returns (fst st).

(** The basis change in front of the measurement:
    [h] for an ['X'], [sdg] then [h] for a ['Y']. *)
Fixpoint change_basis (i : nat) (pauli_string : list ascii) : list gate :=
  match pauli_string with
  | [] => []
  | pauli :: rest =>
      (if Ascii.eqb pauli "X" then [Gh i]
       else if Ascii.eqb pauli "Y" then [Gsdg i; Gh i]
       else []) ++ change_basis (S i) rest
  end.

(** [int(c)] for one character. *)
Definition int_digit (c : ascii) : outcome Z :=
  let n := nat_of_ascii c in
  if ((48 <=? n) && (n <=? 57))%nat then Returns (Z.of_nat (n - 48))
  else Raises (ValueError "invalid literal for int() with base 10").

(** The inner loop of [compute_expectation]: the parity of the measured
    bits on the qubits where the Pauli string is not ['I']. *)
Fixpoint parity_of (bitstring : list ascii) (i : nat) (pauli_string : list ascii)
                   (parity : Z) : outcome Z :=
  match pauli_string with
  | [] => Returns parity
  | pauli :: rest =>
      if Ascii.eqb pauli "I" then parity_of bitstring (S i) rest parity
      else
        let bit_idx := (Z.of_nat (List.length bitstring) - 1 - Z.of_nat i)%Z in
        if (bit_idx >=? 0)%Z then
          bit <- int_digit (nth (Z.to_nat bit_idx) bitstring "0"%char) ;;
          parity_of bitstring (S i) rest (Z.lxor parity bit)
        else parity_of bitstring (S i) rest parity
  end.

(** The loop of [compute_expectation] over [counts.items()]:
    [eigenvalue * count] is a product of integers, its quotient by [shots]
    a float, and [expectation += ...] an addition of floats. *)
Fixpoint compute_expectation_from (rt : runtime) (expectation : Q)
                                  (counts : list (string * Z))
                                  (pauli_string : list ascii) (shots : Z)
  : outcome Q :=
  match counts with
  | [] => Returns expectation
  | (bitstring, count) :: rest =>
      let bitstring :=
        filter (fun c => negb (Ascii.eqb c " ")) (list_ascii_of_string bitstring) in
      parity <- parity_of bitstring 0 pauli_string 0 ;;
      let eigenvalue := (1 - 2 * parity)%Z in
      term <- true_div rt (eigenvalue * count) shots ;;
      compute_expectation_from rt (float_add rt expectation term) rest
                               pauli_string shots
  end.

(** [compute_expectation(counts, pauli_string, shots)]. *)
Definition compute_expectation (rt : runtime) (counts : list (string * Z))
                               (pauli_string : string) (shots : Z) : outcome Q :=
  compute_expectation_from rt 0%Q counts (list_ascii_of_string pauli_string) shots.

(** ['I' * n_qubits]. *)
Fixpoint identity_string (n_qubits : nat) : string :=
  match n_qubits with
  | O => EmptyString
  | S n => String "I" (identity_string n)
  end.

Local Open Scope script_scope.

(** The loop of [run_vqe_iteration] over the terms of the Hamiltonian.  An
    identity term adds its coefficient; every other term builds a
    measurement circuit, submits it as a job of its own and waits for the
    counts. *)
Fixpoint measure_terms (rt : runtime) (cloud : sdk) (ansatz : circuit)
                       (n_qubits : nat) (shots : Z)
                       (hamiltonian : list (Q * string)) (energy : Q)
  : script Q :=
  match hamiltonian with
  | [] => ret energy
  | (coeff, pauli_string) :: rest =>
      if String.eqb pauli_string (identity_string n_qubits) then
        measure_terms rt cloud ansatz n_qubits shots rest (float_add rt energy coeff)
      else
        let qc := QuantumCircuit n_qubits n_qubits in
        let qc := compose ansatz qc in
        let qc := extend (change_basis 0 (list_ascii_of_string pauli_string)) qc in
        let qc := add_gate (Gmeasure (seq 0 n_qubits) (seq 0 n_qubits)) qc in
        emit (Built qc) ;;;
        transpiled <~ transpile cloud qc ;;
        job <~ sampler_run cloud [transpiled] shots ;;
        data <~ lift (job_result job) ;;
        let counts := extract_counts data [] in
        exp_val <~ lift (compute_expectation rt counts pauli_string shots) ;;
        measure_terms rt cloud ansatz n_qubits shots rest
                      (float_add rt energy (float_mul rt coeff exp_val))
  end.

(** [run_vqe_iteration(params, n_qubits, hamiltonian, backend, sampler, shots)]. *)
Definition run_vqe_iteration (rt : runtime) (cloud : sdk) (params : list Q)
                             (n_qubits : nat) (hamiltonian : list (Q * string))
                             (shots : Z)
  : script Q :=
  ansatz <~ lift (create_ansatz n_qubits params 1) ;;
  measure_terms rt cloud ansatz n_qubits shots hamiltonian 0%Q.

(** The simplified Hamiltonian of the hydrogen molecule in [run_vqe]. *)
Definition hamiltonian : list (Q * string) :=
  [ (-(10523732 # 10000000), "II");
    (39793742 # 100000000, "IZ");
    (-(39793742 # 100000000), "ZI");
    (-(1128010 # 100000000), "ZZ");
    (18093119 # 100000000, "XX");
    (18093119 # 100000000, "YY") ]%Q%string.

(** The dictionary that [run_vqe] returns.  [best_energy] is [None] while
    it is still [float('inf')]. *)
Record results : Type := {
  best_energy : option Q;
  best_params : list Q;
  energies : list Q;
  n_qubits_used : nat;
  backend_name : string;
  final_circuit : circuit;
  shots_used : Z
}.

(** The state of the optimisation loop of [run_vqe]. *)
Record search : Type := {
  params : list Q;
  best : option Q;
  best_so_far : list Q;
  history : list Q
}.

(** [best_params + 0.1 * np.random.randn(n_params)]. *)
Definition perturb (rt : runtime) (best_params noise : list Q) : list Q :=
  map (fun pn => float_add rt (fst pn) (float_mul rt (1 # 10) (snd pn)))
      (combine best_params noise).

(** The loop [for iteration in range(max_iterations)] of [run_vqe]. *)
Fixpoint optimise (rt : runtime) (cloud : sdk) (rng : numpy_random)
                  (n_qubits : nat) (shots : Z)
                  (max_iterations : nat) (iterations : list nat) (st : search)
  : script search :=
  match iterations with
  | [] => ret st
  | iteration :: rest =>
      print [Txt "Iteration "; Int (Z.of_nat iteration + 1); Txt "/";
             Int (Z.of_nat max_iterations)] ;;;
      energy <~ run_vqe_iteration rt cloud (params st) n_qubits hamiltonian shots ;;
      print [Txt "  Energy: "; Num energy; Txt " Hartree"] ;;;
      let improved :=
        match best st with
        | None => true
        | Some best_energy => negb (Qle_bool best_energy energy)
        end in
      let best' := if improved then Some energy else best st in
      let best_params := if improved then params st else best_so_far st in
      optimise rt cloud rng n_qubits shots max_iterations rest
               {| params := perturb rt best_params
                                    (randn rng iteration (2 * n_qubits));
                  best := best';
                  best_so_far := best_params;
                  history := history st ++ [energy] |}
  end.

(** [run_vqe(n_qubits, max_iterations, shots)]. *)
Definition run_vqe (rt : runtime) (cloud : sdk) (rng : numpy_random)
                   (creds : credentials)
                   (n_qubits max_iterations : nat) (shots : Z)
  : script results :=
  connect cloud creds ;;;
  backend <~ least_busy cloud (Z.of_nat n_qubits) ;;
  print [Txt "Using backend: "; Txt backend] ;;;
  let n_params := (2 * n_qubits)%nat in
  let params0 := uniform rng n_params in
  print [Txt "Running VQE for H2 molecule"] ;;;
  print [Txt "Qubits: "; Int (Z.of_nat n_qubits)] ;;;
  print [Txt "Parameters: "; Int (Z.of_nat n_params)] ;;;
  print [Txt "Max iterations: "; Int (Z.of_nat max_iterations)] ;;;
  st <~ optimise rt cloud rng n_qubits shots max_iterations (seq 0 max_iterations)
                 {| params := params0; best := None;
                    best_so_far := params0; history := [] |} ;;
  final_ansatz <~ lift (create_ansatz n_qubits (best_so_far st) 1) ;;
  emit (Built final_ansatz) ;;;
  ret {| best_energy := best st;
         best_params := best_so_far st;
         energies := history st;
         n_qubits_used := n_qubits;
         backend_name := backend;
         final_circuit := final_ansatz;
         shots_used := shots |}.

(** The loop over the optimisation history in [analyze_results]. *)
Fixpoint report_history (i : nat) (energies : list Q) : script unit :=
  match energies with
  | [] => ret tt
  | energy :: rest =>
      report [Txt "  Iteration "; Int (Z.of_nat i + 1); Txt ": "; Num energy;
              Txt " Hartree"] ;;;
      report_history (S i) rest
  end.

(** [analyze_results(results)].  The difference
    [results['best_energy'] - exact_energy] is the float sum of the first
    and the negation of the second. *)
Definition analyze_results (rt : runtime) (cloud : sdk) (res : results)
  : script unit :=
  report [Txt "============================================================"] ;;;
  report [Txt "VQE RESULTS"] ;;;
  report [Txt "============================================================"] ;;;
  report [Txt "Backend: "; Txt (backend_name res)] ;;;
  report [Txt "Qubits: "; Int (Z.of_nat (n_qubits_used res))] ;;;
  report [Txt "Optimization history:"] ;;;
  report_history 0 (energies res) ;;;
  report [Txt "Final results:"] ;;;
  report (Txt "  Best energy: " ::
          match best_energy res with
          | Some e => [Num e]
          | None => [Txt "inf"]
          end ++ [Txt " Hartree"]) ;;;
  report [Txt "  Best parameters: "; Nums (best_params res)] ;;;
  let exact_energy := (-(1137 # 1000))%Q in
  report [Txt "  Exact H2 ground state: "; Num exact_energy; Txt " Hartree"] ;;;
  report (Txt "  Error: " ::
          match best_energy res with
          | Some e => [Num (Qabs (float_add rt e (- exact_energy)))]
          | None => [Txt "inf"]
          end ++ [Txt " Hartree"]) ;;;
  report [Txt "VQE explanation:"] ;;;
  report [Txt "  1. Prepare parameterized quantum state |psi(theta)>"] ;;;
  report [Txt "  2. Measure energy <psi(theta)|H|psi(theta)>"] ;;;
  report [Txt "  3. Classical optimizer updates theta to minimize energy"] ;;;
  report [Txt "  4. Repeat until convergence"] ;;;
  report [Txt "Applications:"] ;;;
  report [Txt "  - Quantum chemistry (molecular ground states)"] ;;;
  report [Txt "  - Materials science"] ;;;
  report [Txt "  - Drug discovery"] ;;;
  report [Txt "Final ansatz circuit:"] ;;;
  report [Txt (sdk_draw cloud (final_circuit res))].

(** The body of the [try] under [if __name__ == "__main__":], with the
    two values of its configuration section as arguments. *)
Definition main_body (rt : runtime) (cloud : sdk) (rng : numpy_random)
                     (creds : credentials)
                     (n_qubits max_iterations : nat) : script unit :=
  print [Txt "Executing VQE on IBM Quantum hardware..."] ;;;
  print [Txt "VQE is a hybrid quantum-classical algorithm to find"] ;;;
  print [Txt "ground state energies, widely used for quantum chemistry."] ;;;
  res <~ run_vqe rt cloud rng creds n_qubits max_iterations 1024 ;;
  analyze_results rt cloud res.

(** The whole block: the body inside its [try], and the handler. *)
Definition main_block (rt : runtime) (cloud : sdk) (rng : numpy_random)
                      (creds : credentials)
                      (n_qubits max_iterations : nat) : script unit :=
  try_except (main_body rt cloud rng creds n_qubits max_iterations)
             credential_hint.

(** A run of the script: the module-level reads of the environment, then
    the main block. *)
Definition script_run (rt : runtime) (cloud : sdk) (rng : numpy_random)
                      (env : environment)
                      (n_qubits max_iterations : nat) : script unit :=
  creds <~ read_credentials env ;;
  main_block rt cloud rng creds n_qubits max_iterations.

(** The script as committed: [n_qubits = 2], [max_iterations = 3]. *)
Definition main (rt : runtime) (cloud : sdk) (rng : numpy_random)
                (env : environment)
  : script unit :=
  script_run rt cloud rng env 2 3.

End VQE.

(** ** shor-algorithm/main.py *)

Module Shor.

Local Open Scope Z_scope.
Local Open Scope outcome_scope.

(** [while b: a, b = b, a % b] followed by [return a]. *)
Fixpoint gcd_loop (fuel : nat) (a b : Z) : outcome Z :=
  match fuel with
  | O => OutOfFuel
  | S fuel' =>
      if b =? 0 then Returns a
      else r <- py_mod a b ;; gcd_loop fuel' b r
  end.

(** Each round replaces [b] by a remainder of smaller absolute value, so
    [|b| + 1] rounds are enough. *)
Definition gcd (a b : Z) : outcome Z :=
  gcd_loop (S (Z.abs_nat b)) a b.

Definition is_coprime (a N : Z) : outcome bool :=
  g <- gcd a N ;; Returns (g =? 1).

(** The loop of [modular_exponentiation]:
    [while power > 0: if power & 1: result = (result * a) % N;
     power >>= 1; a = (a * a) % N]. *)
Fixpoint modexp_loop (fuel : nat) (result a power N : Z) : outcome Z :=
  match fuel with
  | O => OutOfFuel
  | S fuel' =>
      if power >? 0 then
        result' <- (if Z.land power 1 =? 0 then Returns result
                    else py_mod (result * a) N) ;;
        a' <- py_mod (a * a) N ;;
        modexp_loop fuel' result' a' (Z.shiftr power 1) N
      else Returns result
  end.

(** [result = 1; a = a % N; <loop>; return result].  The loop runs once per
    binary digit of [power]. *)
Definition modular_exponentiation (a power N : Z) : outcome Z :=
  a0 <- py_mod a N ;;
  modexp_loop (S (S (Z.to_nat (Z.log2 power)))) 1 a0 power N.

(** [analyze_shor_measurement(measurement, n_count, N, a)].  The pair that
    the function returns is [(r, factors)], each possibly [None].  The
    power [2 ** n_count] is an integer for [n_count >= 0], the only case
    embedded. *)
Definition analyze_shor_measurement (rt : runtime) (measurement n_count N a : Z)
  : outcome (option Z * option (list Z)) :=
  phase <- true_div rt measurement (2 ^ n_count) ;;
  if Qeq_bool phase 0 then Returns (None, None)
  else
    frac <- limit_denominator rt phase N ;;
    let r := snd frac in
    r_mod_2 <- py_mod r 2 ;;
    if (r =? 0) || negb (r_mod_2 =? 0) then Returns (Some r, None)
    else
      half <- py_floordiv r 2 ;;
      x1 <- modular_exponentiation a half N ;;
      guess1 <- gcd (x1 - 1) N ;;
      x2 <- modular_exponentiation a half N ;;
      guess2 <- gcd (x2 + 1) N ;;
      let factors :=
        filter (fun guess => (1 <? guess) && (guess <? N)) [guess1; guess2] in
      Returns (Some r, match factors with [] => None | _ => Some factors end).

(** [create_qft_circuit(n_qubits)] of this script: two nested descending
    loops, then the swaps. *)
Definition create_qft_circuit (n_qubits : nat) : circuit :=
  let rotations :=
    flat_map
      (fun i =>
         Gh i :: map (fun j => Gcp (two_pi_over_pow2 (i - j + 1)) j i)
                     (rev (seq 0 i)))
      (rev (seq 0 n_qubits)) in
  let swaps :=
    map (fun i => Gswap i (n_qubits - i - 1)) (seq 0 (n_qubits / 2)) in
  extend (rotations ++ swaps) (QuantumCircuit n_qubits 0).

Definition create_inverse_qft_circuit (n_qubits : nat) : outcome circuit :=
  inverse (create_qft_circuit n_qubits).

(** [create_controlled_modular_multiplication(a, N)]: precomputed swap
    networks for [N = 15], the empty circuit otherwise. *)
Definition create_controlled_modular_multiplication (a N : Z) : circuit :=
  let swaps :=
    if N =? 15 then
      if a =? 7 then [Gswap 0 1; Gswap 1 2; Gswap 2 3]
      else if a =? 11 then [Gswap 0 3; Gswap 1 2]
      else if a =? 13 then [Gswap 0 1; Gswap 2 3]
      else if a =? 4 then [Gswap 0 2; Gswap 1 3]
      else if a =? 2 then [Gswap 0 1; Gswap 1 2; Gswap 2 3]
      else []
    else [] in
  extend swaps (QuantumCircuit 4 0).

(** [U.control(1)] for a circuit [U] made of swaps: one instruction whose
    qubit [0] is the control and whose qubits [1..] are those of [U]. *)
Definition control (U : circuit) : circuit :=
  let swaps :=
    flat_map (fun g => match g with
                       | Gswap a b => [(S a, S b)]
                       | _ => []
                       end) (gates U) in
  add_gate (Gcswaps 0 swaps) (QuantumCircuit (S (num_qubits U)) 0).

(** [create_shor_circuit(N, a, n_count)].  The counting register is qubits
    [0 .. n_count-1], the work register the four qubits after it. *)
Definition create_shor_circuit (N a : Z) (n_count : nat) : outcome circuit :=
  let n_work := 4%nat in
  let counting_qubits := seq 0 n_count in
  let work_qubits := seq n_count n_work in
  let classical_bits := seq 0 n_count in
  let qc := QuantumCircuit (n_count + n_work) n_count in
  let qc := add_gate (Gx (nth 0 work_qubits 0%nat)) qc in
  let qc := add_gate Gbarrier qc in
  let qc := extend (map Gh counting_qubits) qc in
  let qc := add_gate Gbarrier qc in
  qc <- fold_left
          (fun acc q =>
             qc <- acc ;;
             let power := 2 ^ Z.of_nat q in
             a_power <- modular_exponentiation a power N ;;
             let U := create_controlled_modular_multiplication a_power N in
             let controlled_U := control U in
             Returns (compose_on controlled_U (q :: work_qubits) qc))
          counting_qubits (Returns qc) ;;
  let qc := add_gate Gbarrier qc in
  inv_qft <- create_inverse_qft_circuit n_count ;;
  let qc := compose_on inv_qft counting_qubits qc in
  let qc := add_gate Gbarrier qc in
  Returns (add_gate (Gmeasure counting_qubits classical_bits) qc).

(** The dictionary that [run_shor] returns: the short one of the trivial
    cases, or the full one after a hardware run. *)
Inductive results : Type :=
| Trivial (factors : list Z)
| Measured (N a : Z) (n_count : nat) (counts : list (string * Z))
           (job_id backend : string) (qc : circuit) (shots : Z).

(** The loop [for k in range(2, int(math.log2(N)) + 1)] of [run_shor]:
    the first [k] whose rounded root is exact, if any. *)
Fixpoint find_prime_power (rt : runtime) (N : Z) (ks : list Z)
  : outcome (option (Z * Z)) :=
  match ks with
  | [] => Returns None
  | k :: ks' =>
      root <- round_root rt N k ;;
      if root ^ k =? N then Returns (Some (root, k))
      else find_prime_power rt N ks'
  end.

(** [range(lo, hi)]. *)
Definition range (lo hi : Z) : list Z :=
  map (fun i => lo + Z.of_nat i) (seq 0 (Z.to_nat (hi - lo))).

Local Open Scope script_scope.

(** [run_shor(N, a, n_count, shots)].  The texts of the printed lines keep
    their ASCII part. *)
Definition run_shor (rt : runtime) (cloud : sdk) (creds : credentials)
                    (N : Z) (a : option Z) (n_count : nat) (shots : Z)
  : script results :=
  if N <? 3 then raise (ValueError "N must be >= 3")
  else if N mod 2 =? 0 then
    print [Txt "N="; Int N; Txt " is even. Factor: 2 and "; Int (N / 2)] ;;;
    ret (Trivial [2; N / 2])
  else
    top <~ lift (int_log2 rt N) ;;
    found <~ lift (find_prime_power rt N (range 2 (top + 1))) ;;
    match found with
    | Some (root, k) =>
        print [Txt "N="; Int N; Txt " is a prime power: "; Int root;
               Txt "^"; Int k] ;;;
        ret (Trivial [root])
    | None =>
        let a := match a with None => 7 | Some a => a end in
        g <~ lift (gcd a N) ;;
        if g >? 1 then
          print [Txt "Lucky! gcd("; Int a; Txt ", "; Int N; Txt ") = "; Int g;
                 Txt " is a factor!"] ;;;
          q <~ lift (py_floordiv N g) ;;
          ret (Trivial [g; q])
        else
          print [Txt "Factoring N="; Int N; Txt " using a="; Int a] ;;;
          print [Txt "Counting qubits: "; Int (Z.of_nat n_count)] ;;;
          connect cloud creds ;;;
          let total_qubits := (n_count + 4)%nat in
          backend <~ least_busy cloud (Z.of_nat total_qubits) ;;
          print [Txt "Using backend: "; Txt backend] ;;;
          qc <~ lift (create_shor_circuit N a n_count) ;;
          emit (Built qc) ;;;
          print [Txt "Total qubits: "; Int (Z.of_nat total_qubits)] ;;;
          print [Txt "Circuit:"] ;;;
          print [Txt (sdk_draw cloud qc)] ;;;
          transpiled_qc <~ transpile cloud qc ;;
          print [Txt "Transpiled circuit depth: ";
                 Int (sdk_depth cloud transpiled_qc)] ;;;
          job <~ sampler_run cloud [transpiled_qc] shots ;;
          print [Txt "Job submitted: "; Txt (job_id job)] ;;;
          print [Txt "Waiting for results..."] ;;;
          data <~ lift (job_result job) ;;
          let counts := extract_counts data [] in
          ret (Measured N a n_count counts (job_id job) backend qc shots)
    end.

(** [sorted(counts.items(), key=lambda x: x[1], reverse=True)]: a stable
    sort, largest count first. *)
Fixpoint insert_by_count (x : string * Z) (l : list (string * Z))
  : list (string * Z) :=
  match l with
  | [] => [x]
  | y :: ys =>
      if snd y <=? snd x then x :: y :: ys else y :: insert_by_count x ys
  end.

Definition sorted_by_count (counts : list (string * Z)) : list (string * Z) :=
  fold_right insert_by_count [] counts.

(** [sorted(found_factors)]. *)
Fixpoint insert_ascending (x : Z) (l : list Z) : list Z :=
  match l with
  | [] => [x]
  | y :: ys => if x <=? y then x :: y :: ys else y :: insert_ascending x ys
  end.

Definition sorted (l : list Z) : list Z := fold_right insert_ascending [] l.

(** A Python [set] of integers, as a list without repetition. *)
Definition set_add (x : Z) (s : list Z) : list Z :=
  if existsb (Z.eqb x) s then s else s ++ [x].

Definition set_discard (x : Z) (s : list Z) : list Z :=
  filter (fun y => negb (y =? x)) s.

(** [period_candidates[r] = period_candidates.get(r, 0) + count]. *)
Fixpoint dict_add (r count : Z) (d : list (Z * Z)) : list (Z * Z) :=
  match d with
  | [] => [(r, count)]
  | (k, v) :: d' =>
      if k =? r then (k, v + count) :: d' else (k, v) :: dict_add r count d'
  end.

(** The body of [for f in factors: found_factors.add(f);
    found_factors.add(N // f)]. *)
Fixpoint add_factors (N : Z) (factors found : list Z) : outcome (list Z) :=
  match factors with
  | [] => Returns found
  | f :: rest =>
      (q <- py_floordiv N f ;;
       add_factors N rest (set_add q (set_add f found)))%outcome
  end.

(** The loop over the ten most frequent outcomes in [analyze_results]. *)
Fixpoint analyze_top (rt : runtime) (N a : Z) (n_count : nat) (shots : Z)
                     (items : list (string * Z))
                     (found : list Z) (periods : list (Z * Z))
  : script (list Z * list (Z * Z)) :=
  match items with
  | [] => ret (found, periods)
  | (bitstring, count) :: rest =>
      measurement <~ lift (int_base2 bitstring) ;;
      ratio <~ lift (true_div rt count shots) ;;
      let percentage := float_mul rt ratio 100 in
      analysis <~ lift (analyze_shor_measurement rt measurement
                                                 (Z.of_nat n_count) N a) ;;
      let (r, factors) := (analysis : option Z * option (list Z)) in
      let r_text :=
        match r with
        | Some r' => if r' =? 0 then [] else [Txt " [r="; Int r'; Txt "]"]
        | None => []
        end in
      let line :=
        [Txt "  |"; Txt bitstring; Txt "> = "; Int measurement; Txt ": ";
         Int count; Txt " ("; Num percentage; Txt "%)"] ++ r_text in
      match factors with
      | Some (f :: fs) =>
          found' <~ lift (add_factors N (f :: fs) found) ;;
          report (line ++ [Txt " -> factors: "; Ints (f :: fs)]) ;;;
          analyze_top rt N a n_count shots rest found' periods
      | _ =>
          let periods' :=
            match r with
            | Some r' => if r' =? 0 then periods else dict_add r' count periods
            | None => periods
            end in
          report line ;;;
          analyze_top rt N a n_count shots rest found periods'
      end
  end.

(** The loop [for i in range(1, 20)] that looks for the period
    classically and stops at the first hit. *)
Fixpoint classical_verification (N a : Z) (exponents : list Z) : script unit :=
  match exponents with
  | [] => ret tt
  | i :: rest =>
      y <~ lift (modular_exponentiation a i N) ;;
      if y =? 1 then
        report [Txt "  Period r = "; Int i; Txt " (since "; Int a; Txt "^";
                Int i; Txt " = 1 mod "; Int N; Txt ")"] ;;;
        (if i mod 2 =? 0 then
           x <~ lift (modular_exponentiation a (i / 2) N) ;;
           f1 <~ lift (gcd (x - 1) N) ;;
           f2 <~ lift (gcd (x + 1) N) ;;
           report [Txt "  gcd("; Int a; Txt "^"; Int (i / 2); Txt " - 1, ";
                   Int N; Txt ") = gcd("; Int (x - 1); Txt ", "; Int N;
                   Txt ") = "; Int f1] ;;;
           report [Txt "  gcd("; Int a; Txt "^"; Int (i / 2); Txt " + 1, ";
                   Int N; Txt ") = gcd("; Int (x + 1); Txt ", "; Int N;
                   Txt ") = "; Int f2]
         else ret tt)
      else classical_verification N a rest
  end.

(** [N.bit_length()]. *)
Definition bit_length (N : Z) : Z :=
  if N =? 0 then 0 else Z.log2 (Z.abs N) + 1.

(** [analyze_results(results)]: everything it prints is a [Report]. *)
Definition analyze_results (rt : runtime) (cloud : sdk) (res : results)
  : script unit :=
  match res with
  | Trivial factors =>
      report [Txt "Trivial factorization: "; Ints factors]
  | Measured N a n_count counts job_id backend qc shots =>
      report [Txt "============================================================"] ;;;
      report [Txt "SHOR'S ALGORITHM RESULTS"] ;;;
      report [Txt "============================================================"] ;;;
      report [Txt "Backend: "; Txt backend] ;;;
      report [Txt "Job ID: "; Txt job_id] ;;;
      report [Txt "Number to factor: N = "; Int N] ;;;
      report [Txt "Base: a = "; Int a] ;;;
      report [Txt "Counting qubits: "; Int (Z.of_nat n_count)] ;;;
      report [Txt "Total shots: "; Int shots] ;;;
      match counts with
      | [] => report [Txt "No measurement counts available"]
      | _ :: _ =>
          report [Txt "Measurement counts (top 10):"] ;;;
          let sorted_counts := sorted_by_count counts in
          state <~ analyze_top rt N a n_count shots (firstn 10 sorted_counts)
                               [] [] ;;
          let (found_factors, period_candidates) :=
            (state : list Z * list (Z * Z)) in
          (if (10 <? List.length counts)%nat then
             report [Txt "  ... and ";
                     Int (Z.of_nat (List.length counts) - 10);
                     Txt " more outcomes"]
           else ret tt) ;;;
          report [Txt "Period candidates found: ";
                  Ints (map fst period_candidates)] ;;;
          match found_factors with
          | _ :: _ =>
              let found_factors := set_discard N (set_discard 1 found_factors) in
              match found_factors with
              | _ :: _ =>
                  let factors_list := sorted found_factors in
                  report [Txt "SUCCESS! Factors of "; Int N; Txt ": ";
                          Ints factors_list] ;;;
                  match factors_list with
                  | f0 :: f1 :: _ =>
                      report [Txt "  Verification: "; Int f0; Txt " x "; Int f1;
                              Txt " = "; Int (f0 * f1)]
                  | _ => ret tt
                  end
              | [] =>
                  report [Txt "No non-trivial factors found in top measurements."] ;;;
                  report [Txt "  This may be due to hardware noise or insufficient shots."]
              end
          | [] =>
              report [Txt "No factors found. Try:"] ;;;
              report [Txt "  - More shots"] ;;;
              report [Txt "  - Different base 'a'"] ;;;
              report [Txt "  - More counting qubits"]
          end ;;;
          report [Txt "Classical verification for a="; Int a; Txt ", N="; Int N;
                  Txt ":"] ;;;
          classical_verification N a (range 1 20) ;;;
          report [Txt "Quantum advantage:"] ;;;
          report [Txt "  Classical factoring: O(exp(n^(1/3))) - exponential"] ;;;
          report [Txt "  Shor's algorithm: O(n^3) - polynomial"] ;;;
          report [Txt "  For N="; Int N; Txt " ("; Int (bit_length N);
                  Txt " bits), quantum provides exponential speedup!"] ;;;
          report [Txt "Circuit diagram:"] ;;;
          report [Txt (sdk_draw cloud qc)]
      end
  end.

(** The body of the [try] under [if __name__ == "__main__":], with the
    three values of its configuration section as arguments. *)
Definition main_body (rt : runtime) (cloud : sdk) (creds : credentials)
                     (N a : Z) (n_count : nat) : script unit :=
  print [Txt "Executing Shor's Algorithm on IBM Quantum hardware..."] ;;;
  print [Txt "Shor's algorithm factors integers in polynomial time,"] ;;;
  print [Txt "breaking RSA encryption. This demonstrates quantum supremacy"] ;;;
  print [Txt "for a problem with major practical implications."] ;;;
  print [Txt "Attempting to factor N = "; Int N] ;;;
  print [Txt "Using base a = "; Int a] ;;;
  print [Txt "Expected factors: 3 and 5"] ;;;
  res <~ run_shor rt cloud creds N (Some a) n_count 1024 ;;
  analyze_results rt cloud res.

(** The whole block: the body inside its [try], and the handler. *)
Definition main_block (rt : runtime) (cloud : sdk) (creds : credentials)
                      (N a : Z) (n_count : nat) : script unit :=
  try_except (main_body rt cloud creds N a n_count) credential_hint.

(** A run of the script: the module-level reads of the environment, then
    the main block. *)
Definition script_run (rt : runtime) (cloud : sdk) (env : environment)
                      (N a : Z) (n_count : nat) : script unit :=
  creds <~ read_credentials env ;;
  main_block rt cloud creds N a n_count.

(** The script as committed: [N = 15], [a = 7], [n_count = 4]. *)
Definition main (rt : runtime) (cloud : sdk) (env : environment) : script unit :=
  script_run rt cloud env 15 7 4.

End Shor.

(** ** Readings of the specification *)

(** "No custom numerics", read on a binary integer function of a script:
    whatever it returns is one of its arguments, passed through. *)
Definition passes_an_argument_through (f : Z -> Z -> outcome Z) : Prop :=
  forall a b v, f a b = Returns v -> v = a \/ v = b.

(** The three steps of "construct gates, call run, print results". *)
Inductive phase : Type := Construct | Run | Output.

Definition phase_of (e : event) : list phase :=
  match e with
  | Built _ => [Construct]
  | Submit _ _ => [Run]
  | Report _ => [Output]
  | _ => []
  end.

Definition phases (t : list event) : list phase := flat_map phase_of t.

(** A trace follows the shape when its steps are: at least one
    construction, then one submission, then only output. *)
Definition is_output (p : phase) : bool :=
  match p with Output => true | _ => false end.

Fixpoint after_construct (l : list phase) : bool :=
  match l with
  | Construct :: l' => after_construct l'
  | Run :: l' => forallb is_output l'
  | _ => false
  end.

Definition follows_shape (l : list phase) : bool :=
  match l with
  | Construct :: l' => after_construct l'
  | _ => false
  end.


Definition is_service (e : event) : bool :=
  match e with Service _ _ _ => true | _ => false end.

(** ** A sample world, for concrete runs *)

Definition sample_counts : list (string * Z) :=
  [("0100", 300); ("0000", 250); ("1000", 250); ("1100", 224)]%string%Z.

Definition sample_cloud : sdk := {|
  sdk_service := fun _ _ _ => Returns tt;
  sdk_least_busy := fun _ => Returns "ibm_sample"%string;
  sdk_transpile := fun qc => Returns qc;
  sdk_depth := fun qc => Z.of_nat (List.length (gates qc));
  sdk_draw := fun _ => "(drawing)"%string;
  sdk_run := fun _ _ _ =>
    Returns {| job_id := "job-0"%string;
               job_result :=
                 Returns [("_private", AttrPlain);
                          ("broken", AttrRaises (SdkError "unreadable"));
                          ("meas", AttrCounts sample_counts)]%string |}
|}.

Definition sample_env : environment :=
  fun name =>
    if String.eqb name "IBM_QUANTUM_TOKEN" then Some "token"%string
    else if String.eqb name "IBM_QUANTUM_INSTANCE" then Some "instance"%string
    else None.

Definition sample_credentials : credentials :=
  {| IBM_QUANTUM_TOKEN := Some "token"%string;
     IBM_QUANTUM_INSTANCE := Some "instance"%string |}.

Definition sample_rng : numpy_random := {|
  uniform := fun size => repeat (1 # 2) size;
  randn := fun _ size => repeat (1 # 3) size
|}.

(** ** Properties of traces *)

(** Every event that the script adds to the trace satisfies [P]. *)
Definition emits_only (P : event -> Prop) {A : Type} (m : script A) : Prop :=
  forall n, Forall P (snd (m n)).

(** Lines of the result analysis, and progress lines. *)
Definition is_report (e : event) : Prop :=
  match e with Report _ => True | _ => False end.

Definition is_print (e : event) : Prop :=
  match e with Print _ => True | _ => False end.

Definition is_trivial (res : Shor.results) : bool :=
  match res with
  | Shor.Trivial _ => true
  | Shor.Measured _ _ _ _ _ _ _ _ => false
  end.

(** How far [run_shor] gets: it ends before building a circuit, and then
    returns at most a trivial factorization; or it stops after building;
    or it submits its one job, and then returns at most measured counts. *)
Definition run_shor_shape (r : outcome Shor.results * list event) : Prop :=
  (phases (snd r) = [] /\ submissions (snd r) = 0%nat /\
   forall res, fst r = Returns res -> is_trivial res = true)
  \/ (phases (snd r) = [Construct] /\ submissions (snd r) = 0%nat /\
      forall res, fst r <> Returns res)
  \/ (phases (snd r) = [Construct; Run] /\ submissions (snd r) = 1%nat /\
      forall res, fst r = Returns res -> is_trivial res = false).

(** The construct/submit/report steps that a run of the Shor script can
    show. *)
Definition shor_steps (l : list phase) : Prop :=
  l = [] \/ l = [Output] \/ l = [Construct]
  \/ exists k, l = Construct :: Run :: repeat Output k.

(** A piece of script submits at most [K] jobs, and exactly [K] when it
    returns. *)
Definition counted (K : nat) {A : Type} (r : outcome A * list event) : Prop :=
  (submissions (snd r) <= K)%nat /\
  (forall a, fst r = Returns a -> submissions (snd r) = K).

(** The terms of a Hamiltonian that are measured on the hardware. *)
Definition measured_terms (n_qubits : nat) (ham : list (Q * string)) : nat :=
  List.length
    (filter (fun term =>
               negb (String.eqb (snd term) (VQE.identity_string n_qubits)))
            ham).

(** An event that reads no environment variable and, when it connects to
    the service, passes the two credentials and nothing else. *)
Definition uses_credentials (creds : credentials) (e : event) : Prop :=
  match e with
  | Getenv _ => False
  | Service channel token instance =>
      channel = "ibm_quantum_platform"%string /\
      token = IBM_QUANTUM_TOKEN creds /\ instance = IBM_QUANTUM_INSTANCE creds
  | _ => True
  end.

(** A non-trivial divisor of [N]. *)
Definition proper_divisor (N f : Z) : Prop := (1 < f < N)%Z /\ (f | N)%Z.

(** The line "SUCCESS! Factors of N: [...]" of the Shor script lists only
    non-trivial divisors of [N]; any other event passes. *)
Definition success_line_sound (N : Z) (e : event) : Prop :=
  forall (n : Z) (l : list Z),
    e = Report [Txt "SUCCESS! Factors of "; Int n; Txt ": "; Ints l] ->
    n = N /\ Forall (proper_divisor N) l.

(** The line that reports a period found classically. *)
Definition period_line (N a i : Z) : event :=
  Report [Txt "  Period r = "; Int i; Txt " (since "; Int a; Txt "^";
          Int i; Txt " = 1 mod "; Int N; Txt ")"].

(** An attribute of a job result that the loop of [extract_counts] stops
    at: a public one whose [get_counts()] is not empty. *)
Definition usable (entry : string * attribute) : bool :=
  negb (starts_with_underscore (fst entry))
  && match snd entry with
     | AttrCounts (_ :: _) => true
     | _ => false
     end.

(** A state with one amplitude on the marked basis states and another on
    the rest. *)
Definition two_valued (n : nat) (targets : list Z) (alpha beta : R) : amplitudes :=
  fun b => if marked_by n targets b then alpha else beta.

(** One Grover iteration on such a state, for [M] marked states among [N]:
    the oracle negates the marked amplitude, the diffuser reflects both
    about their mean and negates them. *)
Definition grover_step (M N : R) (ab : R * R) : R * R :=
  let mean := ((- (M * fst ab) + (N - M) * snd ab) / N)%R in
  (- (2 * mean + fst ab), - (2 * mean - snd ab))%R.

(** [k] iterations. *)
Fixpoint iterate_step (M N : R) (k : nat) (ab : R * R) : R * R :=
  match k with
  | O => ab
  | S k' => iterate_step M N k' (grover_step M N ab)
  end.

(** The positions below [n] where the two lists of bases agree. *)
Definition matching_bases (a_bases b_bases : list Z) (n : nat) : list nat :=
  filter (fun i => (nth i a_bases 0 =? nth i b_bases 0)%Z) (seq 0 n).

(** A product state of qubits [0 .. n-1]: qubit [i] has amplitude
    [fs i v] on the value [v]. *)
Fixpoint product_state (n : nat) (fs : nat -> bool -> R) (b : basis) : R :=
  match n with
  | O => 1%R
  | S n' => (product_state n' fs b * fs n' (b n'))%R
  end.

(** What an [x], an [h] or a barrier does to the state of qubit [i]. *)
Definition on_qubit (i : nat) (f : bool -> R) (g : gate) : bool -> R :=
  match g with
  | Gx q => if (q =? i)%nat then fun v => f (negb v) else f
  | Gh q =>
      if (q =? i)%nat
      then fun v => (/ sqrt 2 * (f false + sign v * f true))%R
      else f
  | _ => f
  end.

(** An instruction that acts on one of the qubits [0 .. n-1] alone. *)
Definition single_qubit (n : nat) (g : gate) : bool :=
  match g with
  | Gx q | Gh q => (q <? n)%nat
  | Gbarrier => true
  | _ => false
  end.

(** The qubit in state [|0>]. *)
Definition ket_zero (v : bool) : R := if v then 0%R else 1%R.

(** An instruction that touches no qubit other than [j]. *)
Definition touches_only (j : nat) (g : gate) : Prop :=
  match g with
  | Gx q | Gh q => q = j
  | Gbarrier => True
  | _ => False
  end.

(** A bit or a basis: [0] or [1]. *)
Definition is_bit (v : Z) : Prop := v = 0%Z \/ v = 1%Z.

(** The rotation angles of a circuit, in program order. *)
Definition ry_angles (gs : list gate) : list Q :=
  flat_map (fun g => match g with Gry theta _ => [theta] | _ => [] end) gs.

(** The number of [cx] instructions. *)
Definition count_cx (gs : list gate) : nat :=
  List.length (filter (fun g => match g with Gcx _ _ => true | _ => false end) gs).

(** Every value that the script returns satisfies [P]. *)
Definition returns_only {A : Type} (P : A -> Prop) (m : script A) : Prop :=
  forall n a, fst (m n) = Returns a -> P a.

(** The best energy of a search is the least of its history. *)
Definition best_is_least (best : option Q) (history : list Q) : Prop :=
  match best with
  | None => history = []
  | Some e => In e history /\ Forall (fun x => (e <= x)%Q) history
  end.

(** A measured bitstring: binary digits, possibly with spaces between the
    registers. *)
Definition is_bitstring (s : string) : Prop :=
  Forall (fun c => c = "0"%char \/ c = "1"%char \/ c = " "%char)
         (list_ascii_of_string s).

(** The basis state [|x mod 2^n>] of qubits [0 .. n-1]. *)
Definition basis_state (n : nat) (x : Z) : amplitudes :=
  fun b => if agrees n x b then 1%R else 0%R.

(** The qubits that an instruction acts on. *)
Definition qubits_of (g : gate) : list nat :=
  match g with
  | Gh q | Gx q | Gz q | Gs q | Gsdg q | Gry _ q => [q]
  | Gcx c t | Gcz c t | Gcp _ c t | Gswap c t => [c; t]
  | Gmcx cs t => cs ++ [t]
  | Gcswaps c swaps => c :: flat_map (fun ab => [fst ab; snd ab]) swaps
  | Gbarrier => []
  | Gmeasure qs _ => qs
  end.

(** An instruction on distinct qubits of the register [0 .. n-1]. *)
Definition within (n : nat) (g : gate) : Prop :=
  NoDup (qubits_of g) /\ Forall (fun q => (q < n)%nat) (qubits_of g).

Definition is_h (g : gate) : bool := match g with Gh _ => true | _ => false end.

Definition is_cp (g : gate) : bool := match g with Gcp _ _ _ => true | _ => false end.

Definition is_swap (g : gate) : bool := match g with Gswap _ _ => true | _ => false end.

(** [b] with the order of qubits [0 .. n-1] reversed. *)
Definition reverse_qubits (n : nat) (b : basis) : basis :=
  fun i => if (i <? n)%nat then b (n - 1 - i)%nat else b i.

(** [b] with qubits [0 .. m-1] exchanged with qubits [n-1 .. n-m]. *)
Definition reverse_outer (n m : nat) (b : basis) : basis :=
  fun i => if ((i <? m) || ((n - m <=? i) && (i <? n)))%nat
           then b (n - 1 - i)%nat else b i.

(** The instructions that [qft_rotations(circuit, n)] appends. *)
Fixpoint rotations (n : nat) : list gate :=
  match n with
  | O => []
  | S n' =>
      Gh n'
      :: map (fun qubit => Gcp (two_pi_over_pow2 (n' - qubit + 1)) qubit n')
             (seq 0 n')
      ++ rotations n'
  end.

(** The number of instructions of one kind. *)
Definition count (kind : gate -> bool) (gs : list gate) : nat :=
  List.length (filter kind gs).



Definition is_cswaps (g : gate) : bool :=
  match g with Gcswaps _ _ => true | _ => false end.

(** How many entries of [targets] spell the basis state [x] of [n] qubits:
    an entry counts through its low [n] bits. *)
Definition times_marked (n : nat) (targets : list Z) (x : Z) : nat :=
  List.length (filter (fun t => (t mod 2 ^ Z.of_nat n =? x)%Z) targets).

(** How many of the qubits that a Pauli string measures read [1] in a
    bitstring.  Qubit [i] is the character [i] places from the right end
    of the bitstring and faces character [i] of the Pauli string; what
    has no partner on the other side does not count. *)
Definition measured_ones (bitstring pauli_string : list ascii) : nat :=
  List.length
    (filter (fun pq => negb (Ascii.eqb (fst pq) "I") && Ascii.eqb (snd pq) "1")
            (combine pauli_string (rev bitstring))).

(** The eigenvalue of a Pauli string on a measured bitstring: [-1] when an
    odd number of the measured qubits read [1]. *)
Definition eigenvalue_of (bitstring pauli_string : string) : Z :=
  let bits := filter (fun c => negb (Ascii.eqb c " "))
                     (list_ascii_of_string bitstring) in
  if Nat.odd (measured_ones bits (list_ascii_of_string pauli_string))
  then (-1)%Z else 1%Z.

(** The float sum, in the order of the dictionary and starting from
    [0.0], of [eigenvalue * count / shots]. *)
Definition weighted_sum (rt : runtime) (pauli_string : string) (shots : Z)
                        (counts : list (string * Z)) : outcome Q :=
  fold_left
    (fun acc bc =>
       (expectation <- acc ;;
        term <- true_div rt (eigenvalue_of (fst bc) pauli_string * snd bc) shots ;;
        Returns (float_add rt expectation term))%outcome)
    counts (Returns 0%Q).

(** ** The runs of the Deutsch and Grover scripts, and the index script *)

(** [counts.get(key, 0)]. *)
Fixpoint dict_get (key : string) (counts : list (string * Z)) : Z :=
  match counts with
  | [] => 0%Z
  | (k, v) :: rest => if String.eqb k key then v else dict_get key rest
  end.

(** [s.upper()] on ASCII letters. *)
Definition upper_char (c : ascii) : ascii :=
  let n := nat_of_ascii c in
  if ((97 <=? n) && (n <=? 122))%nat then ascii_of_nat (n - 32) else c.

Fixpoint upper (s : string) : string :=
  match s with
  | EmptyString => EmptyString
  | String c rest => String (upper_char c) (upper rest)
  end.

(** ['0' * n]. *)
Fixpoint zeros (n : nat) : string :=
  match n with
  | O => EmptyString
  | S n' => String "0" (zeros n')
  end.

(** [s.zfill(width)]: zeros on the left up to [width], after a leading
    sign if there is one. *)
Definition zfill (width : nat) (s : string) : string :=
  let pad := zeros (width - String.length s) in
  match s with
  | String c rest =>
      if (Ascii.eqb c "+" || Ascii.eqb c "-")%bool
      then String c (pad ++ rest)
      else pad ++ s
  | EmptyString => pad
  end.

(** The binary digits of a positive number, most significant first. *)
Fixpoint binary_digits (p : positive) (acc : string) : string :=
  match p with
  | xH => String "1" acc
  | xO p' => binary_digits p' (String "0" acc)
  | xI p' => binary_digits p' (String "1" acc)
  end.

(** [format(state, f'0{width}b')]: the binary digits, behind a minus sign
    for a negative number, with zeros between sign and digits up to
    [width]. *)
Definition format_binary (width : nat) (state : Z) : string :=
  match state with
  | Z0 => zfill width "0"
  | Zpos p => zfill width (binary_digits p EmptyString)
  | Zneg p => zfill width (String "-" (binary_digits p EmptyString))
  end.

(** *** deutsch-algorithm/main.py *)

Module DeutschScript.

Import Deutsch.
Local Open Scope Z_scope.
Local Open Scope script_scope.

(** The dictionary that [run_deutsch_algorithm] returns. *)
Inductive results : Type :=
| Results (oracle_type : string) (counts : list (string * Z))
          (job_id backend : string) (qc : circuit) (shots : Z).

(** [run_deutsch_algorithm(oracle_type, shots)]. *)
Definition run_deutsch_algorithm (cloud : sdk) (creds : credentials)
                                 (oracle_type : string) (shots : Z)
  : script results :=
  connect cloud creds ;;;
  backend <~ least_busy cloud 2 ;;
  print [Txt "Using backend: "; Txt backend] ;;;
  qc <~ lift (create_deutsch_circuit oracle_type) ;;
  emit (Built qc) ;;;
  print [Txt "Oracle type: "; Txt oracle_type] ;;;
  print [Txt "Circuit:"] ;;;
  print [Txt (sdk_draw cloud qc)] ;;;
  transpiled_qc <~ transpile cloud qc ;;
  print [Txt "Transpiled circuit depth: "; Int (sdk_depth cloud transpiled_qc)] ;;;
  job <~ sampler_run cloud [transpiled_qc] shots ;;
  print [Txt "Job submitted: "; Txt (job_id job)] ;;;
  print [Txt "Waiting for results..."] ;;;
  data <~ lift (job_result job) ;;
  let counts := extract_counts data [] in
  ret (Results oracle_type counts (job_id job) backend qc shots).

(** [analyze_results(results)]: everything it prints is a [Report]. *)
Definition analyze_results (rt : runtime) (cloud : sdk) (res : results)
  : script unit :=
  let (oracle_type, counts, job_id, backend, qc, shots) := res in
  report [Txt "=================================================="] ;;;
  report [Txt "DEUTSCH ALGORITHM RESULTS"] ;;;
  report [Txt "=================================================="] ;;;
  report [Txt "Backend: "; Txt backend] ;;;
  report [Txt "Job ID: "; Txt job_id] ;;;
  report [Txt "Oracle type: "; Txt oracle_type] ;;;
  report [Txt "Total shots: "; Int shots] ;;;
  let constant :=
    existsb (String.eqb oracle_type) ["constant_0"; "constant_1"]%string in
  let expected := (if constant then "constant" else "balanced")%string in
  let expected_measurement := (if constant then "0" else "1")%string in
  report [Txt "Expected: "; Txt expected; Txt " (measurement should be ";
          Txt expected_measurement; Txt ")"] ;;;
  match counts with
  | [] => report [Txt "No measurement counts available"]
  | _ :: _ =>
      report [Txt "Measurement counts: "; Counts counts] ;;;
      let count_0 := dict_get "0" counts in
      let count_1 := dict_get "1" counts in
      ratio_0 <~ lift (true_div rt count_0 shots) ;;
      report [Txt "  |0> (constant): "; Int count_0; Txt " (";
              Num (float_mul rt ratio_0 100); Txt "%)"] ;;;
      ratio_1 <~ lift (true_div rt count_1 shots) ;;
      report [Txt "  |1> (balanced): "; Int count_1; Txt " (";
              Num (float_mul rt ratio_1 100); Txt "%)"] ;;;
      let measured :=
        (if count_0 >? count_1 then "constant" else "balanced")%string in
      let correct_count := dict_get expected_measurement counts in
      ratio <~ lift (true_div rt correct_count shots) ;;
      let success_rate := float_mul rt ratio 100 in
      report [Txt "Algorithm conclusion: Function is "; Txt (upper measured)] ;;;
      report [Txt "Expected result: "; Txt (upper expected)] ;;;
      report [Txt "Success rate: "; Num success_rate; Txt "%"] ;;;
      (if String.eqb measured expected then
         report [Txt "Correct! The quantum algorithm correctly identified the function type."]
       else
         report [Txt "Incorrect due to hardware noise. The majority measurement disagrees with expected."]) ;;;
      report [Txt "Circuit diagram:"] ;;;
      report [Txt (sdk_draw cloud qc)]
  end.

(** The body of the [try] under [if __name__ == "__main__":], with the
    oracle type of its configuration line as argument. *)
Definition main_body (rt : runtime) (cloud : sdk) (creds : credentials)
                     (oracle_type : string) : script unit :=
  print [Txt "Executing Deutsch Algorithm on IBM Quantum hardware..."] ;;;
  print [Txt "The Deutsch algorithm determines if a function f:{0,1}->{0,1}"] ;;;
  print [Txt "is CONSTANT (f(0)=f(1)) or BALANCED (f(0)!=f(1)) with ONE query."] ;;;
  print [Txt "Classical algorithms require TWO queries."] ;;;
  res <~ run_deutsch_algorithm cloud creds oracle_type 1024 ;;
  analyze_results rt cloud res.

(** The whole block: the body inside its [try], and the handler. *)
Definition main_block (rt : runtime) (cloud : sdk) (creds : credentials)
                      (oracle_type : string) : script unit :=
  try_except (main_body rt cloud creds oracle_type) credential_hint.

(** A run of the script: the module-level reads of the environment, then
    the main block. *)
Definition script_run (rt : runtime) (cloud : sdk) (env : environment)
                      (oracle_type : string) : script unit :=
  creds <~ read_credentials env ;;
  main_block rt cloud creds oracle_type.

(** The script as committed: [oracle_type = 'balanced_identity']. *)
Definition main (rt : runtime) (cloud : sdk) (env : environment) : script unit :=
  script_run rt cloud env "balanced_identity".

End DeutschScript.

(** *** grover-algorithm/main.py *)

Module GroverScript.

Import Grover.
Local Open Scope Z_scope.
Local Open Scope script_scope.

(** The two float computations of the script, taken from the [math]
    module of the language runtime:
    [round(math.pi / 4 * math.sqrt(N / num_marked))] and
    [math.sin((2 * num_iterations + 1) * math.asin(math.sqrt(M / N))) ** 2 * 100]. *)
Record math_module : Type := {
  round_quarter_pi_sqrt : Z -> Z -> outcome Z;
  sine_squared_percent : Z -> Z -> Z -> outcome Q
}.

(** The dictionary that [run_grover] returns. *)
Inductive results : Type :=
| Results (n_qubits : nat) (marked_states : list string) (num_iterations : Z)
          (counts : list (string * Z)) (job_id backend : string)
          (qc : circuit) (shots : Z).

(** The first loop of [run_grover]: an integer is written in binary on
    [n_qubits] digits, a string is filled with zeros. *)
Definition marked_string (n_qubits : nat) (state : marked_state) : string :=
  match state with
  | StateInt z => format_binary n_qubits z
  | StateStr s => zfill n_qubits s
  end.

(** [run_grover(n_qubits, marked_states, num_iterations, shots)]. *)
Definition run_grover (math : math_module) (cloud : sdk) (creds : credentials)
                      (n_qubits : nat) (marked_states : list marked_state)
                      (num_iterations : option Z) (shots : Z)
  : script results :=
  let marked_strings := map (marked_string n_qubits) marked_states in
  num_iterations <~
    match num_iterations with
    | None =>
        lift (optimal_iterations (round_quarter_pi_sqrt math) n_qubits
                                 (Z.of_nat (List.length marked_states)))
    | Some k => ret k
    end ;;
  connect cloud creds ;;;
  backend <~ least_busy cloud (Z.of_nat n_qubits) ;;
  print [Txt "Using backend: "; Txt backend] ;;;
  qc <~ lift (create_grover_circuit (round_quarter_pi_sqrt math) n_qubits
                                    marked_states (Some num_iterations)) ;;
  emit (Built qc) ;;;
  print [Txt "Search space size: "; Int (2 ^ Z.of_nat n_qubits)] ;;;
  print [Txt "Marked states: "; Strs marked_strings] ;;;
  print [Txt "Grover iterations: "; Int num_iterations] ;;;
  print [Txt "Circuit:"] ;;;
  print [Txt (sdk_draw cloud qc)] ;;;
  transpiled_qc <~ transpile cloud qc ;;
  print [Txt "Transpiled circuit depth: "; Int (sdk_depth cloud transpiled_qc)] ;;;
  job <~ sampler_run cloud [transpiled_qc] shots ;;
  print [Txt "Job submitted: "; Txt (job_id job)] ;;;
  print [Txt "Waiting for results..."] ;;;
  data <~ lift (job_result job) ;;
  let counts := extract_counts data [] in
  ret (Results n_qubits marked_strings num_iterations counts (job_id job)
               backend qc shots).

(** The loop over the ten most frequent outcomes in [analyze_results]. *)
Fixpoint report_top (rt : runtime) (marked_states : list string) (shots : Z)
                    (items : list (string * Z)) : script unit :=
  match items with
  | [] => ret tt
  | (bitstring, count) :: rest =>
      ratio <~ lift (true_div rt count shots) ;;
      let percentage := float_mul rt ratio 100 in
      let is_target :=
        (if existsb (String.eqb bitstring) marked_states then "TARGET" else "")%string in
      report [Txt "  "; Txt bitstring; Txt ": "; Int count; Txt " (";
              Num percentage; Txt "%) "; Txt is_target] ;;;
      report_top rt marked_states shots rest
  end.

(** [analyze_results(results)]: everything it prints is a [Report]. *)
Definition analyze_results (rt : runtime) (math : math_module) (cloud : sdk)
                           (res : results) : script unit :=
  let (n_qubits, marked_states, num_iterations, counts, job_id, backend, qc,
       shots) := res in
  report [Txt "============================================================"] ;;;
  report [Txt "GROVER'S ALGORITHM RESULTS"] ;;;
  report [Txt "============================================================"] ;;;
  report [Txt "Backend: "; Txt backend] ;;;
  report [Txt "Job ID: "; Txt job_id] ;;;
  report [Txt "Search space: "; Int (2 ^ Z.of_nat n_qubits); Txt " items (";
          Int (Z.of_nat n_qubits); Txt " qubits)"] ;;;
  report [Txt "Target states: "; Strs marked_states] ;;;
  report [Txt "Grover iterations: "; Int num_iterations] ;;;
  report [Txt "Total shots: "; Int shots] ;;;
  match Shor.sorted_by_count counts with
  | [] => report [Txt "No measurement counts available"]
  | (most_common, most_common_count) :: _ =>
      report [Txt "Measurement counts (top 10):"] ;;;
      report_top rt marked_states shots
                 (firstn 10 (Shor.sorted_by_count counts)) ;;;
      (if (10 <? List.length counts)%nat then
         report [Txt "  ... and "; Int (Z.of_nat (List.length counts) - 10);
                 Txt " more outcomes"]
       else ret tt) ;;;
      let marked_count :=
        fold_left Z.add (map (fun state => dict_get state counts) marked_states) 0 in
      marked_ratio <~ lift (true_div rt marked_count shots) ;;
      let success_rate := float_mul rt marked_ratio 100 in
      report [Txt "Results summary:"] ;;;
      most_ratio <~ lift (true_div rt most_common_count shots) ;;
      report [Txt "  Most measured: "; Txt most_common; Txt " (";
              Num (float_mul rt most_ratio 100); Txt "%)"] ;;;
      report [Txt "  Target states measured: "; Int marked_count; Txt "/";
              Int shots; Txt " ("; Num success_rate; Txt "%)"] ;;;
      let N := 2 ^ Z.of_nat n_qubits in
      let M := Z.of_nat (List.length marked_states) in
      theoretical_prob <~ lift (sine_squared_percent math M N num_iterations) ;;
      report [Txt "Theoretical success probability: "; Num theoretical_prob;
              Txt "%"] ;;;
      report [Txt "Measured success rate: "; Num success_rate; Txt "%"] ;;;
      let classical_queries := N / 2 in
      let quantum_queries := num_iterations in
      report [Txt "Quantum advantage:"] ;;;
      report [Txt "  Quantum queries (Grover iterations): "; Int quantum_queries] ;;;
      report [Txt "  Classical queries (average): "; Int classical_queries] ;;;
      speedup <~ lift (true_div rt classical_queries (Z.max 1 quantum_queries)) ;;
      report [Txt "  Speedup factor: ~"; Num speedup; Txt "x"] ;;;
      (if existsb (String.eqb most_common) marked_states then
         report [Txt "Success! Found target state '"; Txt most_common; Txt "'."]
       else
         report [Txt "Most common result '"; Txt most_common;
                 Txt "' is not a target state."] ;;;
         report [Txt "  This may be due to hardware noise or insufficient iterations."]) ;;;
      report [Txt "Circuit diagram:"] ;;;
      report [Txt (sdk_draw cloud qc)]
  end.

(** The body of the [try] under [if __name__ == "__main__":], with the
    three values of its configuration section as arguments. *)
Definition main_body (rt : runtime) (math : math_module) (cloud : sdk)
                     (creds : credentials) (n_qubits : nat)
                     (marked_states : list marked_state)
                     (num_iterations : option Z) : script unit :=
  print [Txt "Executing Grover's Algorithm on IBM Quantum hardware..."] ;;;
  print [Txt "Grover's algorithm searches an unsorted database of N items"] ;;;
  print [Txt "for marked items using O(sqrt(N)) queries."] ;;;
  print [Txt "Classical algorithms require O(N) queries on average."] ;;;
  print [Txt "This provides a QUADRATIC speedup."] ;;;
  res <~ run_grover math cloud creds n_qubits marked_states num_iterations 1024 ;;
  analyze_results rt math cloud res.

(** The whole block: the body inside its [try], and the handler. *)
Definition main_block (rt : runtime) (math : math_module) (cloud : sdk)
                      (creds : credentials) (n_qubits : nat)
                      (marked_states : list marked_state)
                      (num_iterations : option Z) : script unit :=
  try_except (main_body rt math cloud creds n_qubits marked_states num_iterations)
             credential_hint.

(** A run of the script: the module-level reads of the environment, then
    the main block. *)
Definition script_run (rt : runtime) (math : math_module) (cloud : sdk)
                      (env : environment) (n_qubits : nat)
                      (marked_states : list marked_state)
                      (num_iterations : option Z) : script unit :=
  creds <~ read_credentials env ;;
  main_block rt math cloud creds n_qubits marked_states num_iterations.

(** The script as committed: five qubits, the marked state ["10101"] and
    the default number of iterations. *)
Definition main (rt : runtime) (math : math_module) (cloud : sdk)
                (env : environment) : script unit :=
  script_run rt math cloud env 5 [StateStr "10101"] None.

End GroverScript.

(** *** error-correction/main.py

    The script is an index of the error-correction folder: it prints its
    own docstring and three more lines, and does nothing else. *)

Module ErrorCorrectionIndex.

Local Open Scope script_scope.

(** The module docstring, [__doc__]. *)
Definition doc : string :=
"
Quantum Error Correction

This folder contains implementations of fundamental quantum error correction codes:

1. bit-flip-code/ - 3-qubit bit-flip code
   - Protects against single X (bit-flip) errors
   - Encoding: |0> -> |000>, |1> -> |111>

2. phase-flip-code/ - 3-qubit phase-flip code
   - Protects against single Z (phase-flip) errors
   - Encoding: |0> -> |+++>, |1> -> |--->

To run either code:
    cd bit-flip-code && python main.py
    cd phase-flip-code && python main.py

Both implementations run on IBM Quantum hardware using your saved credentials.
".

(** A run of the script. *)
Definition script_run : script unit :=
  print [Txt doc] ;;;
  print [Txt "Please run the specific code implementations:"] ;;;
  print [Txt "  - error-correction/bit-flip-code/main.py"] ;;;
  print [Txt "  - error-correction/phase-flip-code/main.py"].

End ErrorCorrectionIndex.


(** A sample of the [math] module: one iteration, and certainty. *)
Definition sample_math : GroverScript.math_module := {|
  GroverScript.round_quarter_pi_sqrt := fun _ _ => Returns 1%Z;
  GroverScript.sine_squared_percent := fun _ _ _ => Returns 100%Q
|}.

(** ** Properties of the classical arithmetic *)

Section ShorArithmetic.

Local Open Scope Z_scope.
Import Shor.

Lemma gcd_loop_spec (fuel : nat) :
  forall a b, Z.abs b < Z.of_nat fuel ->
    exists g, gcd_loop fuel a b = Returns g /\ Z.abs g = Z.gcd a b /\
              (0 <= b -> (b = 0 -> 0 <= a) -> 0 <= g).
Proof.
  induction fuel as [|fuel IH]; intros a b Hb; [lia|].
  cbn [gcd_loop].
  destruct (Z.eqb_spec b 0) as [->|Hnz].
  - exists a. rewrite Z.gcd_0_r. repeat split; auto.
  - unfold py_mod. rewrite (proj2 (Z.eqb_neq b 0) Hnz). cbn [bind].
    assert (Hlt : Z.abs (a mod b) < Z.abs b).
    { destruct (Z_lt_le_dec 0 b).
      - pose proof (Z.mod_pos_bound a b ltac:(lia)). lia.
      - pose proof (Z.mod_neg_bound a b ltac:(lia)). lia. }
    destruct (IH b (a mod b) ltac:(lia)) as (g & Hg & Habs & Hsign).
    exists g. split; [exact Hg|]. split.
    + rewrite Habs, Z.gcd_comm, (Z.gcd_mod a b Hnz). apply Z.gcd_comm.
    + intros Hb0 _. apply Hsign.
      * pose proof (Z.mod_pos_bound a b ltac:(lia)). lia.
      * lia.
Qed.

Lemma gcd_returns (a b : Z) :
  exists g, gcd a b = Returns g /\ Z.abs g = Z.gcd a b /\
            (0 <= b -> (b = 0 -> 0 <= a) -> 0 <= g).
Proof.
  unfold gcd. apply gcd_loop_spec. lia.
Qed.

Lemma land_1_mod (p : Z) : Z.land p 1 = p mod 2.
Proof.
  change 1 with (Z.ones 1) at 1. rewrite Z.land_ones by lia. reflexivity.
Qed.

Lemma shiftr_1_div (p : Z) : Z.shiftr p 1 = p / 2.
Proof.
  rewrite Z.shiftr_div_pow2 by lia. reflexivity.
Qed.

(** One round of square-and-multiply keeps [result * a ^ power] fixed
    modulo [N]. *)
Lemma modexp_round (a p N r : Z) :
  N <> 0 -> 0 < p ->
  ((if p mod 2 =? 0 then r else (r * a) mod N) * ((a * a) mod N) ^ (p / 2)) mod N
  = (r * a ^ p) mod N.
Proof.
  intros HN Hp.
  assert (E : p = 2 * (p / 2) + p mod 2) by (apply Z.div_mod; lia).
  assert (Hm : 0 <= p mod 2 < 2) by (apply Z.mod_pos_bound; lia).
  assert (Hq : 0 <= p / 2) by (apply Z.div_pos; lia).
  rewrite E at 3. rewrite Z.pow_add_r by lia. rewrite Z.pow_mul_r by lia.
  replace (a ^ 2) with (a * a) by ring.
  rewrite <- Z.mul_mod_idemp_r by assumption.
  rewrite Z.mod_pow_l.
  rewrite Z.mul_mod_idemp_r by assumption.
  destruct (Z.eqb_spec (p mod 2) 0) as [H0|H0].
  - rewrite H0, Z.pow_0_r. f_equal. ring.
  - assert (H1 : p mod 2 = 1) by lia. rewrite H1, Z.pow_1_r.
    rewrite Z.mul_mod_idemp_l by assumption. f_equal. ring.
Qed.

(** The loop returns [result] untouched when [power] is [0], and
    [result * a ^ power mod N] otherwise. *)
Lemma modexp_loop_spec (fuel : nat) :
  forall result a power N,
    N <> 0 -> 0 <= power ->
    (if power =? 0 then 1 else Z.log2 power + 2) <= Z.of_nat fuel ->
    modexp_loop fuel result a power N =
    Returns (if power =? 0 then result else (result * a ^ power) mod N).
Proof.
  induction fuel as [|fuel IH]; intros result a power N HN Hp Hfuel.
  - destruct (power =? 0); [lia|]. pose proof (Z.log2_nonneg power). lia.
  - cbn [modexp_loop].
    destruct (Z.eqb_spec power 0) as [->|Hnz]; [reflexivity|].
    assert (Hpos : 0 < power) by lia.
    rewrite (proj2 (Z.gtb_lt power 0) Hpos).
    rewrite land_1_mod, shiftr_1_div.
    unfold py_mod. rewrite (proj2 (Z.eqb_neq N 0) HN).
    assert (Hq : 0 <= power / 2) by (apply Z.div_pos; lia).
    assert (Hlog : power / 2 <> 0 -> Z.log2 (power / 2) = Z.log2 power - 1).
    { intros Hq0. rewrite <- shiftr_1_div, Z.log2_shiftr by lia.
      assert (0 < Z.log2 power).
      { apply Z.log2_pos. destruct (Z.eq_dec power 1) as [->|]; [|lia].
        exfalso. apply Hq0. reflexivity. }
      lia. }
    assert (Hfuel' : (if power / 2 =? 0 then 1 else Z.log2 (power / 2) + 2)
                     <= Z.of_nat fuel).
    {       pose proof (Z.log2_nonneg power).
      destruct (Z.eqb_spec (power / 2) 0); [lia | rewrite Hlog by assumption; lia]. }
    destruct (Z.eqb_spec (power mod 2) 0) as [Hev|Hodd]; cbn [bind];
      rewrite IH by assumption.
    + destruct (Z.eqb_spec (power / 2) 0) as [Hz|Hz].
      * exfalso. pose proof (Z.div_mod power 2 ltac:(lia)). lia.
      * f_equal. pose proof (modexp_round a result HN Hpos) as R.
        rewrite Hev in R. cbn in R. exact R.
    + destruct (Z.eqb_spec (power / 2) 0) as [Hz|Hz].
      * assert (power = 1).
        { pose proof (Z.div_mod power 2 ltac:(lia)).
          pose proof (Z.mod_pos_bound power 2 ltac:(lia)). lia. }
        subst power. rewrite Z.pow_1_r. reflexivity.
      * f_equal. pose proof (modexp_round a result HN Hpos) as R.
        destruct (Z.eqb_spec (power mod 2) 0); [contradiction|]. exact R.
Qed.

(** For a modulus of at least [2] (and indeed for every nonzero modulus as
    soon as [power >= 1]) the function returns the modular power. *)
Lemma modular_exponentiation_spec (a power N : Z) :
  0 <= power -> 2 <= N ->
  modular_exponentiation a power N = Returns (a ^ power mod N).
Proof.
  intros Hp HN. unfold modular_exponentiation, py_mod.
  rewrite (proj2 (Z.eqb_neq N 0)) by lia. cbn [bind].
  rewrite modexp_loop_spec; try lia.
  - destruct (Z.eqb_spec power 0) as [->|Hnz].
    + rewrite Z.pow_0_r, Z.mod_1_l by lia. reflexivity.
    + f_equal. rewrite Z.mul_1_l. apply Z.mod_pow_l.
  - pose proof (Z.log2_nonneg power).
    destruct (power =? 0); lia.
Qed.

(** Whatever the exponent, a nonzero modulus makes the function return. *)
Lemma modular_exponentiation_returns (a power N : Z) :
  N <> 0 -> exists x, modular_exponentiation a power N = Returns x.
Proof.
  intros HN. unfold modular_exponentiation, py_mod.
  rewrite (proj2 (Z.eqb_neq N 0) HN). cbn [bind].
  destruct (Z_lt_le_dec power 0) as [Hneg|Hp].
  - cbn [modexp_loop]. destruct (Z.gtb_spec power 0); [lia|]. eauto.
  - rewrite modexp_loop_spec; eauto.
    pose proof (Z.log2_nonneg power). destruct (power =? 0); lia.
Qed.

(** The value that [gcd x N] returns for a positive [N] is the greatest
    common divisor, so it divides [N]. *)
Lemma gcd_divides (x N : Z) :
  0 < N -> exists g, gcd x N = Returns g /\ 0 <= g /\ (g | N).
Proof.
  intros HN. destruct (gcd_returns x N) as (g & Hg & Habs & Hsign).
  exists g. split; [exact Hg|].
  assert (0 <= g) by (apply Hsign; lia).
  split; [assumption|].
  replace g with (Z.gcd x N) by lia. apply Z.gcd_divide_r.
Qed.

End ShorArithmetic.

(** ** Claims on the classical arithmetic *)

Section ShorClaims.

Local Open Scope Z_scope.
Import Shor.




(** C9.  Whenever [analyze_shor_measurement] returns a list of factors,
    each of them is a non-trivial divisor of [N]: this holds for every
    behaviour of the floating-point division and of
    [Fraction.limit_denominator]. *)
Theorem analyze_shor_measurement_factors (rt : runtime)
        (measurement n_count N a : Z) (r : option Z) (factors : list Z) :
  0 <= measurement -> 0 <= n_count -> 2 <= N ->
  analyze_shor_measurement rt measurement n_count N a = Returns (r, Some factors) ->
  Forall (fun f => 1 < f < N /\ (f | N)) factors.
Proof.
  intros _ _ HN. unfold analyze_shor_measurement.
  destruct (true_div rt measurement (2 ^ n_count)) as [phase| |]; cbn [bind];
    try discriminate.
  destruct (Qeq_bool phase 0); [discriminate|].
  destruct (limit_denominator rt phase N) as [frac| |]; cbn [bind];
    try discriminate.
  unfold py_mod, py_floordiv. cbn [Z.eqb bind].
  destruct ((snd frac =? 0) || negb (snd frac mod 2 =? 0))%bool; [discriminate|].
  destruct (modular_exponentiation a (snd frac / 2) N) as [x| |]; cbn [bind];
    try discriminate.
  assert (HN0 : 0 < N) by lia.
  destruct (gcd_divides (x - 1) HN0) as (g1 & Hg1 & _ & Hd1).
  destruct (gcd_divides (x + 1) HN0) as (g2 & Hg2 & _ & Hd2).
  rewrite Hg1, Hg2. cbn [bind].
  intros Hret.
  assert (Hf : factors = filter (fun guess => (1 <? guess) && (guess <? N)) [g1; g2]).
  { destruct (filter _ [g1; g2]); [discriminate|]. congruence. }
  rewrite Hf. apply Forall_forall. intros f Hin.
  apply filter_In in Hin. destruct Hin as [Hin Hp].
  apply andb_prop in Hp. destruct Hp as [H1 H2].
  apply Z.ltb_lt in H1, H2.
  split; [lia|].
  destruct Hin as [<-|[<-|[]]]; assumption.
Qed.

Lemma analyze_shor_measurement_factors_witness :
  Forall (fun f => 1 < f < 15 /\ (f | 15)) [3; 5].
Proof.
  apply (@analyze_shor_measurement_factors exact_runtime 4 4 15 7 (Some 4) [3; 5]).
  - lia.
  - lia.
  - lia.
  - vm_compute. reflexivity.
Defined.

End ShorClaims.

(** ** Claims on the key-sifting arithmetic *)

Section BB84Claims.

Import BB84.

Lemma fold_left_add_from (l : list Z) (acc : Z) :
  fold_left Z.add l acc = (acc + fold_left Z.add l 0)%Z.
Proof.
  revert acc. induction l as [|x l IH]; intros acc; cbn [fold_left].
  - lia.
  - rewrite (IH (acc + x)%Z), (IH (0 + x)%Z). lia.
Qed.

Lemma count_errors_cons (x y : Z) (alice_key bob_key : list Z) :
  count_errors (x :: alice_key) (y :: bob_key)
  = ((if (x =? y)%Z then 0 else 1) + count_errors alice_key bob_key)%Z.
Proof.
  unfold count_errors. cbn [combine map fold_left fst snd].
  rewrite fold_left_add_from. reflexivity.
Qed.

Lemma filter_map_S (f : nat -> bool) (l : list nat) :
  filter f (map S l) = map S (filter (fun i => f (S i)) l).
Proof.
  induction l as [|i l IH]; [reflexivity|].
  cbn [map filter]. rewrite IH. destruct (f (S i)); reflexivity.
Qed.

Lemma differing_positions_cons (x y : Z) (alice_key bob_key : list Z) :
  differing_positions (x :: alice_key) (y :: bob_key)
  = ((if (x =? y)%Z then 0 else 1) + differing_positions alice_key bob_key)%nat.
Proof.
  unfold differing_positions. cbn [List.length Nat.min].
  rewrite <- cons_seq, <- seq_shift.
  cbn [filter]. rewrite filter_map_S.
  change (nth 0 (x :: alice_key) 0%Z) with x.
  change (nth 0 (y :: bob_key) 0%Z) with y.
  destruct (x =? y)%Z; cbn [negb List.length]; rewrite length_map; reflexivity.
Qed.

(** The sum that the code computes is the count that the specification
    describes. *)
Lemma count_errors_differing (alice_key bob_key : list Z) :
  count_errors alice_key bob_key = Z.of_nat (differing_positions alice_key bob_key).
Proof.
  revert bob_key. induction alice_key as [|x alice_key IH]; intros bob_key.
  - reflexivity.
  - destruct bob_key as [|y bob_key].
    + reflexivity.
    + rewrite count_errors_cons, differing_positions_cons, IH.
      destruct (x =? y)%Z; lia.
Qed.

Lemma differing_positions_le (alice_key bob_key : list Z) :
  (differing_positions alice_key bob_key <= List.length alice_key)%nat.
Proof.
  unfold differing_positions.
  etransitivity; [apply filter_length_le|].
  rewrite length_seq. apply Nat.le_min_l.
Qed.

(** C10.  [calculate_qber] always returns: [0.0] for an empty first key,
    and otherwise the number of differing positions among those that both
    keys have, divided by the length of the first key, a value between
    [0] and [1]. *)
Theorem calculate_qber_total (alice_key bob_key : list Z) :
  exists q : Q,
    calculate_qber alice_key bob_key = Returns q /\
    match alice_key with
    | [] => q = 0%Q
    | _ :: _ =>
        (0 <= q)%Q /\ (q <= 1)%Q /\
        (q == inject_Z (Z.of_nat (differing_positions alice_key bob_key))
              / inject_Z (Z.of_nat (List.length alice_key)))%Q
    end.
Proof.
  destruct alice_key as [|x alice_key].
  - exists 0%Q. split; reflexivity.
  - set (key := x :: alice_key).
    assert (Hlen : (0 < Z.of_nat (List.length key))%Z) by (cbn; lia).
    pose proof (differing_positions_le key bob_key) as Hle.
    unfold calculate_qber. fold key.
    unfold exact_true_div.
    rewrite (proj2 (Z.eqb_neq _ 0)) by lia.
    rewrite count_errors_differing.
    eexists. split; [reflexivity|].
    assert (Hpos : (0 < inject_Z (Z.of_nat (List.length key)))%Q).
    { rewrite <- (Zlt_Qlt 0). exact Hlen. }
    rewrite Qred_correct. split; [|split].
    + apply Qle_shift_div_l; [exact Hpos|].
      rewrite Qmult_0_l. rewrite <- (Zle_Qle 0). lia.
    + apply Qle_shift_div_r; [exact Hpos|].
      rewrite Qmult_1_l. rewrite <- Zle_Qle. lia.
    + reflexivity.
Qed.

End BB84Claims.

(** ** Cancellation of a circuit against its inverse *)

Section Cancellation.

Lemma list_eqb_eq {A : Type} (eqb : A -> A -> bool) :
  (forall x y, eqb x y = true -> x = y) ->
  forall l1 l2, list_eqb eqb l1 l2 = true -> l1 = l2.
Proof.
  intros Heq. induction l1 as [|x l1 IH]; intros [|y l2] H; cbn in H;
    try discriminate; [reflexivity|].
  apply andb_prop in H. destruct H as [Hx Hl].
  f_equal; [apply Heq; exact Hx | apply IH; exact Hl].
Qed.

Lemma list_eqb_refl {A : Type} (eqb : A -> A -> bool) :
  (forall x, eqb x x = true) -> forall l, list_eqb eqb l l = true.
Proof.
  intros Hrefl. induction l as [|x l IH]; [reflexivity|].
  cbn. rewrite Hrefl, IH. reflexivity.
Qed.

Lemma Q_eqb_eq (p q : Q) : Q_eqb p q = true -> p = q.
Proof.
  destruct p as [pn pd], q as [qn qd]. unfold Q_eqb. cbn.
  intros H. apply andb_prop in H. destruct H as [Hn Hd].
  apply Z.eqb_eq in Hn. apply Pos.eqb_eq in Hd. congruence.
Qed.

Lemma Q_eqb_refl (p : Q) : Q_eqb p p = true.
Proof.
  unfold Q_eqb. rewrite Z.eqb_refl, Pos.eqb_refl. reflexivity.
Qed.

Lemma pair_eqb_eq (p q : nat * nat) : pair_eqb p q = true -> p = q.
Proof.
  destruct p, q. unfold pair_eqb. cbn. intros H.
  apply andb_prop in H. destruct H as [H1 H2].
  apply Nat.eqb_eq in H1, H2. congruence.
Qed.

Lemma pair_eqb_refl (p : nat * nat) : pair_eqb p p = true.
Proof.
  unfold pair_eqb. rewrite !Nat.eqb_refl. reflexivity.
Qed.

Ltac split_eqb :=
  repeat match goal with
         | H : (_ && _)%bool = true |- _ =>
             apply andb_prop in H; destruct H
         | H : (_ =? _)%nat = true |- _ => apply Nat.eqb_eq in H
         | H : Q_eqb _ _ = true |- _ => apply Q_eqb_eq in H
         | H : list_eqb Nat.eqb _ _ = true |- _ =>
             apply (list_eqb_eq Nat.eqb (fun x y => proj1 (Nat.eqb_eq x y))) in H
         | H : list_eqb pair_eqb _ _ = true |- _ =>
             apply (list_eqb_eq pair_eqb pair_eqb_eq) in H
         end.

Lemma gate_eqb_eq (g1 g2 : gate) : gate_eqb g1 g2 = true -> g1 = g2.
Proof.
  destruct g1, g2; cbn; intros H; try discriminate; split_eqb; congruence.
Qed.

Lemma gate_eqb_refl (g : gate) : gate_eqb g g = true.
Proof.
  destruct g; cbn;
    rewrite ?Nat.eqb_refl, ?Q_eqb_refl,
            ?(list_eqb_refl Nat.eqb Nat.eqb_refl),
            ?(list_eqb_refl pair_eqb pair_eqb_refl);
    reflexivity.
Qed.

Lemma Qopp_twice (q : Q) : Qopp (Qopp q) = q.
Proof.
  destruct q as [n d]. unfold Qopp. cbn. rewrite Z.opp_involutive. reflexivity.
Qed.

(** The SDK's inverse is an involution. *)
Lemma inverse_gate_involutive (g i : gate) :
  inverse_gate g = Returns i -> inverse_gate i = Returns g.
Proof.
  destruct g; cbn; intros H; inversion H; subst; cbn;
    rewrite ?Qopp_twice, ?rev_involutive; reflexivity.
Qed.

Lemma undoes_inverse (g i : gate) :
  inverse_gate g = Returns i -> undoes g i = true.
Proof.
  intros H. unfold undoes. rewrite H. apply gate_eqb_refl.
Qed.

Lemma undoes_back (top g : gate) :
  undoes top g = true -> inverse_gate g = Returns top.
Proof.
  unfold undoes. destruct (inverse_gate top) as [i| |] eqn:Hi; try discriminate.
  intros H. apply gate_eqb_eq in H. subst i.
  apply inverse_gate_involutive. exact Hi.
Qed.

Lemma push_reduced (stack : list gate) (g : gate) :
  reduced stack -> reduced (push stack g).
Proof.
  destruct stack as [|top below]; cbn [push].
  - intros _. cbn. auto.
  - intros Hred. destruct (undoes top g) eqn:Hu.
    + apply Hred.
    + cbn [reduced]. split; [exact Hu | exact Hred].
Qed.

(** Reading an instruction and then its inverse leaves a reduced stack as
    it was. *)
Lemma push_then_inverse (stack : list gate) (g i : gate) :
  reduced stack -> inverse_gate g = Returns i -> push (push stack g) i = stack.
Proof.
  intros Hred Hi.
  destruct stack as [|top below]; cbn [push].
  - rewrite (undoes_inverse g Hi). reflexivity.
  - destruct (undoes top g) eqn:Hu.
    + apply undoes_back in Hu. rewrite Hi in Hu. inversion Hu; subst i.
      destruct below as [|under rest]; cbn [push]; [reflexivity|].
      destruct Hred as [Hno _]. rewrite Hno. reflexivity.
    + cbn [push]. rewrite (undoes_inverse g Hi). reflexivity.
Qed.

Lemma fold_push_reduced (gs stack : list gate) :
  reduced stack -> reduced (fold_left push gs stack).
Proof.
  revert stack. induction gs as [|g gs IH]; intros stack Hred; cbn [fold_left].
  - exact Hred.
  - apply IH, push_reduced, Hred.
Qed.

(** The inverse circuit, read after the circuit itself, takes the stack
    back to where it started. *)
Lemma fold_push_inverse_gates (gs : list gate) :
  forall stack acc inv,
    reduced stack ->
    inverse_gates gs acc = Returns inv ->
    exists mid, inv = mid ++ acc /\ fold_left push (gs ++ mid) stack = stack.
Proof.
  induction gs as [|g gs IH]; intros stack acc inv Hred Hinv; cbn in Hinv.
  - exists []. inversion Hinv. split; reflexivity.
  - destruct (inverse_gate g) as [i| |] eqn:Hi; try discriminate.
    destruct (IH (push stack g) (i :: acc) inv (push_reduced stack g Hred) Hinv)
      as (mid & Hmid & Hfold).
    exists (mid ++ [i]). split.
    + rewrite Hmid, <- app_assoc. reflexivity.
    + cbn [app fold_left]. rewrite app_assoc, fold_left_app, Hfold.
      cbn [fold_left]. apply push_then_inverse; assumption.
Qed.

Lemma inverse_gates_returns (gs : list gate) :
  Forall unmeasured gs -> forall acc, exists inv, inverse_gates gs acc = Returns inv.
Proof.
  induction 1 as [|g gs Hg _ IH]; intros acc; cbn [inverse_gates].
  - eauto.
  - destruct g; cbn in Hg |- *; try contradiction; apply IH.
Qed.

(** A circuit without measurement has an inverse, and its instructions
    followed by those of the inverse cancel completely. *)
Lemma circuit_then_inverse_cancels (qc : circuit) :
  Forall unmeasured (gates qc) ->
  exists inv, inverse qc = Returns inv /\ cancel (gates qc ++ gates inv) = [].
Proof.
  intros Hgs. unfold inverse.
  destruct (inverse_gates_returns Hgs []) as (inv & Hinv). rewrite Hinv.
  eexists. split; [reflexivity|]. cbn [gates].
  destruct (fold_push_inverse_gates (gates qc) [] [] I Hinv) as (mid & Hmid & Hfold).
  rewrite app_nil_r in Hmid. subst mid.
  unfold cancel. rewrite Hfold. reflexivity.
Qed.

Lemma map_unmeasured {A : Type} (f : A -> gate) (l : list A) :
  (forall x, unmeasured (f x)) -> Forall unmeasured (map f l).
Proof.
  intros Hf. apply Forall_forall. intros g Hin. apply in_map_iff in Hin.
  destruct Hin as (x & <- & _). apply Hf.
Qed.

Lemma qft_rotations_unmeasured (n : nat) :
  forall qc, Forall unmeasured (gates qc) ->
             Forall unmeasured (gates (QFT.qft_rotations qc n)).
Proof.
  induction n as [|n IH]; intros qc Hqc; cbn [QFT.qft_rotations].
  - exact Hqc.
  - apply IH. cbn [extend add_gate gates].
    apply Forall_app. split.
    + apply Forall_app. split; [exact Hqc|].
      constructor; [exact I | constructor].
    + apply map_unmeasured. intros q. exact I.
Qed.

Lemma create_qft_circuit_unmeasured (n : nat) (swap : bool) :
  Forall unmeasured (gates (QFT.create_qft_circuit n swap)).
Proof.
  unfold QFT.create_qft_circuit.
  assert (H : Forall unmeasured (gates (QFT.qft_rotations (QuantumCircuit n 0) n))).
  { apply qft_rotations_unmeasured. constructor. }
  destruct swap; [|exact H].
  unfold QFT.swap_registers. cbn [extend gates].
  apply Forall_app. split; [exact H|].
  apply map_unmeasured. intros q. exact I.
Qed.

End Cancellation.

(** ** Claims on local computation *)

Section LocalComputationClaims.

(** C3, as stated, fails: [gcd] of the Shor script computes a number that
    is neither of its arguments. *)
Lemma gcd_is_computed_locally :
  Shor.gcd 48 18 = Returns 6%Z /\ ~ passes_an_argument_through Shor.gcd.
Proof.
  split; [reflexivity|].
  intros H. destruct (H 48 18 6 eq_refl)%Z; discriminate.
Qed.

(** C3, amended.  The Shor script carries numeric code of its own: its
    [gcd] is Euclid's algorithm, which returns for all integers, and the
    value it returns is, up to sign, the greatest common divisor. *)
Theorem shor_gcd_is_euclid (a b : Z) :
  exists g, Shor.gcd a b = Returns g /\ Z.abs g = Z.gcd a b.
Proof.
  destruct (gcd_returns a b) as (g & Hg & Habs & _). eauto.
Qed.

(** C4, as stated, fails: for the five qubits of the committed
    configuration, the Fourier transform followed by its inverse is a
    circuit whose instructions all cancel, a fact checked without any
    hardware. *)
Lemma qft_round_trip_on_five_qubits :
  exists inv,
    QFT.create_inverse_qft_circuit 5 true = Returns inv /\
    cancel (gates (QFT.create_qft_circuit 5 true) ++ gates inv) = [].
Proof.
  eexists. split; vm_compute; reflexivity.
Qed.

(** C4, amended.  Circuit construction is deterministic and can be checked
    locally: for every number of qubits, with or without the final swaps,
    [create_inverse_qft_circuit] returns, and the instructions of
    [create_qft_circuit] followed by its instructions cancel down to the
    empty circuit. *)
Theorem qft_then_inverse_is_identity (n_qubits : nat) (swap : bool) :
  exists inv,
    QFT.create_inverse_qft_circuit n_qubits swap = Returns inv /\
    cancel (gates (QFT.create_qft_circuit n_qubits swap) ++ gates inv) = [].
Proof.
  apply circuit_then_inverse_cancels, create_qft_circuit_unmeasured.
Qed.

End LocalComputationClaims.

(** ** What the circuits of Grover's algorithm do *)

Section GateSemantics.

Local Open Scope R_scope.

Lemma set_bit_same (i : nat) (v : bool) (b : basis) : set_bit i v b i = v.
Proof. unfold set_bit. rewrite Nat.eqb_refl. reflexivity. Qed.

Lemma set_bit_other (i j : nat) (v : bool) (b : basis) :
  j <> i -> set_bit i v b j = b j.
Proof.
  intros H. unfold set_bit. rewrite (proj2 (Nat.eqb_neq j i) H). reflexivity.
Qed.

Lemma set_bit_twice (i : nat) (v w : bool) (b : basis) :
  set_bit i v (set_bit i w b) = set_bit i v b.
Proof.
  apply functional_extensionality. intros j. unfold set_bit.
  destruct (j =? i)%nat; reflexivity.
Qed.

Lemma set_bit_current (i : nat) (b : basis) : set_bit i (b i) b = b.
Proof.
  apply functional_extensionality. intros j. unfold set_bit.
  destruct (Nat.eqb_spec j i) as [->|]; reflexivity.
Qed.

Lemma set_bit_known (i : nat) (v : bool) (b : basis) :
  b i = v -> set_bit i v b = b.
Proof. intros <-. apply set_bit_current. Qed.

Lemma set_bit_swap (i j : nat) (v w : bool) (b : basis) :
  i <> j -> set_bit i v (set_bit j w b) = set_bit j w (set_bit i v b).
Proof.
  intros H. apply functional_extensionality. intros k. unfold set_bit.
  destruct (Nat.eqb_spec k i), (Nat.eqb_spec k j); try reflexivity. congruence.
Qed.

Lemma flip_bit_set (i : nat) (v : bool) (b : basis) :
  flip_bit i (set_bit i v b) = set_bit i (negb v) b.
Proof.
  unfold flip_bit. rewrite set_bit_same. apply set_bit_twice.
Qed.

Lemma inv_sqrt2_squared : / sqrt 2 * / sqrt 2 = / 2.
Proof.
  rewrite <- Rinv_mult. rewrite sqrt_sqrt by lra. reflexivity.
Qed.

Lemma apply_gates_app (gs1 gs2 : list gate) (psi : amplitudes) :
  apply_gates (gs1 ++ gs2) psi =
  match apply_gates gs1 psi with
  | Some psi' => apply_gates gs2 psi'
  | None => None
  end.
Proof.
  revert psi. induction gs1 as [|g gs1 IH]; intros psi; cbn [app apply_gates].
  - reflexivity.
  - destruct (apply_gate g psi); [apply IH | reflexivity].
Qed.

(** The test [(target >> i) & 1] of the scripts reads bit [i]. *)
Lemma shift_and_one (target : Z) (i : nat) :
  (Z.land (Z.shiftr target (Z.of_nat i)) 1 =? 0)%Z
  = negb (Z.testbit target (Z.of_nat i)).
Proof.
  rewrite land_1_mod, Z.testbit_odd, Zmod_odd.
  destruct (Z.odd (Z.shiftr target (Z.of_nat i))); reflexivity.
Qed.

Lemma forallb_set_bit_outside (l : list nat) (i : nat) (v : bool) (b : basis) :
  ~ In i l -> forallb (set_bit i v b) l = forallb b l.
Proof.
  intros Hi. induction l as [|j l IH]; [reflexivity|].
  cbn [forallb]. rewrite IH by (intros H; apply Hi; right; exact H).
  rewrite set_bit_other by (intros ->; apply Hi; left; reflexivity).
  reflexivity.
Qed.

Lemma all_ones_S (n : nat) (b : basis) :
  all_ones (S n) b = (all_ones n b && b n)%bool.
Proof.
  unfold all_ones. rewrite seq_S, forallb_app. cbn. rewrite andb_true_r.
  reflexivity.
Qed.

(** A multi-controlled [X] between two Hadamards on its target flips the
    sign of the basis states with all the qubits set. *)
Lemma hadamard_mcx_hadamard (m : nat) (psi : amplitudes) :
  apply_gates [Gh m; Gmcx (seq 0 m) m; Gh m] psi
  = Some (fun b => sign (all_ones (S m) b) * psi b).
Proof.
  cbn [apply_gates apply_gate]. f_equal.
  apply functional_extensionality. intros b.
  assert (Hout : ~ In m (seq 0 m)) by (rewrite in_seq; lia).
  unfold hadamard at 1.
  rewrite !(@forallb_set_bit_outside _ _ _ _ Hout).
  rewrite all_ones_S. fold (all_ones m b).
  pose proof inv_sqrt2_squared as Hs.
  destruct (all_ones m b); cbn [andb].
  - rewrite !flip_bit_set. cbn [negb]. unfold hadamard.
    rewrite !set_bit_same, !set_bit_twice. cbn [sign].
    destruct (b m) eqn:Hbm; cbn [sign].
    + rewrite (@set_bit_known m true b Hbm).
      transitivity ((/ sqrt 2 * / sqrt 2) * (-2 * psi b)); [ring|].
      rewrite Hs. field.
    + rewrite (@set_bit_known m false b Hbm).
      transitivity ((/ sqrt 2 * / sqrt 2) * (2 * psi b)); [ring|].
      rewrite Hs. field.
  - unfold hadamard. rewrite !set_bit_same, !set_bit_twice. cbn [sign].
    destruct (b m) eqn:Hbm; cbn [sign].
    + rewrite (@set_bit_known m true b Hbm).
      transitivity ((/ sqrt 2 * / sqrt 2) * (2 * psi b)); [ring|].
      rewrite Hs. field.
    + rewrite (@set_bit_known m false b Hbm).
      transitivity ((/ sqrt 2 * / sqrt 2) * (2 * psi b)); [ring|].
      rewrite Hs. field.
Qed.

Lemma forallb_ext_in {A : Type} (f g : A -> bool) (l : list A) :
  (forall x, In x l -> f x = g x) -> forallb f l = forallb g l.
Proof.
  induction l as [|x l IH]; intros H; [reflexivity|].
  cbn [forallb]. rewrite (H x) by (left; reflexivity).
  rewrite IH by (intros y Hy; apply H; right; exact Hy). reflexivity.
Qed.

Lemma flip_zero_bits_S (n : nat) (target : Z) :
  Grover.flip_zero_bits (S n) target
  = Grover.flip_zero_bits n target
    ++ (if Z.testbit target (Z.of_nat n) then [] else [Gx n]).
Proof.
  unfold Grover.flip_zero_bits. rewrite seq_S, flat_map_app. cbn [flat_map].
  rewrite shift_and_one, app_nil_r. cbn [Nat.add].
  destruct (Z.testbit target (Z.of_nat n)); reflexivity.
Qed.

Lemma flip_unset_0 (target : Z) (b : basis) : flip_unset 0 target b = b.
Proof. apply functional_extensionality. intros i. reflexivity. Qed.

Lemma flip_unset_S_set (n : nat) (target : Z) (b : basis) :
  Z.testbit target (Z.of_nat n) = true ->
  flip_unset (S n) target b = flip_unset n target b.
Proof.
  intros Hbit. apply functional_extensionality. intros i. unfold flip_unset.
  destruct (Nat.eq_dec i n) as [->|Hne].
  - rewrite Hbit, Nat.ltb_irrefl. rewrite andb_false_r. reflexivity.
  - replace (i <? S n)%nat with (i <? n)%nat; [reflexivity|].
    destruct (Nat.ltb_spec i n), (Nat.ltb_spec i (S n)); try reflexivity; lia.
Qed.

Lemma flip_unset_S_clear (n : nat) (target : Z) (b : basis) :
  Z.testbit target (Z.of_nat n) = false ->
  flip_unset (S n) target b = flip_unset n target (flip_bit n b).
Proof.
  intros Hbit. apply functional_extensionality. intros i.
  unfold flip_unset, flip_bit, set_bit.
  destruct (Nat.eqb_spec i n) as [->|Hne].
  - rewrite Hbit, Nat.ltb_irrefl.
    rewrite (proj2 (Nat.ltb_lt n (S n))) by lia. reflexivity.
  - replace (i <? S n)%nat with (i <? n)%nat; [reflexivity|].
    destruct (Nat.ltb_spec i n), (Nat.ltb_spec i (S n)); try reflexivity; lia.
Qed.

(** The [X] gates of [create_oracle] flip the qubits where the target has
    a zero bit. *)
Lemma apply_flip_zero_bits (n : nat) (target : Z) (psi : amplitudes) :
  apply_gates (Grover.flip_zero_bits n target) psi
  = Some (fun b => psi (flip_unset n target b)).
Proof.
  induction n as [|n IH].
  - reflexivity.
  - rewrite flip_zero_bits_S, apply_gates_app, IH.
    destruct (Z.testbit target (Z.of_nat n)) eqn:Hbit; cbn; f_equal;
      apply functional_extensionality; intros b.
    + rewrite flip_unset_S_set by exact Hbit. reflexivity.
    + cbn [apply_gate apply_gates]. rewrite flip_unset_S_clear by exact Hbit. reflexivity.
Qed.

Lemma flip_unset_involutive (n : nat) (target : Z) (b : basis) :
  flip_unset n target (flip_unset n target b) = b.
Proof.
  apply functional_extensionality. intros i. unfold flip_unset.
  destruct ((i <? n)%nat && negb (Z.testbit target (Z.of_nat i)))%bool;
    [apply negb_involutive | reflexivity].
Qed.

Lemma all_ones_flip_unset (n : nat) (target : Z) (b : basis) :
  all_ones n (flip_unset n target b) = agrees n target b.
Proof.
  unfold all_ones, agrees. apply forallb_ext_in. intros i Hi.
  apply in_seq in Hi. unfold flip_unset.
  rewrite (proj2 (Nat.ltb_lt i n)) by lia. cbn [andb].
  destruct (Z.testbit target (Z.of_nat i)), (b i); reflexivity.
Qed.

(** The three shapes of the multi-controlled [Z] act alike. *)
Lemma apply_multi_controlled_z (n : nat) :
  (1 <= n)%nat ->
  exists mcz,
    Grover.multi_controlled_z n = Returns mcz
    /\ forall psi,
        apply_gates mcz psi = Some (fun b => sign (all_ones n b) * psi b).
Proof.
  intros Hn. unfold Grover.multi_controlled_z.
  destruct n as [|[|[|m]]]; [lia| | |]; cbn [Nat.eqb];
    (eexists; split; [reflexivity|]); intros psi.
  - cbn. f_equal. apply functional_extensionality. intros b.
    unfold all_ones. cbn. rewrite andb_true_r. reflexivity.
  - cbn. f_equal. apply functional_extensionality. intros b.
    unfold all_ones. cbn. rewrite andb_true_r. reflexivity.
  - apply hadamard_mcx_hadamard.
Qed.

(** What [create_oracle] appends for one target flips the sign of the
    basis states that spell the target, and of no other. *)
Lemma apply_mark_target (n : nat) (target : Z) :
  (1 <= n)%nat ->
  exists marking,
    Grover.mark_target n target = Returns marking
    /\ forall psi,
        apply_gates marking psi = Some (fun b => sign (agrees n target b) * psi b).
Proof.
  intros Hn. unfold Grover.mark_target.
  destruct (@apply_multi_controlled_z n Hn) as (mcz & -> & Hmcz). cbn [bind].
  eexists. split; [reflexivity|]. intros psi.
  rewrite apply_gates_app, apply_flip_zero_bits.
  rewrite apply_gates_app, Hmcz.
  rewrite apply_flip_zero_bits. f_equal.
  apply functional_extensionality. intros b.
  rewrite all_ones_flip_unset, flip_unset_involutive. reflexivity.
Qed.

(** The second loop of [create_oracle], started on any circuit: on at
    least one qubit it returns, and what it appends multiplies every
    amplitude by the product of the signs of the targets. *)
Lemma apply_marks (n : nat) (targets : list Z) :
  (1 <= n)%nat ->
  forall qc,
    exists marks,
      fold_left (fun acc target =>
                   (oracle <- acc ;;
                    marking <- Grover.mark_target n target ;;
                    Returns (extend marking oracle))%outcome)
                targets (Returns qc)
      = Returns (extend marks qc)
      /\ forall psi,
          apply_gates marks psi
          = Some (fun b => oracle_phase n targets b * psi b).
Proof.
  intros Hn. induction targets as [|target rest IH]; intros qc.
  - exists []. split.
    + cbn [fold_left]. unfold extend. rewrite app_nil_r. destruct qc; reflexivity.
    + intros psi. cbn. f_equal. apply functional_extensionality. intros b. ring.
  - cbn [fold_left bind].
    destruct (@apply_mark_target n target Hn) as (marking & -> & Hmarking).
    cbn [bind].
    destruct (IH (extend marking qc)) as (marks & -> & Hmarks).
    exists (marking ++ marks). split.
    + unfold extend. cbn [gates num_qubits num_clbits].
      rewrite app_assoc. reflexivity.
    + intros psi. rewrite apply_gates_app, Hmarking, Hmarks.
      f_equal. apply functional_extensionality. intros b.
      cbn [oracle_phase]. ring.
Qed.

(** [create_oracle] on at least one qubit: it returns whenever the marked
    states convert, and its circuit multiplies every amplitude by the
    product of the signs of the targets. *)
Lemma apply_oracle (n : nat) (marked_states : list Grover.marked_state)
      (targets : list Z) :
  (1 <= n)%nat ->
  Grover.marked_ints marked_states = Returns targets ->
  exists oracle,
    Grover.create_oracle n marked_states = Returns oracle
    /\ forall psi,
        apply_gates (gates oracle) psi
        = Some (fun b => oracle_phase n targets b * psi b).
Proof.
  intros Hn Hints. unfold Grover.create_oracle. rewrite Hints. cbn [bind].
  destruct (@apply_marks n targets Hn (QuantumCircuit n 0)) as (marks & -> & H).
  eexists. split; [reflexivity|]. exact H.
Qed.

Lemma testbit_above (n : nat) (x : Z) (i : nat) :
  (0 <= x < 2 ^ Z.of_nat n)%Z -> (n <= i)%nat ->
  Z.testbit x (Z.of_nat i) = false.
Proof.
  intros Hx Hi. rewrite <- (Z.mod_small x (2 ^ Z.of_nat n)) by exact Hx.
  apply Z.mod_pow2_bits_high. lia.
Qed.

(** On the basis state named [x], the qubits spell [target] exactly when
    [x] is [target]. *)
Lemma agrees_basis_of (n : nat) (target x : Z) :
  (0 <= x < 2 ^ Z.of_nat n)%Z -> (0 <= target < 2 ^ Z.of_nat n)%Z ->
  agrees n target (basis_of x) = (x =? target)%Z.
Proof.
  intros Hx Ht. destruct (Z.eqb_spec x target) as [->|Hne].
  - unfold agrees. apply forallb_forall. intros i _. apply eqb_reflx.
  - apply not_true_is_false. intros Hall. apply Hne.
    apply Z.bits_inj'. intros k Hk.
    destruct (Nat.lt_ge_cases (Z.to_nat k) n) as [Hlt|Hge].
    + unfold agrees in Hall. rewrite forallb_forall in Hall.
      specialize (Hall (Z.to_nat k)).
      rewrite in_seq in Hall. specialize (Hall ltac:(lia)).
      apply eqb_prop in Hall. unfold basis_of in Hall.
      rewrite Z2Nat.id in Hall by exact Hk. exact Hall.
    + rewrite <- (Z2Nat.id k Hk).
      rewrite (testbit_above Hx Hge), (testbit_above Ht Hge).
      reflexivity.
Qed.

Lemma oracle_phase_basis_of (n : nat) (targets : list Z) (x : Z) :
  (0 <= x < 2 ^ Z.of_nat n)%Z ->
  NoDup targets ->
  (forall t, In t targets -> (0 <= t < 2 ^ Z.of_nat n)%Z) ->
  (In x targets -> oracle_phase n targets (basis_of x) = -1) /\
  (~ In x targets -> oracle_phase n targets (basis_of x) = 1).
Proof.
  intros Hx. induction 1 as [|t rest Hnotin Hnodup IH]; intros Hrange.
  - split; [intros [] | reflexivity].
  - cbn [oracle_phase].
    rewrite agrees_basis_of by (try exact Hx; apply Hrange; left; reflexivity).
    destruct IH as [IHin IHout]; [intros u Hu; apply Hrange; right; exact Hu|].
    destruct (Z.eqb_spec x t) as [->|Hne]; cbn [sign].
    + split; [|intros H; exfalso; apply H; left; reflexivity].
      intros _. rewrite IHout by exact Hnotin. ring.
    + split.
      * intros [Heq|Hin]; [congruence|]. rewrite IHin by exact Hin. ring.
      * intros Hout. rewrite IHout; [ring|].
        intros Hin. apply Hout. right. exact Hin.
Qed.

(** *** The diffuser *)

Lemma flip_below_S (n : nat) (b : basis) :
  flip_below (S n) b = flip_below n (flip_bit n b).
Proof.
  apply functional_extensionality. intros i.
  unfold flip_below, flip_bit, set_bit.
  destruct (Nat.eqb_spec i n) as [->|Hne].
  - rewrite Nat.ltb_irrefl, (proj2 (Nat.ltb_lt n (S n))) by lia. reflexivity.
  - replace (i <? S n)%nat with (i <? n)%nat; [reflexivity|].
    destruct (Nat.ltb_spec i n), (Nat.ltb_spec i (S n)); try reflexivity; lia.
Qed.

Lemma apply_x_layer (n : nat) (psi : amplitudes) :
  apply_gates (map Gx (seq 0 n)) psi = Some (fun b => psi (flip_below n b)).
Proof.
  induction n as [|n IH].
  - reflexivity.
  - rewrite seq_S, map_app, apply_gates_app, IH. cbn. f_equal.
    apply functional_extensionality. intros b.
    rewrite flip_below_S. reflexivity.
Qed.

Lemma flip_below_involutive (n : nat) (b : basis) :
  flip_below n (flip_below n b) = b.
Proof.
  apply functional_extensionality. intros i. unfold flip_below.
  destruct (i <? n)%nat; [apply negb_involutive | reflexivity].
Qed.

Lemma all_ones_flip_below (n : nat) (b : basis) :
  all_ones n (flip_below n b) = all_zero n b.
Proof.
  unfold all_ones, all_zero. apply forallb_ext_in. intros i Hi.
  apply in_seq in Hi. unfold flip_below.
  rewrite (proj2 (Nat.ltb_lt i n)) by lia. reflexivity.
Qed.

Lemma apply_h_layer (n : nat) (psi : amplitudes) :
  apply_gates (map Gh (seq 0 n)) psi = Some (hadamards n psi).
Proof.
  induction n as [|n IH].
  - reflexivity.
  - rewrite seq_S, map_app, apply_gates_app, IH. reflexivity.
Qed.

Lemma hadamard_linear (q : nat) (alpha beta : R) (f g : amplitudes) :
  hadamard q (fun b => alpha * f b + beta * g b)
  = fun b => alpha * hadamard q f b + beta * hadamard q g b.
Proof.
  apply functional_extensionality. intros b. unfold hadamard. ring.
Qed.

Lemma hadamards_linear (n : nat) (alpha beta : R) (f g : amplitudes) :
  hadamards n (fun b => alpha * f b + beta * g b)
  = fun b => alpha * hadamards n f b + beta * hadamards n g b.
Proof.
  induction n as [|n IH]; [reflexivity|].
  cbn [hadamards]. rewrite IH. apply hadamard_linear.
Qed.

Lemma hadamard_involutive (q : nat) (psi : amplitudes) :
  hadamard q (hadamard q psi) = psi.
Proof.
  apply functional_extensionality. intros b. unfold hadamard.
  rewrite !set_bit_same, !set_bit_twice. cbn [sign].
  pose proof inv_sqrt2_squared as Hs.
  destruct (b q) eqn:Hbq; cbn [sign].
  - rewrite (@set_bit_known q true b Hbq).
    transitivity ((/ sqrt 2 * / sqrt 2) * (2 * psi b)); [ring|].
    rewrite Hs. field.
  - rewrite (@set_bit_known q false b Hbq).
    transitivity ((/ sqrt 2 * / sqrt 2) * (2 * psi b)); [ring|].
    rewrite Hs. field.
Qed.

Lemma hadamard_commute (i j : nat) (psi : amplitudes) :
  i <> j -> hadamard i (hadamard j psi) = hadamard j (hadamard i psi).
Proof.
  intros Hij. apply functional_extensionality. intros b. unfold hadamard.
  rewrite !(fun v c => @set_bit_other i j v c (not_eq_sym Hij)).
  rewrite !(fun v c => @set_bit_other j i v c Hij).
  rewrite !(fun v w c => @set_bit_swap i j v w c Hij). ring.
Qed.

Lemma hadamard_hadamards_commute (n q : nat) (psi : amplitudes) :
  (n <= q)%nat -> hadamard q (hadamards n psi) = hadamards n (hadamard q psi).
Proof.
  induction n as [|n IH]; intros Hq; [reflexivity|].
  cbn [hadamards]. rewrite hadamard_commute by lia. rewrite IH by lia.
  reflexivity.
Qed.

Lemma hadamards_involutive (n : nat) (psi : amplitudes) :
  hadamards n (hadamards n psi) = psi.
Proof.
  induction n as [|n IH]; [reflexivity|].
  cbn [hadamards]. rewrite <- hadamard_hadamards_commute by lia.
  rewrite hadamard_involutive. exact IH.
Qed.

Lemma clear_below_set_bit (n : nat) (v : bool) (b : basis) :
  set_bit n v (clear_below (S n) b) = clear_below n (set_bit n v b).
Proof.
  apply functional_extensionality. intros i. unfold set_bit, clear_below.
  destruct (Nat.eqb_spec i n) as [->|Hne].
  - rewrite Nat.ltb_irrefl. reflexivity.
  - destruct (Nat.ltb_spec i n), (Nat.ltb_spec i (S n)); try reflexivity; lia.
Qed.

(** On a basis state whose first [n] qubits are clear, the Hadamards give
    the scaled sum of the amplitudes. *)
Lemma hadamards_at_clear (n : nat) (psi : amplitudes) :
  forall b, hadamards n psi (clear_below n b) = (/ sqrt 2) ^ n * sum_over n psi b.
Proof.
  induction n as [|n IH]; intros b.
  - cbn. replace (clear_below 0 b) with b; [ring|].
    apply functional_extensionality. intros i. reflexivity.
  - cbn [hadamards sum_over]. unfold hadamard.
    rewrite !clear_below_set_bit, !IH.
    replace (clear_below (S n) b n) with false
      by (unfold clear_below; rewrite (proj2 (Nat.ltb_lt n (S n))) by lia;
          reflexivity).
    cbn [sign pow]. ring.
Qed.

Lemma all_zero_S (n : nat) (b : basis) :
  all_zero (S n) b = (all_zero n b && negb (b n))%bool.
Proof.
  unfold all_zero. rewrite seq_S, forallb_app. cbn. rewrite andb_true_r.
  reflexivity.
Qed.

Lemma all_zero_clear_below (n : nat) (b : basis) :
  all_zero n (clear_below n b) = true.
Proof.
  unfold all_zero. apply forallb_forall. intros i Hi. apply in_seq in Hi.
  unfold clear_below. rewrite (proj2 (Nat.ltb_lt i n)) by lia. reflexivity.
Qed.

(** Amplitudes that vanish unless the first [n] qubits are clear go to a
    constant on those qubits. *)
Lemma hadamards_of_zero_supported (n : nat) :
  forall chi : amplitudes,
    (forall c, all_zero n c = false -> chi c = 0) ->
    forall b, hadamards n chi b = (/ sqrt 2) ^ n * chi (clear_below n b).
Proof.
  induction n as [|n IH]; intros chi Hchi b.
  - cbn. replace (clear_below 0 b) with b; [ring|].
    apply functional_extensionality. intros i. reflexivity.
  - assert (Hchi' : forall c, all_zero n c = false -> chi c = 0).
    { intros c Hc. apply Hchi. rewrite all_zero_S, Hc. reflexivity. }
    cbn [hadamards]. unfold hadamard. rewrite !(IH chi Hchi').
    rewrite <- !clear_below_set_bit.
    rewrite (Hchi (set_bit n true (clear_below (S n) b))).
    + rewrite set_bit_known.
      * cbn [pow]. ring.
      * unfold clear_below. rewrite (proj2 (Nat.ltb_lt n (S n))) by lia.
        reflexivity.
    + rewrite all_zero_S, set_bit_same. apply andb_false_r.
Qed.

Lemma inv_sqrt2_pow_squared (n : nat) :
  (/ sqrt 2) ^ n * (/ sqrt 2) ^ n = / 2 ^ n.
Proof.
  rewrite <- Rpow_mult_distr, inv_sqrt2_squared. apply pow_inv.
Qed.

(** The diffuser is the reflection about the uniform superposition, with
    the sign reversed. *)
Lemma apply_diffuser (n : nat) :
  (1 <= n)%nat ->
  exists diffuser,
    Grover.create_diffuser n = Returns diffuser
    /\ forall psi,
        apply_gates (gates diffuser) psi
        = Some (fun b => - reflect_about_uniform n psi b).
Proof.
  intros Hn. unfold Grover.create_diffuser. cbv zeta.
  destruct (@apply_multi_controlled_z n Hn) as (mcz & -> & Hmcz). cbn [bind].
  eexists. split; [reflexivity|]. intros psi.
  cbn [extend gates QuantumCircuit app].
  rewrite !apply_gates_app.
  rewrite apply_h_layer, apply_x_layer.
  rewrite Hmcz.
  rewrite apply_x_layer, apply_h_layer. f_equal.
  set (w := hadamards n psi).
  set (chi := fun c : basis => if all_zero n c then w c else 0).
  assert (Hmid : (fun b : basis =>
                    sign (all_ones n (flip_below n b))
                    * w (flip_below n (flip_below n b)))
                 = (fun b : basis => 1 * w b + -2 * chi b)).
  { apply functional_extensionality. intros b.
    rewrite all_ones_flip_below, flip_below_involutive. unfold chi.
    destruct (all_zero n b); cbn [sign]; ring. }
  rewrite Hmid, hadamards_linear.
  apply functional_extensionality. intros b.
  unfold w at 1. rewrite hadamards_involutive.
  rewrite hadamards_of_zero_supported.
  - unfold chi. rewrite all_zero_clear_below. unfold w.
    rewrite hadamards_at_clear. unfold reflect_about_uniform.
    transitivity (psi b - 2 * (((/ sqrt 2) ^ n * (/ sqrt 2) ^ n) * sum_over n psi b));
      [ring|].
    rewrite inv_sqrt2_pow_squared. unfold Rdiv. ring.
  - intros c Hc. unfold chi. rewrite Hc. reflexivity.
Qed.

End GateSemantics.

(** ** Sums over basis states *)

Section BasisSums.

Local Open Scope R_scope.

Lemma sum_over_set_bit_above (n q : nat) (v : bool) :
  (n <= q)%nat ->
  forall (psi : amplitudes) (b : basis),
    sum_over n psi (set_bit q v b) = sum_over n (fun c => psi (set_bit q v c)) b.
Proof.
  intros Hq. induction n as [|n IH]; intros psi b; [reflexivity|].
  cbn [sum_over].
  rewrite !(fun w => @set_bit_swap n q w v b ltac:(lia)).
  rewrite !IH by lia. reflexivity.
Qed.

Lemma sum_over_clear_below (n : nat) :
  forall (psi : amplitudes) (b : basis),
    sum_over n psi b = sum_over n psi (clear_below n b).
Proof.
  induction n as [|n IH]; intros psi b.
  - reflexivity.
  - cbn [sum_over]. rewrite !clear_below_set_bit.
    rewrite <- !IH. reflexivity.
Qed.

Lemma fold_right_Rplus_app (l1 l2 : list R) :
  fold_right Rplus 0 (l1 ++ l2) = fold_right Rplus 0 l1 + fold_right Rplus 0 l2.
Proof.
  induction l1 as [|x l1 IH]; cbn [app fold_right]; [ring|].
  rewrite IH. ring.
Qed.

Lemma basis_of_low (n : nat) (y : nat) :
  (y < 2 ^ n)%nat ->
  set_bit n false (basis_of (Z.of_nat y)) = basis_of (Z.of_nat y).
Proof.
  intros Hy. apply set_bit_known. unfold basis_of.
  assert (Hpow : Z.of_nat (2 ^ n) = (2 ^ Z.of_nat n)%Z)
    by (rewrite Nat2Z.inj_pow; reflexivity).
  apply (@testbit_above n); lia.
Qed.

Lemma basis_of_high (n : nat) (y : nat) :
  (y < 2 ^ n)%nat ->
  set_bit n true (basis_of (Z.of_nat y)) = basis_of (Z.of_nat (2 ^ n + y)).
Proof.
  intros Hy. apply functional_extensionality. intros i.
  assert (Hpow : Z.of_nat (2 ^ n) = (2 ^ Z.of_nat n)%Z)
    by (rewrite Nat2Z.inj_pow; reflexivity).
  assert (Hyz : (0 <= Z.of_nat y < 2 ^ Z.of_nat n)%Z) by lia.
  unfold set_bit, basis_of. rewrite Nat2Z.inj_add, Hpow.
  destruct (Nat.eqb_spec i n) as [->|Hne].
  - symmetry.
    replace (Z.of_nat n) with (0 + Z.of_nat n)%Z at 2 by lia.
    rewrite <- Z.div_pow2_bits by lia.
    replace ((2 ^ Z.of_nat n + Z.of_nat y) / 2 ^ Z.of_nat n)%Z with 1%Z;
      [reflexivity|].
    apply Z.div_unique with (r := Z.of_nat y); lia.
  - destruct (Nat.lt_ge_cases i n) as [Hlt|Hge].
    + rewrite <- (Z.mod_pow2_bits_low (2 ^ Z.of_nat n + Z.of_nat y) (Z.of_nat n))
        by lia.
      f_equal. apply Z.mod_unique with (q := 1%Z); lia.
    + rewrite (@testbit_above n (Z.of_nat y) i Hyz Hge).
      symmetry. apply (@testbit_above (S n)); [|lia].
      rewrite Nat2Z.inj_succ, Z.pow_succ_r by lia. lia.
Qed.

Lemma map_seq_from {A : Type} (len : nat) :
  forall (f : nat -> A) (start : nat),
    map f (seq start len) = map (fun y => f (start + y)%nat) (seq 0 len).
Proof.
  induction len as [|len IH]; intros f start; [reflexivity|].
  cbn [seq map]. rewrite Nat.add_0_r. f_equal.
  rewrite (IH f (S start)), (IH (fun y => f (start + y)%nat) 1%nat).
  apply map_ext. intros y. f_equal. lia.
Qed.

Lemma sum_basis_states_S (n : nat) (psi : amplitudes) :
  sum_basis_states (S n) psi
  = sum_basis_states n (fun c => psi (set_bit n false c))
    + sum_basis_states n (fun c => psi (set_bit n true c)).
Proof.
  unfold sum_basis_states.
  replace (2 ^ S n)%nat with (2 ^ n + 2 ^ n)%nat by (cbn; lia).
  rewrite seq_app, map_app, fold_right_Rplus_app. f_equal.
  - f_equal. apply map_ext_in. intros y Hy. apply in_seq in Hy.
    rewrite basis_of_low by lia. reflexivity.
  - f_equal. cbn [Nat.add]. rewrite map_seq_from.
    apply map_ext_in. intros y Hy. apply in_seq in Hy.
    rewrite basis_of_high by lia. reflexivity.
Qed.

(** Summing over the values of the first [n] qubits is summing over the
    basis states [0 .. 2^n - 1]. *)
Lemma sum_over_basis_of_zero (n : nat) :
  forall psi : amplitudes,
    sum_over n psi (basis_of 0) = sum_basis_states n psi.
Proof.
  induction n as [|n IH]; intros psi.
  - unfold sum_basis_states. cbn. ring.
  - cbn [sum_over]. rewrite sum_basis_states_S.
    rewrite !sum_over_set_bit_above by lia. rewrite !IH. reflexivity.
Qed.

Lemma clear_below_basis_of (n : nat) (x : Z) :
  (0 <= x < 2 ^ Z.of_nat n)%Z -> clear_below n (basis_of x) = basis_of 0.
Proof.
  intros Hx. apply functional_extensionality. intros i.
  unfold clear_below, basis_of. rewrite Z.testbit_0_l.
  destruct (Nat.ltb_spec i n) as [Hlt|Hge]; [reflexivity|].
  apply (testbit_above Hx Hge).
Qed.

Lemma sum_over_basis_of (n : nat) (psi : amplitudes) (x : Z) :
  (0 <= x < 2 ^ Z.of_nat n)%Z ->
  sum_over n psi (basis_of x) = sum_basis_states n psi.
Proof.
  intros Hx. rewrite sum_over_clear_below, (@clear_below_basis_of n x Hx).
  apply sum_over_basis_of_zero.
Qed.

End BasisSums.

(** ** Claims on Grover's oracle and diffuser *)

Section GroverClaims.

Local Open Scope R_scope.

(** C6.  For at least one qubit and distinct marked basis states, the
    circuit of [create_oracle] multiplies the amplitude of every marked
    basis state by [-1] and leaves the others alone, and the circuit of
    [create_diffuser] is, up to the global phase [-1], the reflection
    [2 |s><s| - I] about the uniform superposition [|s>]: the amplitude
    of a basis state [x] becomes, up to that phase, twice the mean of the
    amplitudes of the basis states [0 .. 2^n - 1] minus its own. *)
Theorem grover_oracle_and_diffuser
        (n_qubits : nat) (marked_states : list Grover.marked_state)
        (targets : list Z) :
  (1 <= n_qubits)%nat ->
  Grover.marked_ints marked_states = Returns targets ->
  NoDup targets ->
  (forall t, In t targets -> (0 <= t < 2 ^ Z.of_nat n_qubits)%Z) ->
  (exists oracle,
      Grover.create_oracle n_qubits marked_states = Returns oracle /\
      forall psi, exists psi',
          apply_gates (gates oracle) psi = Some psi' /\
          forall x, (0 <= x < 2 ^ Z.of_nat n_qubits)%Z ->
                    (In x targets -> psi' (basis_of x) = - psi (basis_of x)) /\
                    (~ In x targets -> psi' (basis_of x) = psi (basis_of x)))
  /\
  (exists diffuser,
      Grover.create_diffuser n_qubits = Returns diffuser /\
      forall psi, exists psi',
          apply_gates (gates diffuser) psi = Some psi' /\
          (forall b, psi' b = -1 * reflect_about_uniform n_qubits psi b) /\
          forall x, (0 <= x < 2 ^ Z.of_nat n_qubits)%Z ->
                    psi' (basis_of x)
                    = -1 * (2 * (sum_basis_states n_qubits psi / 2 ^ n_qubits)
                            - psi (basis_of x))).
Proof.
  intros Hn Hints Hnodup Hrange. split.
  - destruct (@apply_oracle n_qubits marked_states targets Hn Hints)
      as (oracle & Horacle & Hacts).
    exists oracle. split; [exact Horacle|].
    intros psi. rewrite Hacts.
    eexists. split; [reflexivity|].
    intros x Hx. cbv beta.
    destruct (@oracle_phase_basis_of n_qubits targets x Hx Hnodup Hrange)
      as [Hin Hout].
    split; intros H; [rewrite Hin by exact H | rewrite Hout by exact H]; ring.
  - destruct (@apply_diffuser n_qubits Hn) as (diffuser & Hdiffuser & Hacts).
    exists diffuser. split; [exact Hdiffuser|].
    intros psi. rewrite Hacts.
    eexists. split; [reflexivity|]. split.
    + intros b. cbv beta. ring.
    + intros x Hx. cbv beta. unfold reflect_about_uniform.
      rewrite (@sum_over_basis_of n_qubits psi x Hx). ring.
Qed.

Lemma grover_oracle_and_diffuser_witness :
  (exists oracle,
      Grover.create_oracle 3 [Grover.StateInt 5; Grover.StateStr "110"]
      = Returns oracle /\
      forall psi, exists psi',
          apply_gates (gates oracle) psi = Some psi' /\
          forall x, (0 <= x < 2 ^ Z.of_nat 3)%Z ->
                    (In x [5; 6]%Z -> psi' (basis_of x) = - psi (basis_of x)) /\
                    (~ In x [5; 6]%Z -> psi' (basis_of x) = psi (basis_of x)))
  /\
  (exists diffuser,
      Grover.create_diffuser 3 = Returns diffuser /\
      forall psi, exists psi',
          apply_gates (gates diffuser) psi = Some psi' /\
          (forall b, psi' b = -1 * reflect_about_uniform 3 psi b) /\
          forall x, (0 <= x < 2 ^ Z.of_nat 3)%Z ->
                    psi' (basis_of x)
                    = -1 * (2 * (sum_basis_states 3 psi / 2 ^ 3)
                            - psi (basis_of x))).
Proof.
  apply (@grover_oracle_and_diffuser
           3 [Grover.StateInt 5; Grover.StateStr "110"] [5; 6]%Z).
  - lia.
  - reflexivity.
  - repeat constructor; cbn; intuition discriminate.
  - cbn. intros t [<-|[<-|[]]]; lia.
Defined.

End GroverClaims.

(** ** Traces of scripts *)

Section Traces.

Variable P : event -> Prop.

Lemma emits_only_ret {A : Type} (a : A) : emits_only P (ret a).
Proof. intros n. constructor. Qed.

Lemma emits_only_lift {A : Type} (o : outcome A) : emits_only P (lift o).
Proof. intros n. constructor. Qed.

Lemma emits_only_raise {A : Type} (e : exn) : emits_only P (@raise A e).
Proof. intros n. constructor. Qed.

Lemma emits_only_emit (e : event) : P e -> emits_only P (emit e).
Proof. intros He n. repeat constructor. exact He. Qed.

Lemma emits_only_bind {A B : Type} (m : script A) (k : A -> script B) :
  emits_only P m -> (forall a, emits_only P (k a)) -> emits_only P (sbind m k).
Proof.
  intros Hm Hk n. unfold sbind. specialize (Hm n).
  destruct (m n) as [[a|e|] d1]; cbn [snd] in *; try exact Hm.
  apply Forall_app. split; [exact Hm | apply Hk].
Qed.



End Traces.

Lemma phases_app (t1 t2 : list event) : phases (t1 ++ t2) = phases t1 ++ phases t2.
Proof. unfold phases. apply flat_map_app. Qed.

Lemma submissions_app (t1 t2 : list event) :
  submissions (t1 ++ t2) = (submissions t1 + submissions t2)%nat.
Proof. unfold submissions. rewrite filter_app, length_app. reflexivity. Qed.

Lemma reports_phases (t : list event) :
  Forall is_report t -> phases t = repeat Output (List.length t).
Proof.
  induction 1 as [|e t He _ IH]; [reflexivity|].
  destruct e; try contradiction. cbn. rewrite <- IH. reflexivity.
Qed.

Lemma reports_submissions (t : list event) :
  Forall is_report t -> submissions t = 0%nat.
Proof.
  induction 1 as [|e t He _ IH]; [reflexivity|].
  destruct e; try contradiction. exact IH.
Qed.

Lemma prints_phases (t : list event) : Forall is_print t -> phases t = [].
Proof.
  induction 1 as [|e t He _ IH]; [reflexivity|].
  destruct e; try contradiction. exact IH.
Qed.

Lemma prints_submissions (t : list event) :
  Forall is_print t -> submissions t = 0%nat.
Proof.
  induction 1 as [|e t He _ IH]; [reflexivity|].
  destruct e; try contradiction. exact IH.
Qed.

(** Routine closure of [emits_only] under the combinators. *)
Ltac emits_step :=
  first
    [ apply emits_only_ret
    | apply emits_only_lift
    | apply emits_only_raise
    | apply emits_only_emit; exact I
    | apply emits_only_bind; [|intros]
    | match goal with
      | |- emits_only _ (match ?x with _ => _ end) => destruct x
      | |- emits_only _ (let (_, _) := ?x in _) => destruct x
      end ].

Ltac emits := repeat emits_step.

Ltac refold_trace :=
  repeat match goal with
         | |- context [flat_map phase_of ?t] =>
             change (flat_map phase_of t) with (phases t)
         | |- context [List.length (filter is_submit ?t)] =>
             change (List.length (filter is_submit t)) with (submissions t)
         end.

Section ShorTraces.

Import Shor.

Lemma analyze_top_reports (rt : runtime) (N a : Z) (n_count : nat) (shots : Z)
      (items : list (string * Z)) :
  forall found periods,
    emits_only is_report (analyze_top rt N a n_count shots items found periods).
Proof.
  induction items as [|[bitstring count] items IH]; intros found periods;
    cbn [analyze_top].
  - emits.
  - unfold report. emits; apply IH.
Qed.

Lemma classical_verification_reports (N a : Z) (exponents : list Z) :
  emits_only is_report (classical_verification N a exponents).
Proof.
  induction exponents as [|i rest IH]; cbn [classical_verification].
  - emits.
  - unfold report. emits. exact IH.
Qed.

Lemma analyze_results_reports (rt : runtime) (cloud : sdk) (res : results) :
  emits_only is_report (analyze_results rt cloud res).
Proof.
  unfold analyze_results, report.
  emits;
    first [ apply analyze_top_reports | apply classical_verification_reports ].
Qed.

Lemma credential_hint_prints (e : exn) : emits_only is_print (credential_hint e).
Proof. unfold credential_hint, print. emits. Qed.

Ltac run_step :=
  cbn -[Z.pow Z.modulo Z.div Z.ltb Z.eqb Z.gtb range find_prime_power gcd
        create_shor_circuit extract_counts Nat.add];
  match goal with
  | |- context [match ?o with Returns _ => _ | Raises _ => _ | OutOfFuel => _ end] =>
      destruct o
  | |- context [match ?o with Some _ => _ | None => _ end] => destruct o
  | |- context [let (_, _) := ?p in _] => destruct p
  | |- context [if ?c then _ else _] => destruct c
  end.

Lemma run_shor_trace (rt : runtime) (cloud : sdk) (creds : credentials)
      (N : Z) (a : option Z) (n_count : nat) (shots : Z) (n : nat) :
  run_shor_shape (run_shor rt cloud creds N a n_count shots n).
Proof.
  unfold run_shor_shape, run_shor, connect, least_busy, transpile, sampler_run,
    raise, print.
  repeat run_step;
    cbn -[Z.pow Z.modulo Z.div Z.ltb Z.eqb Z.gtb range find_prime_power gcd
          create_shor_circuit extract_counts Nat.add];
    first
      [ left; repeat split; intros; try discriminate;
        match goal with H : Returns _ = Returns _ |- _ => inversion H end;
        reflexivity
      | right; left; repeat split; intros; discriminate
      | right; right; repeat split; intros; try discriminate;
        match goal with H : Returns _ = Returns _ |- _ => inversion H end;
        reflexivity ].
Qed.

Lemma main_body_steps (rt : runtime) (cloud : sdk) (creds : credentials)
      (N a : Z) (n_count : nat) (n : nat) :
  shor_steps (phases (snd (main_body rt cloud creds N a n_count n)))
  /\ (submissions (snd (main_body rt cloud creds N a n_count n)) <= 1)%nat.
Proof.
  unfold main_body, print.
  cbn -[run_shor analyze_results Nat.add]. unfold sbind. refold_trace.
  match goal with
  | |- context [run_shor ?r ?c ?cr ?NN ?aa ?nc ?sh ?m] =>
      pose proof (run_shor_trace r c cr NN aa nc sh m) as Hshape;
      unfold run_shor_shape in Hshape;
      destruct (run_shor r c cr NN aa nc sh m) as [[res|e|] d]
  end; cbn [fst snd] in *; refold_trace.
  - match goal with
    | |- context [analyze_results ?r ?c ?rs ?m] =>
        pose proof (analyze_results_reports r c rs m) as Hrep;
        destruct (analyze_results r c rs m) as [o d2] eqn:Hres
    end; cbn [fst snd] in *.
    rewrite phases_app, submissions_app.
    rewrite (reports_phases Hrep), (reports_submissions Hrep).
    destruct Hshape as [(Hp & Hs & Ht) | [(Hp & Hs & Ht) | (Hp & Hs & Ht)]].
    + specialize (Ht res eq_refl). destruct res; [|discriminate].
      rewrite Hp, Hs. split; [|lia]. right. left.
      cbn in Hres. inversion Hres. reflexivity.
    + exfalso. apply (Ht res). reflexivity.
    + rewrite Hp, Hs. split; [|lia]. right. right. right.
      exists (List.length d2). reflexivity.
  - destruct Hshape as [(Hp & Hs & _) | [(Hp & Hs & _) | (Hp & Hs & _)]];
      rewrite Hp, Hs; (split; [|lia]).
    + left. reflexivity.
    + right. right. left. reflexivity.
    + right. right. right. exists 0%nat. reflexivity.
  - destruct Hshape as [(Hp & Hs & _) | [(Hp & Hs & _) | (Hp & Hs & _)]];
      rewrite Hp, Hs; (split; [|lia]).
    + left. reflexivity.
    + right. right. left. reflexivity.
    + right. right. right. exists 0%nat. reflexivity.
Qed.

Lemma script_run_steps (rt : runtime) (cloud : sdk) (env : environment)
      (N a : Z) (n_count : nat) (n : nat) :
  shor_steps (phases (snd (script_run rt cloud env N a n_count n)))
  /\ (submissions (snd (script_run rt cloud env N a n_count n)) <= 1)%nat.
Proof.
  unfold script_run, read_credentials, getenv, main_block, try_except.
  cbn -[main_body credential_hint Nat.add]. refold_trace.
  match goal with
  | |- context [main_body ?r ?c ?cr ?NN ?aa ?nc ?m] =>
      pose proof (main_body_steps r c cr NN aa nc m) as [Hsteps Hsub];
      destruct (main_body r c cr NN aa nc m) as [[[]|e|] d]
  end; cbn [fst snd] in *; try (split; assumption).
  match goal with
  | |- context [credential_hint ?e ?m] =>
      pose proof (credential_hint_prints e m) as Hprints
  end.
  rewrite phases_app, submissions_app.
  rewrite (prints_phases Hprints), (prints_submissions Hprints).
  rewrite app_nil_r, Nat.add_0_r. split; assumption.
Qed.

End ShorTraces.

(** ** Counting job submissions *)

Section Counting.

Lemma counted_ret {A : Type} (a : A) (n : nat) : counted 0 (ret a n).
Proof. split; [apply Nat.le_refl | reflexivity]. Qed.

Lemma counted_lift {A : Type} (o : outcome A) (n : nat) : counted 0 (lift o n).
Proof. split; [apply Nat.le_refl | reflexivity]. Qed.

Lemma counted_emit (e : event) (n : nat) :
  is_submit e = false -> counted 0 (emit e n).
Proof.
  intros He. unfold counted, emit, submissions. cbn. rewrite He.
  split; [apply Nat.le_refl | reflexivity].
Qed.

Lemma counted_sampler_run (cloud : sdk) (circuits : list circuit) (shots : Z)
      (n : nat) :
  counted 1 (sampler_run cloud circuits shots n).
Proof. split; [apply Nat.le_refl | reflexivity]. Qed.

Lemma counted_bind {A B : Type} (K1 K2 : nat) (m : script A) (k : A -> script B)
      (n : nat) :
  counted K1 (m n) -> (forall a n', counted K2 (k a n')) ->
  counted (K1 + K2) (sbind m k n).
Proof.
  intros [Hle Heq] Hk. unfold counted, sbind.
  destruct (m n) as [[a|e|] d1]; cbv zeta; cbn [fst snd] in *.
  - destruct (Hk a (n + submissions d1)%nat) as [Hle2 Heq2].
    rewrite submissions_app. pose proof (Heq a eq_refl) as H1. split.
    + lia.
    + intros b Hb. rewrite (Heq2 b Hb). lia.
  - split; [lia | discriminate].
  - split; [lia | discriminate].
Qed.

Lemma counted_eq {A : Type} (K K' : nat) (r : outcome A * list event) :
  K = K' -> counted K r -> counted K' r.
Proof. intros <-. exact (fun H => H). Qed.

End Counting.

Section VQETraces.

Import VQE.

Lemma measure_terms_counted (rt : runtime) (cloud : sdk) (ansatz : circuit) (n_qubits : nat)
      (shots : Z) (ham : list (Q * string)) :
  forall energy n,
    counted (measured_terms n_qubits ham)
            (measure_terms rt cloud ansatz n_qubits shots ham energy n).
Proof.
  induction ham as [|[coeff pauli_string] ham IH]; intros energy n.
  - apply counted_ret.
  - cbn [measure_terms]. unfold measured_terms. cbn [filter snd].
    destruct (String.eqb pauli_string (identity_string n_qubits)); cbn [negb].
    + apply IH.
    + cbn [List.length]. fold (measured_terms n_qubits ham).
      apply (@counted_eq _ (0 + (0 + (1 + (0 + (0 + measured_terms n_qubits ham))))));
        [reflexivity|].
      apply counted_bind; [apply counted_emit; reflexivity|]. intros _ n1.
      apply counted_bind.
      { unfold transpile.
        apply (@counted_bind _ _ 0 0);
          [apply counted_emit; reflexivity | intros; apply counted_lift]. }
      intros transpiled n2.
      apply counted_bind; [apply counted_sampler_run|]. intros job n3.
      apply counted_bind; [apply counted_lift|]. intros data n4.
      apply counted_bind; [apply counted_lift|]. intros exp_val n5.
      apply IH.
Qed.

Lemma run_vqe_iteration_counted (rt : runtime) (cloud : sdk) (params : list Q) (n_qubits : nat)
      (ham : list (Q * string)) (shots : Z) (n : nat) :
  counted (measured_terms n_qubits ham)
          (run_vqe_iteration rt cloud params n_qubits ham shots n).
Proof.
  unfold run_vqe_iteration.
  apply (@counted_bind _ _ 0); [apply counted_lift|]. intros ansatz n1.
  apply measure_terms_counted.
Qed.

Lemma optimise_counted (rt : runtime) (cloud : sdk) (rng : numpy_random) (n_qubits : nat)
      (shots : Z) (max_iterations : nat) (iterations : list nat) :
  forall st n,
    counted (List.length iterations * measured_terms n_qubits hamiltonian)
            (optimise rt cloud rng n_qubits shots max_iterations iterations st n).
Proof.
  induction iterations as [|iteration rest IH]; intros st n.
  - apply counted_ret.
  - cbn [optimise List.length Nat.mul].
    apply (@counted_eq _ (0 + (measured_terms n_qubits hamiltonian
                               + (0 + List.length rest
                                      * measured_terms n_qubits hamiltonian))));
      [reflexivity|].
    apply counted_bind; [apply counted_emit; reflexivity|]. intros _ n1.
    apply counted_bind; [apply run_vqe_iteration_counted|]. intros energy n2.
    apply counted_bind; [apply counted_emit; reflexivity|]. intros _ n3.
    apply IH.
Qed.

Lemma run_vqe_counted (rt : runtime) (cloud : sdk) (rng : numpy_random) (creds : credentials)
      (n_qubits max_iterations : nat) (shots : Z) (n : nat) :
  counted (max_iterations * measured_terms n_qubits hamiltonian)
          (run_vqe rt cloud rng creds n_qubits max_iterations shots n).
Proof.
  unfold run_vqe, connect, least_busy, print.
  apply (@counted_eq _
           (0 + (0 + (0 + (0 + (0 + (0 + (0 +
              (max_iterations * measured_terms n_qubits hamiltonian
               + (0 + (0 + 0)))))))))));
    [lia|].
  apply counted_bind.
  { apply (@counted_bind _ _ 0 0);
      [apply counted_emit; reflexivity | intros; apply counted_lift]. }
  intros _ n1.
  apply counted_bind.
  { apply (@counted_bind _ _ 0 0);
      [apply counted_emit; reflexivity | intros; apply counted_lift]. }
  intros backend n2.
  apply counted_bind; [apply counted_emit; reflexivity|]. intros _ n3.
  apply counted_bind; [apply counted_emit; reflexivity|]. intros _ n4.
  apply counted_bind; [apply counted_emit; reflexivity|]. intros _ n5.
  apply counted_bind; [apply counted_emit; reflexivity|]. intros _ n6.
  apply counted_bind; [apply counted_emit; reflexivity|]. intros _ n7.
  apply counted_bind.
  { eapply counted_eq; [|apply optimise_counted].
    rewrite length_seq. reflexivity. }
  intros st n8.
  apply counted_bind; [apply counted_lift|]. intros final_ansatz n9.
  apply counted_bind; [apply counted_emit; reflexivity|]. intros _ n10.
  apply counted_ret.
Qed.

End VQETraces.

(** ** Where the credentials come from *)



Section Credentials.

Variable creds : credentials.



Lemma prints_use_credentials (t : list event) :
  Forall is_print t -> Forall (uses_credentials creds) t.
Proof.
  apply Forall_impl. intros [] H; try contradiction; exact I.
Qed.




Lemma report_history_reports (energies : list Q) :
  forall i, emits_only is_report (VQE.report_history i energies).
Proof.
  induction energies as [|energy rest IH]; intros i; cbn [VQE.report_history].
  - emits.
  - unfold report. emits. apply IH.
Qed.

Lemma vqe_analyze_results_reports (rt : runtime) (cloud : sdk) (res : VQE.results) :
  emits_only is_report (VQE.analyze_results rt cloud res).
Proof.
  unfold VQE.analyze_results, report. emits. apply report_history_reports.
Qed.



End Credentials.

(** ** Claims on the runs of the scripts *)

Section RunClaims.

(** C1, as stated, fails: on the sample world the VQE script as committed
    runs to its end and has submitted fifteen jobs. *)
Lemma vqe_submits_fifteen_jobs :
  fst (VQE.main exact_runtime sample_cloud sample_rng sample_env 0%nat)
  = Returns tt /\
  submissions (trace_of (VQE.main exact_runtime sample_cloud sample_rng
                                  sample_env))
  = 15%nat.
Proof.
  split; vm_compute; reflexivity.
Qed.

(** C1, amended.  A run of the Shor script submits at most one job.  A
    call of [run_vqe] that returns has submitted one job for every term of
    the Hamiltonian other than the identity, in every iteration; with two
    qubits that is five jobs per iteration. *)
Theorem job_submissions_per_run :
  (forall rt cloud env N a n_count n,
      (submissions (snd (Shor.script_run rt cloud env N a n_count n)) <= 1)%nat)
  /\
  (forall rt cloud rng creds n_qubits max_iterations shots n res,
      fst (VQE.run_vqe rt cloud rng creds n_qubits max_iterations shots n)
      = Returns res ->
      submissions (snd (VQE.run_vqe rt cloud rng creds n_qubits max_iterations
                                    shots n))
      = (max_iterations * measured_terms n_qubits VQE.hamiltonian)%nat)
  /\ measured_terms 2 VQE.hamiltonian = 5%nat.
Proof.
  split; [|split].
  - intros. apply script_run_steps.
  - intros rt cloud rng creds n_qubits max_iterations shots n res Hres.
    exact (proj2 (run_vqe_counted rt cloud rng creds n_qubits max_iterations shots n)
                 res Hres).
  - reflexivity.
Qed.

Lemma job_submissions_per_run_witness :
  submissions
    (snd (VQE.run_vqe exact_runtime sample_cloud sample_rng sample_credentials
                      2 3 1024 0%nat))
  = 15%nat.
Proof.
  refine (proj1 (proj2 job_submissions_per_run)
                exact_runtime sample_cloud sample_rng sample_credentials 2%nat 3%nat 1024%Z
                0%nat _ _).
  vm_compute. reflexivity.
Defined.

(** C2, as stated, fails: [run_shor] raises an exception of its own for
    [N = 2], and the loop that extracts the counts goes on after an
    attribute whose access raises. *)
Lemma shor_raises_and_recovers :
  fst (Shor.run_shor exact_runtime sample_cloud sample_credentials 2 None 4 1024
                     0%nat)
  = Raises (ValueError "N must be >= 3")
  /\ extract_counts [("broken"%string, AttrRaises (SdkError "unreadable"));
                     ("meas"%string, AttrCounts sample_counts)] []
     = sample_counts.
Proof.
  split; reflexivity.
Qed.

(** C2, amended.  The main block of the Shor script is one [try] with one
    broad handler: the run never ends in an exception; whatever the body
    raises, the run ends after the body's trace with the four lines of
    the credential hint, and nothing is run again.  The script also raises
    on its own, [ValueError] for [N < 3], and the loop that extracts the
    counts skips an attribute whose access raises. *)
Theorem shor_error_handling (rt : runtime) (cloud : sdk) (creds : credentials)
        (N a : Z) (n_count : nat) (n : nat) :
  (forall e, fst (Shor.main_block rt cloud creds N a n_count n) <> Raises e)
  /\
  (forall e d,
      Shor.main_body rt cloud creds N a n_count n = (Raises e, d) ->
      exists text,
        Shor.main_block rt cloud creds N a n_count n
        = (Returns tt,
           d ++ [Print [Txt "Error during execution: "; Txt text];
                 Print [Txt "Make sure you have set your IBM Quantum credentials in .env file:"];
                 Print [Txt "  IBM_QUANTUM_TOKEN=your_token_here"];
                 Print [Txt "  IBM_QUANTUM_INSTANCE=your_instance_here"]]))
  /\
  ((N < 3)%Z ->
   fst (Shor.main_body rt cloud creds N a n_count n)
   = Raises (ValueError "N must be >= 3"))
  /\
  (forall name e rest counts,
      extract_counts ((name, AttrRaises e) :: rest) counts
      = extract_counts rest counts).
Proof.
  split; [|split; [|split]].
  - intros e. unfold Shor.main_block, try_except.
    destruct (Shor.main_body rt cloud creds N a n_count n) as [[[]|e'|] d];
      cbn; discriminate.
  - intros e d Hbody. unfold Shor.main_block, try_except. rewrite Hbody.
    eexists. cbn. reflexivity.
  - intros HN. unfold Shor.main_body, Shor.run_shor.
    rewrite (proj2 (Z.ltb_lt N 3) HN). reflexivity.
  - intros name e rest counts. cbn [extract_counts].
    destruct (starts_with_underscore name); reflexivity.
Qed.

(** C5, as stated, fails: with [N = 4] the Shor script prints its result,
    a trivial factorization, and has neither built a circuit nor submitted
    a job; and the VQE script as committed goes on building circuits after
    its first submission. *)
Lemma result_without_circuit_or_job :
  phases (trace_of (Shor.script_run exact_runtime sample_cloud sample_env 4 7 4))
  = [Output]
  /\ follows_shape
       (phases (trace_of (Shor.script_run exact_runtime sample_cloud sample_env
                                          4 7 4)))
     = false
  /\ follows_shape (phases (trace_of (VQE.main exact_runtime sample_cloud sample_rng sample_env)))
     = false.
Proof.
  repeat split; vm_compute; reflexivity.
Qed.

(** C5, amended.  The steps of a run of the Shor script are one of: none
    (the run failed before it built a circuit); the output alone (a
    trivial factorization); a construction alone; or a construction, then
    one submission, then only output.  For every even [N >= 3] the run
    prints its result without a circuit or a job. *)
Theorem shor_run_steps (rt : runtime) (cloud : sdk) (env : environment)
        (N a : Z) (n_count : nat) (n : nat) :
  shor_steps (phases (snd (Shor.script_run rt cloud env N a n_count n)))
  /\ ((3 <= N)%Z -> (N mod 2 = 0)%Z ->
      phases (snd (Shor.script_run rt cloud env N a n_count n)) = [Output]).
Proof.
  split; [apply script_run_steps|].
  intros H3 Heven.
  unfold Shor.script_run, Shor.main_block, Shor.main_body, Shor.run_shor.
  rewrite (proj2 (Z.ltb_ge N 3) H3), Heven. reflexivity.
Qed.

End RunClaims.

(** ** Concrete runs *)

Section ConcreteRuns.

Example gcd_48_18 : Shor.gcd 48 18 = Returns 6%Z.
Proof. reflexivity. Qed.

Example gcd_negative : Shor.gcd 4 (-6) = Returns (-2)%Z.
Proof. reflexivity. Qed.

Example modular_exponentiation_7_2_15 :
  Shor.modular_exponentiation 7 2 15 = Returns 4%Z.
Proof. reflexivity. Qed.

Example analyze_shor_measurement_4 :
  Shor.analyze_shor_measurement exact_runtime 4 4 15 7
  = Returns (Some 4, Some [3; 5])%Z.
Proof. vm_compute. reflexivity. Qed.

Example analyze_shor_measurement_5 :
  Shor.analyze_shor_measurement exact_runtime 5 4 15 7
  = Returns (Some 13, None)%Z.
Proof. vm_compute. reflexivity. Qed.

Example analyze_shor_measurement_0 :
  Shor.analyze_shor_measurement exact_runtime 0 4 15 7 = Returns (None, None).
Proof. vm_compute. reflexivity. Qed.

Example calculate_qber_truncates :
  BB84.calculate_qber [1; 0; 1]%Z [1; 1]%Z = Returns (1 # 3).
Proof. vm_compute. reflexivity. Qed.

Example qft_on_three_qubits :
  gates (QFT.create_qft_circuit 3 true)
  = [Gh 2; Gcp (1 # 8) 0 2; Gcp (1 # 4) 1 2; Gh 1; Gcp (1 # 4) 0 1; Gh 0;
     Gswap 0 2].
Proof. reflexivity. Qed.

Example oracle_for_five :
  Grover.create_oracle 3 [Grover.StateInt 5]
  = Returns {| num_qubits := 3; num_clbits := 0;
               gates := [Gx 1; Gh 2; Gmcx [0; 1]%nat 2; Gh 2; Gx 1] |}.
Proof. reflexivity. Qed.

Example shor_as_committed_submits_once :
  submissions (trace_of (Shor.main exact_runtime sample_cloud sample_env))
  = 1%nat
  /\ follows_shape
       (phases (trace_of (Shor.main exact_runtime sample_cloud sample_env)))
     = true.
Proof. split; vm_compute; reflexivity. Qed.

End ConcreteRuns.

(** ** More on the arithmetic of the Shor script *)

Section ShorArithmeticMore.

Local Open Scope Z_scope.
Import Shor.

(** X1.  For a modulus of at least [2] and a non-negative exponent,
    [modular_exponentiation] returns [a^power mod N], a value of
    [0 .. N-1]. *)
Theorem modular_exponentiation_correct (a power N : Z) :
  0 <= power -> 2 <= N ->
  modular_exponentiation a power N = Returns (a ^ power mod N)
  /\ 0 <= a ^ power mod N < N.
Proof.
  intros Hp HN. split.
  - apply modular_exponentiation_spec; assumption.
  - apply Z.mod_pos_bound. lia.
Qed.

Lemma modular_exponentiation_correct_witness :
  modular_exponentiation 7 4 15 = Returns (7 ^ 4 mod 15)
  /\ 0 <= 7 ^ 4 mod 15 < 15.
Proof.
  apply (@modular_exponentiation_correct 7 4 15); lia.
Defined.

(** X2.  A zero modulus makes [modular_exponentiation] raise
    [ZeroDivisionError] at its first line, whatever the other arguments;
    with a nonzero modulus a negative exponent is not an error: the loop
    is skipped and the result is [1]. *)
Theorem modular_exponentiation_edges (a power N : Z) :
  modular_exponentiation a power 0 = Raises ZeroDivisionError
  /\ (power < 0 -> N <> 0 -> modular_exponentiation a power N = Returns 1).
Proof.
  split; [reflexivity|].
  intros Hp HN. unfold modular_exponentiation, py_mod.
  rewrite (proj2 (Z.eqb_neq N 0) HN). cbn [bind modexp_loop].
  destruct (Z.gtb_spec power 0); [lia | reflexivity].
Qed.

Lemma gcd_loop_negative (fuel : nat) :
  forall a b g, b < 0 -> gcd_loop fuel a b = Returns g -> g < 0.
Proof.
  induction fuel as [|fuel IH]; intros a b g Hb; cbn [gcd_loop]; [discriminate|].
  rewrite (proj2 (Z.eqb_neq b 0)) by lia.
  unfold py_mod. rewrite (proj2 (Z.eqb_neq b 0)) by lia. cbn [bind].
  pose proof (Z.mod_neg_bound a b Hb) as Hr.
  destruct (Z.eq_dec (a mod b) 0) as [H0|Hn0].
  - rewrite H0. destruct fuel; cbn [gcd_loop]; [discriminate|].
    cbn. intros H. inversion H. lia.
  - apply IH. lia.
Qed.

(** X3.  For a positive [N], [is_coprime(a, N)] is [True] exactly when the
    greatest common divisor of [a] and [N] is [1].  For a negative [N] the
    remainders of Python's [%] are negative, Euclid's loop ends on a
    negative value, and [is_coprime] is [False] whatever [a] is. *)
Theorem is_coprime_sign (a N : Z) :
  (0 < N -> is_coprime a N = Returns (Z.gcd a N =? 1))
  /\ (N < 0 -> is_coprime a N = Returns false).
Proof.
  unfold is_coprime.
  destruct (gcd_returns a N) as (g & Hg & Habs & Hsign). rewrite Hg. cbn [bind].
  split; intros HN.
  - assert (0 <= g) by (apply Hsign; lia).
    replace (Z.gcd a N) with g by lia. reflexivity.
  - assert (g < 0) by (unfold gcd in Hg; eapply gcd_loop_negative; eassumption).
    destruct (Z.eqb_spec g 1); [lia | reflexivity].
Qed.

End ShorArithmeticMore.

(** ** More on [run_shor] *)

Section RunShorMore.

Local Open Scope Z_scope.
Import Shor.

Lemma find_prime_power_sound (rt : runtime) (N : Z) (ks : list Z) (root k : Z) :
  find_prime_power rt N ks = Returns (Some (root, k)) ->
  In k ks /\ root ^ k = N.
Proof.
  induction ks as [|k0 ks IH]; cbn [find_prime_power]; [discriminate|].
  destruct (round_root rt N k0) as [r| |]; cbn [bind]; try discriminate.
  destruct (Z.eqb_spec (r ^ k0) N) as [Heq|Hne].
  - intros H. inversion H as [[Hr Hk]]. rewrite <- Hr, <- Hk.
    split; [left; reflexivity | exact Heq].
  - intros H. destruct (IH H) as [Hin Hpow]. split; [right; exact Hin | exact Hpow].
Qed.

Lemma in_range (lo hi k : Z) : In k (range lo hi) -> lo <= k < hi.
Proof.
  unfold range. intros H. apply in_map_iff in H. destruct H as (i & <- & Hi).
  apply in_seq in Hi. lia.
Qed.

Ltac shor_step :=
  cbn -[Z.pow Z.modulo Z.div Z.ltb Z.eqb Z.gtb range find_prime_power gcd
        create_shor_circuit extract_counts Nat.add];
  match goal with
  | |- context [match ?o with Returns _ => _ | Raises _ => _ | OutOfFuel => _ end] =>
      destruct o
  end.

(** X4.  Every factorization that [run_shor] returns without the hardware
    is right: a pair of factors multiplies to [N] and its first member is
    greater than [1]; a single factor is an exact [k]-th root of [N] for
    some [k >= 2]. *)
Theorem run_shor_trivial_factors (rt : runtime) (cloud : sdk) (creds : credentials)
        (N : Z) (a : option Z) (n_count : nat) (shots : Z) (n : nat)
        (factors : list Z) :
  fst (run_shor rt cloud creds N a n_count shots n) = Returns (Trivial factors) ->
  (exists p q, factors = [p; q] /\ 1 < p /\ p * q = N)
  \/ (exists root k, factors = [root] /\ 2 <= k /\ root ^ k = N).
Proof.
  unfold run_shor, connect, least_busy, transpile, sampler_run, raise, print.
  destruct (Z.ltb_spec N 3) as [Hlt|Hge]; [cbn; discriminate|].
  destruct (Z.eqb_spec (N mod 2) 0) as [Heven|Hodd].
  - cbn. intros H. inversion H. left. exists 2, (N / 2).
    split; [reflexivity|]. split; [lia|].
    pose proof (Z.div_mod N 2 ltac:(lia)). lia.
  - unfold sbind at 1. unfold lift at 1.
    destruct (int_log2 rt N) as [top| |]; try (cbn; discriminate).
    unfold sbind at 1. unfold lift at 1.
    destruct (find_prime_power rt N (range 2 (top + 1))) as [[[root k]|]| |] eqn:Hfind;
      try (cbn; discriminate).
    + cbn. intros H. inversion H. right. exists root, k.
      destruct (find_prime_power_sound _ _ _ Hfind) as [Hin Hpow].
      apply in_range in Hin. split; [reflexivity|]. split; [lia | exact Hpow].
    + set (a' := match a with Some a0 => a0 | None => 7 end).
      assert (HN : 0 < N) by lia.
      destruct (gcd_divides a' HN) as (g & Hg & Hg0 & Hdiv).
      unfold sbind at 1. unfold lift at 1. rewrite Hg.
      destruct (Z.gtb_spec g 1) as [Hbig|Hsmall].
      * unfold py_floordiv. rewrite (proj2 (Z.eqb_neq g 0)) by lia.
        cbn. intros H. inversion H. left. exists g, (N / g).
        split; [reflexivity|]. split; [lia|].
        destruct Hdiv as [c Hc]. subst N. rewrite Z.div_mul by lia. ring.
      * repeat shor_step; cbn; discriminate.
Qed.

Lemma run_shor_trivial_factors_witness :
  (exists p q, [2; 2] = [p; q] /\ 1 < p /\ p * q = 4)
  \/ (exists root k, [2; 2] = [root] /\ 2 <= k /\ root ^ k = 4).
Proof.
  apply (@run_shor_trivial_factors exact_runtime sample_cloud sample_credentials
                                   4 None 4%nat 1024 0%nat [2; 2]).
  reflexivity.
Defined.

(** X5.  [run_shor] reaches the hardware only when the classical shortcuts
    have failed: if it has submitted its job, then [N] is odd and at least
    [3], and the base (7 when none is given) is coprime to [N]. *)
Theorem run_shor_submits_only_when_needed
        (rt : runtime) (cloud : sdk) (creds : credentials)
        (N : Z) (a : option Z) (n_count : nat) (shots : Z) (n : nat) :
  submissions (snd (run_shor rt cloud creds N a n_count shots n)) = 1%nat ->
  3 <= N /\ N mod 2 = 1
  /\ Z.gcd (match a with Some a0 => a0 | None => 7 end) N = 1.
Proof.
  unfold run_shor, connect, least_busy, transpile, sampler_run, raise, print.
  destruct (Z.ltb_spec N 3) as [Hlt|Hge]; [cbn; discriminate|].
  destruct (Z.eqb_spec (N mod 2) 0) as [Heven|Hodd]; [cbn; discriminate|].
  unfold sbind at 1. unfold lift at 1.
  destruct (int_log2 rt N) as [top| |]; try (cbn; discriminate).
  unfold sbind at 1. unfold lift at 1.
  destruct (find_prime_power rt N (range 2 (top + 1))) as [[[root k]|]| |];
    try (cbn; discriminate).
  set (a' := match a with Some a0 => a0 | None => 7 end).
  assert (HN : 0 < N) by lia.
  destruct (gcd_returns a' N) as (g & Hg & Habs & Hsign).
  unfold sbind at 1. unfold lift at 1. rewrite Hg.
  cbn -[Z.gtb Z.pow Z.modulo Z.div Z.eqb py_floordiv create_shor_circuit
        extract_counts Nat.add].
  destruct (Z.gtb_spec g 1) as [Hbig|Hsmall].
  - unfold py_floordiv. rewrite (proj2 (Z.eqb_neq g 0)) by lia.
    cbn. discriminate.
  - intros _. split; [exact Hge|]. split.
    + pose proof (Z.mod_pos_bound N 2 ltac:(lia)). lia.
    + assert (0 <= g) by (apply Hsign; lia).
      assert (Z.gcd a' N <> 0).
      { intros H0. apply Z.gcd_eq_0_r in H0. lia. }
      lia.
Qed.

Lemma run_shor_submits_only_when_needed_witness :
  3 <= 15 /\ 15 mod 2 = 1 /\ Z.gcd 7 15 = 1.
Proof.
  apply (@run_shor_submits_only_when_needed
           exact_runtime sample_cloud sample_credentials 15 (Some 7) 4%nat 1024
           0%nat).
  vm_compute. reflexivity.
Defined.

End RunShorMore.

(** ** What the result analysis of the Shor script announces *)

Section ShorAnalysis.

Local Open Scope Z_scope.
Import Shor.

Lemma emits_only_bind_returns (P : event -> Prop) {A B : Type} (Q : A -> Prop)
      (m : script A) (k : A -> script B) :
  emits_only P m ->
  (forall n a, fst (m n) = Returns a -> Q a) ->
  (forall a, Q a -> emits_only P (k a)) ->
  emits_only P (sbind m k).
Proof.
  intros Hm HQ Hk n. unfold sbind. specialize (Hm n). specialize (HQ n).
  destruct (m n) as [[a|e|] d1]; cbn [fst snd] in *; try exact Hm.
  apply Forall_app. split; [exact Hm | apply Hk, HQ; reflexivity].
Qed.

Lemma analyze_shor_measurement_proper (rt : runtime)
      (measurement n_count N a : Z) (r : option Z) (factors : list Z) :
  analyze_shor_measurement rt measurement n_count N a = Returns (r, Some factors) ->
  Forall (proper_divisor N) factors.
Proof.
  unfold analyze_shor_measurement.
  destruct (true_div rt measurement (2 ^ n_count)) as [phase| |]; cbn [bind];
    try discriminate.
  destruct (Qeq_bool phase 0); [discriminate|].
  destruct (limit_denominator rt phase N) as [frac| |]; cbn [bind];
    try discriminate.
  unfold py_mod, py_floordiv. cbn [Z.eqb bind].
  destruct ((snd frac =? 0) || negb (snd frac mod 2 =? 0))%bool; [discriminate|].
  destruct (modular_exponentiation a (snd frac / 2) N) as [x| |]; cbn [bind];
    try discriminate.
  destruct (gcd (x - 1) N) as [g1| |] eqn:Hg1; cbn [bind]; try discriminate.
  destruct (gcd (x + 1) N) as [g2| |] eqn:Hg2; cbn [bind]; try discriminate.
  intros Hret.
  assert (Hf : factors = filter (fun guess => (1 <? guess) && (guess <? N)) [g1; g2]).
  { destruct (filter _ [g1; g2]); [discriminate|]. congruence. }
  rewrite Hf. apply Forall_forall. intros f Hin.
  apply filter_In in Hin. destruct Hin as [Hin Hp].
  apply andb_prop in Hp. destruct Hp as [H1 H2].
  apply Z.ltb_lt in H1, H2.
  assert (HN0 : 0 < N) by lia.
  destruct (gcd_divides (x - 1) HN0) as (g1' & Hg1' & _ & Hd1).
  destruct (gcd_divides (x + 1) HN0) as (g2' & Hg2' & _ & Hd2).
  rewrite Hg1 in Hg1'. rewrite Hg2 in Hg2'.
  inversion Hg1'. inversion Hg2'. subst g1' g2'.
  split; [lia|].
  destruct Hin as [<-|[<-|[]]]; assumption.
Qed.

Lemma cofactor_proper (N f : Z) : proper_divisor N f -> proper_divisor N (N / f).
Proof.
  intros [Hf [c Hc]]. subst N.
  rewrite Z.div_mul by lia.
  split; [nia|]. exists f. ring.
Qed.

Lemma set_add_Forall (P : Z -> Prop) (x : Z) (s : list Z) :
  P x -> Forall P s -> Forall P (set_add x s).
Proof.
  intros Hx Hs. unfold set_add. destruct (existsb (Z.eqb x) s); [exact Hs|].
  apply Forall_app. split; [exact Hs | repeat constructor; exact Hx].
Qed.

Lemma set_discard_Forall (P : Z -> Prop) (x : Z) (s : list Z) :
  Forall P s -> Forall P (set_discard x s).
Proof.
  intros Hs. unfold set_discard. apply Forall_forall. intros y Hy.
  apply filter_In in Hy. rewrite Forall_forall in Hs. apply Hs, Hy.
Qed.

Lemma insert_ascending_Forall (P : Z -> Prop) (x : Z) (l : list Z) :
  P x -> Forall P l -> Forall P (insert_ascending x l).
Proof.
  intros Hx. induction 1 as [|y l Hy Hl IH]; cbn [insert_ascending].
  - repeat constructor; exact Hx.
  - destruct (x <=? y); repeat constructor; assumption.
Qed.

Lemma sorted_Forall (P : Z -> Prop) (l : list Z) :
  Forall P l -> Forall P (sorted l).
Proof.
  induction 1 as [|y l Hy Hl IH]; cbn; [constructor|].
  apply insert_ascending_Forall; assumption.
Qed.

Lemma add_factors_proper (N : Z) (factors : list Z) :
  Forall (proper_divisor N) factors ->
  forall found found',
    Forall (proper_divisor N) found ->
    add_factors N factors found = Returns found' ->
    Forall (proper_divisor N) found'.
Proof.
  induction 1 as [|f factors Hf Hfs IH]; intros found found' Hfound;
    cbn [add_factors].
  - intros H. inversion H. subst. exact Hfound.
  - unfold py_floordiv. destruct (f =? 0); cbn [bind]; [discriminate|].
    apply IH. apply set_add_Forall; [apply cofactor_proper; exact Hf|].
    apply set_add_Forall; assumption.
Qed.

Lemma analyze_top_found (rt : runtime) (N a : Z) (n_count : nat) (shots : Z)
      (items : list (string * Z)) :
  forall found periods n found' periods',
    Forall (proper_divisor N) found ->
    fst (analyze_top rt N a n_count shots items found periods n)
    = Returns (found', periods') ->
    Forall (proper_divisor N) found'.
Proof.
  induction items as [|[bitstring count] items IH];
    intros found periods n found' periods' Hfound; cbn [analyze_top].
  - cbn. intros H. inversion H. subst. exact Hfound.
  - unfold sbind at 1. unfold lift at 1.
    destruct (int_base2 bitstring) as [measurement| |]; try (cbn; discriminate).
    cbn [fst snd]. unfold sbind at 1. unfold lift at 1.
    destruct (true_div rt count shots) as [ratio| |]; try (cbn; discriminate).
    cbn [fst snd]. unfold sbind at 1. unfold lift at 1.
    destruct (analyze_shor_measurement rt measurement (Z.of_nat n_count) N a)
      as [[r factors]| |] eqn:Han; try (cbn; discriminate).
    cbn [fst snd].
    destruct factors as [[|f fs]|].
    + unfold sbind at 1. unfold report, emit. cbn [fst snd]. apply IH. exact Hfound.
    + unfold sbind at 1. unfold lift at 1.
      destruct (add_factors N (f :: fs) found) as [found1| |] eqn:Hadd;
        try (cbn; discriminate).
      cbn [fst snd]. unfold sbind at 1. unfold report, emit. cbn [fst snd].
      apply IH.
      eapply add_factors_proper; [|exact Hfound|exact Hadd].
      eapply analyze_shor_measurement_proper. exact Han.
    + unfold sbind at 1. unfold report, emit. cbn [fst snd]. apply IH. exact Hfound.
Qed.

Ltac other_line :=
  apply emits_only_emit; intros ? ? Heq; discriminate Heq.

Lemma analyze_top_no_success (rt : runtime) (N a : Z) (n_count : nat) (shots : Z)
      (items : list (string * Z)) :
  forall found periods,
    emits_only (success_line_sound N)
               (analyze_top rt N a n_count shots items found periods).
Proof.
  induction items as [|[bitstring count] items IH]; intros found periods;
    cbn [analyze_top].
  - apply emits_only_ret.
  - apply emits_only_bind; [apply emits_only_lift | intros measurement].
    apply emits_only_bind; [apply emits_only_lift | intros ratio].
    apply emits_only_bind; [apply emits_only_lift | intros [r factors]].
    destruct factors as [[|f fs]|].
    + apply emits_only_bind; [unfold report; other_line | intros _; apply IH].
    + apply emits_only_bind; [apply emits_only_lift | intros found1].
      apply emits_only_bind; [unfold report; other_line | intros _; apply IH].
    + apply emits_only_bind; [unfold report; other_line | intros _; apply IH].
Qed.

Lemma classical_verification_no_success (N a : Z) (exponents : list Z) :
  emits_only (success_line_sound N) (classical_verification N a exponents).
Proof.
  induction exponents as [|i rest IH]; cbn [classical_verification].
  - apply emits_only_ret.
  - apply emits_only_bind; [apply emits_only_lift | intros y].
    destruct (y =? 1); [|exact IH].
    apply emits_only_bind; [unfold report; other_line | intros _].
    destruct (i mod 2 =? 0); [|apply emits_only_ret].
    apply emits_only_bind; [apply emits_only_lift | intros x].
    apply emits_only_bind; [apply emits_only_lift | intros f1].
    apply emits_only_bind; [apply emits_only_lift | intros f2].
    apply emits_only_bind; [unfold report; other_line | intros _].
    unfold report; other_line.
Qed.

(** X6.  Whatever the hardware returned, the factors that the result
    analysis of the Shor script announces are right: a line
    "SUCCESS! Factors of N: [...]" names the [N] of the run and lists only
    divisors of [N] that lie strictly between [1] and [N]. *)
Theorem analyze_results_announces_divisors
        (rt : runtime) (cloud : sdk) (N a : Z) (n_count : nat)
        (counts : list (string * Z)) (job_id backend : string) (qc : circuit)
        (shots : Z) (n : nat) :
  Forall (success_line_sound N)
         (snd (analyze_results rt cloud
                 (Measured N a n_count counts job_id backend qc shots) n)).
Proof.
  revert n. change (emits_only (success_line_sound N)
                      (analyze_results rt cloud
                         (Measured N a n_count counts job_id backend qc shots))).
  unfold analyze_results, report.
  do 9 (apply emits_only_bind; [other_line | intros _]).
  destruct counts as [|c counts]; [other_line|].
  apply emits_only_bind; [other_line | intros _].
  apply emits_only_bind_returns
    with (Q := fun st : list Z * list (Z * Z) => Forall (proper_divisor N) (fst st)).
  - apply analyze_top_no_success.
  - intros n [found periods] Hret. cbn [fst].
    eapply analyze_top_found; [constructor | exact Hret].
  - intros [found periods] Hfound. cbn [fst] in Hfound.
    apply emits_only_bind.
    { destruct (10 <? List.length (c :: counts))%nat;
        [other_line | apply emits_only_ret]. }
    intros _.
    apply emits_only_bind; [other_line | intros _].
    apply emits_only_bind.
    { destruct found as [|f0 found0].
      - do 3 (apply emits_only_bind; [other_line | intros _]). other_line.
      - set (kept := set_discard N (set_discard 1 (f0 :: found0))).
        assert (Hkept : Forall (proper_divisor N) kept)
          by (apply set_discard_Forall, set_discard_Forall; exact Hfound).
        destruct kept as [|k0 kept0].
        + apply emits_only_bind; [other_line | intros _]. other_line.
        + apply sorted_Forall in Hkept.
          apply emits_only_bind.
          * apply emits_only_emit. intros n0 l Heq. inversion Heq. subst.
            split; [reflexivity | exact Hkept].
          * intros _.
            destruct (sorted (k0 :: kept0)) as [|s0 [|s1 rest]];
              [apply emits_only_ret | apply emits_only_ret | other_line]. }
    intros _.
    apply emits_only_bind; [other_line | intros _].
    apply emits_only_bind; [apply classical_verification_no_success | intros _].
    do 5 (apply emits_only_bind; [other_line | intros _]).
    other_line.
Qed.

Lemma classical_verification_miss (N a i : Z) (rest : list Z) (n : nat) :
  2 <= N -> 0 <= i -> a ^ i mod N <> 1 ->
  classical_verification N a (i :: rest) n
  = classical_verification N a rest (n + 0)%nat.
Proof.
  intros HN Hi Hmiss. cbn [classical_verification].
  unfold sbind at 1. unfold lift at 1.
  rewrite modular_exponentiation_spec by lia.
  rewrite (proj2 (Z.eqb_neq _ _) Hmiss).
  cbn [submissions filter List.length app fst snd].
  destruct (classical_verification N a rest (n + 0)%nat); reflexivity.
Qed.

Lemma classical_verification_hit (N a i : Z) (rest : list Z) (n : nat) :
  2 <= N -> 0 <= i -> a ^ i mod N = 1 ->
  exists tail,
    snd (classical_verification N a (i :: rest) n) = period_line N a i :: tail
    /\ forall j, ~ In (period_line N a j) tail.
Proof.
  intros HN Hi Hhit. cbn [classical_verification].
  unfold sbind at 1. unfold lift at 1.
  rewrite modular_exponentiation_spec by lia.
  rewrite (proj2 (Z.eqb_eq _ _) Hhit).
  unfold sbind, report, emit, lift, ret.
  destruct (i mod 2 =? 0);
    [ destruct (modular_exponentiation a (i / 2) N) as [x| |];
      [ destruct (gcd (x - 1) N) as [f1| |];
        [ destruct (gcd (x + 1) N) as [f2| |] | | ] | | ] | ];
    cbn; eexists; (split; [reflexivity|]); intros j Hin;
    repeat (destruct Hin as [Hin|Hin]; [discriminate Hin|]); contradiction.
Qed.

Lemma classical_verification_from (N a i : Z) (HN : 2 <= N) (k : nat) :
  forall (lo : Z) (n : nat),
    0 <= lo ->
    let exponents := map (fun j => lo + Z.of_nat j) (seq 0 k) in
    (In (period_line N a i) (snd (classical_verification N a exponents n)) ->
     lo <= i < lo + Z.of_nat k /\ a ^ i mod N = 1
     /\ forall j, lo <= j < i -> a ^ j mod N <> 1)
    /\ ((exists j, lo <= j < lo + Z.of_nat k /\ a ^ j mod N = 1) ->
        exists i', In (period_line N a i')
                      (snd (classical_verification N a exponents n))).
Proof.
  induction k as [|k IH]; intros lo n Hlo; cbv zeta.
  - cbn. split; [contradiction|]. intros (j & Hj & _). lia.
  - rewrite <- cons_seq, <- seq_shift, map_cons, map_map.
    rewrite Z.add_0_r.
    rewrite (map_ext (fun j => lo + Z.of_nat (S j))
                     (fun j => (lo + 1) + Z.of_nat j)) by (intros; lia).
    destruct (Z.eq_dec (a ^ lo mod N) 1) as [Hhit|Hmiss].
    + destruct (@classical_verification_hit N a lo
                  (map (fun j => lo + 1 + Z.of_nat j) (seq 0 k)) n HN Hlo Hhit)
        as (tail & -> & Htail).
      split.
      * intros [Hin|Hin]; [|exfalso; exact (Htail i Hin)].
        inversion Hin. subst i.
        split; [lia|]. split; [exact Hhit|]. intros j Hj. lia.
      * intros _. exists lo. left. reflexivity.
    + rewrite classical_verification_miss by assumption.
      destruct (IH (lo + 1) (n + 0)%nat ltac:(lia)) as [IH1 IH2].
      split.
      * intros Hin. destruct (IH1 Hin) as (Hi & Hpow & Hleast).
        split; [lia|]. split; [exact Hpow|].
        intros j Hj. destruct (Z.eq_dec j lo) as [->|Hne]; [exact Hmiss|].
        apply Hleast. lia.
      * intros (j & Hj & Hpow). apply IH2.
        exists j. split; [|exact Hpow].
        destruct (Z.eq_dec j lo) as [->|Hne]; [contradiction|]. lia.
Qed.

(** X7.  The classical check at the end of the result analysis finds the
    multiplicative order of [a] modulo [N] when it is below [20]: for
    [N >= 2], a line "Period r = i" is printed only for the least [i] of
    [1 .. 19] with [a^i mod N = 1], and one is printed whenever such an
    exponent exists. *)
Theorem classical_verification_least_period (N a i : Z) (n : nat) :
  2 <= N ->
  (In (period_line N a i) (snd (classical_verification N a (range 1 20) n)) ->
   1 <= i < 20 /\ a ^ i mod N = 1
   /\ forall j, 1 <= j < i -> a ^ j mod N <> 1)
  /\ ((exists j, 1 <= j < 20 /\ a ^ j mod N = 1) ->
      exists i', In (period_line N a i')
                    (snd (classical_verification N a (range 1 20) n))).
Proof.
  intros HN.
  exact (@classical_verification_from N a i HN 19 1 n ltac:(lia)).
Qed.

Lemma classical_verification_least_period_witness :
  (1 <= 4 < 20 /\ 7 ^ 4 mod 15 = 1 /\ forall j, 1 <= j < 4 -> 7 ^ j mod 15 <> 1)
  /\ exists i', In (period_line 15 7 i')
                   (snd (classical_verification 15 7 (range 1 20) 0%nat)).
Proof.
  destruct (@classical_verification_least_period 15 7 4 0%nat ltac:(lia))
    as [Hsound Hcomplete].
  split.
  - apply Hsound. vm_compute. left. reflexivity.
  - apply Hcomplete. exists 4. split; [lia | reflexivity].
Defined.

End ShorAnalysis.

(** ** Reading the counts out of a job result *)

Section ExtractCounts.

(** X8.  The loop that reads the counts out of a job result returns the
    counts of the first attribute that is public and has a non-empty
    dictionary of counts, and the empty dictionary when there is none.  An
    attribute whose access raises is passed over, a private attribute is
    never read, and the loop itself never raises. *)
Theorem extract_counts_first_usable (attrs : list (string * attribute)) :
  extract_counts attrs []
  = match find usable attrs with
    | Some (_, AttrCounts counts) => counts
    | _ => []
    end.
Proof.
  induction attrs as [|[name value] attrs IH]; [reflexivity|].
  cbn [extract_counts find]. unfold usable at 1. cbn [fst snd].
  destruct (starts_with_underscore name); cbn [negb andb]; [exact IH|].
  destruct value as [e| |[|c counts]]; first [exact IH | reflexivity].
Qed.

End ExtractCounts.

(** ** Grover's algorithm as a whole *)

Section GroverSearch.

Local Open Scope R_scope.

Lemma agrees_testbit (n : nat) (target : Z) (b : basis) :
  agrees n target b = true ->
  forall i, (i < n)%nat -> b i = Z.testbit target (Z.of_nat i).
Proof.
  unfold agrees. rewrite forallb_forall. intros H i Hi.
  apply eqb_prop. apply H. apply in_seq. lia.
Qed.

Lemma agrees_inj (n : nat) (t t' : Z) (b : basis) :
  (0 <= t < 2 ^ Z.of_nat n)%Z -> (0 <= t' < 2 ^ Z.of_nat n)%Z ->
  agrees n t b = true -> agrees n t' b = true -> t = t'.
Proof.
  intros Ht Ht' Ha Ha'. apply Z.bits_inj'. intros i Hi.
  rewrite <- (Z2Nat.id i Hi).
  destruct (Nat.lt_ge_cases (Z.to_nat i) n) as [Hlt|Hge].
  - rewrite <- (@agrees_testbit n t b Ha (Z.to_nat i) Hlt),
            <- (@agrees_testbit n t' b Ha' (Z.to_nat i) Hlt).
    reflexivity.
  - rewrite (@testbit_above n t (Z.to_nat i)), (@testbit_above n t' (Z.to_nat i));
      auto.
Qed.

Lemma oracle_phase_marked (n : nat) (targets : list Z) (b : basis) :
  NoDup targets ->
  (forall t, In t targets -> (0 <= t < 2 ^ Z.of_nat n)%Z) ->
  oracle_phase n targets b = sign (marked_by n targets b).
Proof.
  induction 1 as [|t targets Hnotin Hnodup IH]; intros Hrange;
    cbn [oracle_phase marked_by existsb]; [reflexivity|].
  fold (marked_by n targets b).
  rewrite IH by (intros; apply Hrange; right; assumption).
  destruct (agrees n t b) eqn:Ht; cbn [orb].
  - destruct (marked_by n targets b) eqn:Hm; cbn [sign]; [|ring].
    exfalso. apply Hnotin. unfold marked_by in Hm.
    apply existsb_exists in Hm. destruct Hm as (t' & Hin & Ht').
    replace t with t'; [exact Hin|].
    apply (@agrees_inj n t' t b); auto.
    + apply Hrange. right. exact Hin.
    + apply Hrange. left. reflexivity.
  - cbn [sign]. ring.
Qed.

Lemma marked_by_low (n : nat) (targets : list Z) (b b' : basis) :
  (forall i, (i < n)%nat -> b i = b' i) ->
  marked_by n targets b = marked_by n targets b'.
Proof.
  intros H. unfold marked_by. induction targets as [|t targets IH];
    cbn [existsb]; [reflexivity|].
  rewrite IH. f_equal. unfold agrees. apply forallb_ext_in.
  intros i Hi. apply in_seq in Hi. rewrite H by lia. reflexivity.
Qed.

Lemma sum_over_low (n : nat) (psi : amplitudes) :
  (forall b b', (forall i, (i < n)%nat -> b i = b' i) -> psi b = psi b') ->
  forall m, (m <= n)%nat ->
    forall b b', (forall i, (m <= i < n)%nat -> b i = b' i) ->
      sum_over m psi b = sum_over m psi b'.
Proof.
  intros Hlow. induction m as [|m IH]; intros Hm b b' Hb; cbn [sum_over].
  - apply Hlow. intros i Hi. apply Hb. lia.
  - rewrite (IH ltac:(lia) (set_bit m false b) (set_bit m false b')),
            (IH ltac:(lia) (set_bit m true b) (set_bit m true b')).
    + reflexivity.
    + intros i Hi. unfold set_bit. destruct (i =? m)%nat eqn:E; [reflexivity|].
      apply Nat.eqb_neq in E. apply Hb. lia.
    + intros i Hi. unfold set_bit. destruct (i =? m)%nat eqn:E; [reflexivity|].
      apply Nat.eqb_neq in E. apply Hb. lia.
Qed.

Lemma sum_map_const (c : R) (l : list nat) :
  fold_right Rplus 0 (map (fun _ => c) l) = INR (List.length l) * c.
Proof.
  induction l as [|y l IH]; [cbn; ring|].
  cbn [map fold_right]. rewrite IH.
  change (List.length (y :: l)) with (S (List.length l)). rewrite S_INR. ring.
Qed.

Lemma sum_map_plus (f g : nat -> R) (l : list nat) :
  fold_right Rplus 0 (map (fun y => f y + g y) l)
  = fold_right Rplus 0 (map f l) + fold_right Rplus 0 (map g l).
Proof.
  induction l as [|y l IH]; [cbn; ring|].
  cbn [map fold_right]. rewrite IH. ring.
Qed.

Lemma sum_indicator (c : R) (t : Z) (len : nat) :
  forall start,
    (Z.of_nat start <= t < Z.of_nat (start + len))%Z ->
    fold_right Rplus 0
      (map (fun y => if (Z.of_nat y =? t)%Z then c else 0) (seq start len)) = c.
Proof.
  induction len as [|len IH]; intros start Ht; [lia|].
  cbn [seq map fold_right].
  destruct (Z.eqb_spec (Z.of_nat start) t) as [Heq|Hne].
  - assert (Hrest : fold_right Rplus 0
             (map (fun y => if (Z.of_nat y =? t)%Z then c else 0)
                  (seq (S start) len)) = 0).
    { clear IH Ht. generalize (Nat.lt_succ_diag_r start).
      generalize (S start) as s. revert Heq. clear.
      intros Heq s. revert s. induction len as [|len IH]; intros s Hs; [reflexivity|].
      cbn [seq map fold_right].
      destruct (Z.eqb_spec (Z.of_nat s) t); [lia|].
      rewrite IH by lia. ring. }
    rewrite Hrest. ring.
  - rewrite IH by lia. ring.
Qed.

Lemma sum_two_valued_seq (alpha beta : R) (K : nat) (targets : list Z) :
  NoDup targets ->
  (forall t, In t targets -> (0 <= t < Z.of_nat K)%Z) ->
  fold_right Rplus 0
    (map (fun y => if existsb (fun t => (Z.of_nat y =? t)%Z) targets
                   then alpha else beta)
         (seq 0 K))
  = INR (List.length targets) * alpha
    + (INR K - INR (List.length targets)) * beta.
Proof.
  induction 1 as [|t targets Hnotin Hnodup IH]; intros Hrange.
  - cbn [existsb List.length]. rewrite sum_map_const, length_seq. cbn [INR]. ring.
  - rewrite (map_ext_in _
       (fun y => (if existsb (fun t0 => (Z.of_nat y =? t0)%Z) targets
                  then alpha else beta)
                 + (if (Z.of_nat y =? t)%Z then alpha - beta else 0))).
    + rewrite sum_map_plus, IH by (intros; apply Hrange; right; assumption).
      rewrite sum_indicator by (apply Hrange; left; reflexivity).
      change (List.length (t :: targets)) with (S (List.length targets)).
      rewrite S_INR. ring.
    + intros y _. cbn [existsb].
      destruct (Z.eqb_spec (Z.of_nat y) t) as [Heq|Hne]; cbn [orb].
      * destruct (existsb (fun t0 => (Z.of_nat y =? t0)%Z) targets) eqn:Hm;
          [|ring].
        exfalso. apply Hnotin. apply existsb_exists in Hm.
        destruct Hm as (t' & Hin & Ht'). apply Z.eqb_eq in Ht'.
        replace t with t' by lia. exact Hin.
      * ring.
Qed.

Lemma marked_by_basis_of (n : nat) (targets : list Z) (x : Z) :
  (0 <= x < 2 ^ Z.of_nat n)%Z ->
  (forall t, In t targets -> (0 <= t < 2 ^ Z.of_nat n)%Z) ->
  marked_by n targets (basis_of x) = existsb (fun t => (x =? t)%Z) targets.
Proof.
  intros Hx. unfold marked_by.
  induction targets as [|t targets IH]; intros Hrange; cbn [existsb];
    [reflexivity|].
  rewrite IH by (intros; apply Hrange; right; assumption).
  rewrite agrees_basis_of; [reflexivity | exact Hx |].
  apply Hrange. left. reflexivity.
Qed.

Lemma sum_over_two_valued (n : nat) (targets : list Z) (alpha beta : R)
      (b : basis) :
  NoDup targets ->
  (forall t, In t targets -> (0 <= t < 2 ^ Z.of_nat n)%Z) ->
  sum_over n (two_valued n targets alpha beta) b
  = INR (List.length targets) * alpha
    + (2 ^ n - INR (List.length targets)) * beta.
Proof.
  intros Hnodup Hrange.
  rewrite (@sum_over_low n (two_valued n targets alpha beta)) with (b' := basis_of 0).
  - rewrite sum_over_basis_of_zero. unfold sum_basis_states.
    rewrite (map_ext_in _
      (fun y => if existsb (fun t => (Z.of_nat y =? t)%Z) targets
                then alpha else beta)).
    + rewrite sum_two_valued_seq.
      * rewrite pow_INR. reflexivity.
      * exact Hnodup.
      * intros t Ht. rewrite Nat2Z.inj_pow. apply Hrange. exact Ht.
    + intros y Hy. apply in_seq in Hy. unfold two_valued.
      rewrite marked_by_basis_of; [reflexivity | | exact Hrange].
      assert (Hpow : Z.of_nat (2 ^ n) = (2 ^ Z.of_nat n)%Z)
        by (rewrite Nat2Z.inj_pow; reflexivity).
      lia.
  - intros c c' Hc. unfold two_valued. rewrite (@marked_by_low n targets c c' Hc).
    reflexivity.
  - apply Nat.le_refl.
  - intros i Hi. lia.
Qed.

Lemma grover_iteration_amplitudes (n : nat) (targets : list Z)
      (oracle diffuser : circuit) (alpha beta : R) :
  (1 <= n)%nat ->
  NoDup targets ->
  (forall t, In t targets -> (0 <= t < 2 ^ Z.of_nat n)%Z) ->
  (forall psi, apply_gates (gates oracle) psi
               = Some (fun b => oracle_phase n targets b * psi b)) ->
  (forall psi, apply_gates (gates diffuser) psi
               = Some (fun b => - reflect_about_uniform n psi b)) ->
  forall (k iteration : Z) (qc : circuit) (psi0 : amplitudes),
    apply_gates (gates qc) psi0 = Some (two_valued n targets alpha beta) ->
    apply_gates
      (gates (Grover.grover_iteration oracle diffuser k qc iteration))
      psi0
    = Some (two_valued n targets
              (fst (grover_step (INR (List.length targets)) (2 ^ n) (alpha, beta)))
              (snd (grover_step (INR (List.length targets)) (2 ^ n) (alpha, beta)))).
Proof.
  intros Hn Hnodup Hrange Horacle Hdiffuser k iteration qc psi0 Hqc.
  assert (Hbody :
    apply_gates (gates (compose diffuser
                          (add_gate Gbarrier (compose oracle qc)))) psi0
    = Some (two_valued n targets
              (fst (grover_step (INR (List.length targets)) (2 ^ n) (alpha, beta)))
              (snd (grover_step (INR (List.length targets)) (2 ^ n) (alpha, beta))))).
  { assert (Hstate : (fun b0 : basis =>
                        oracle_phase n targets b0 * two_valued n targets alpha beta b0)
                     = two_valued n targets (- alpha) beta).
    { apply functional_extensionality. intros c.
      rewrite oracle_phase_marked by assumption.
      unfold two_valued. destruct (marked_by n targets c); cbn [sign]; ring. }
    unfold compose, add_gate, extend. cbn [gates].
    rewrite !apply_gates_app, Hqc, Horacle.
    rewrite Hstate.
    cbn [apply_gates apply_gate].
    rewrite Hdiffuser.
    f_equal. apply functional_extensionality. intros b.
    unfold reflect_about_uniform.
    rewrite sum_over_two_valued by assumption.
    unfold two_valued, grover_step. cbn [fst snd].
    destruct (marked_by n targets b); field; apply pow_nonzero; lra. }
  unfold Grover.grover_iteration.
  destruct (iteration <? k - 1)%Z; [|exact Hbody].
  unfold add_gate at 1. cbn [gates]. rewrite apply_gates_app, Hbody. reflexivity.
Qed.

Lemma grover_loop_amplitudes (n : nat) (targets : list Z)
      (oracle diffuser : circuit) :
  (1 <= n)%nat ->
  NoDup targets ->
  (forall t, In t targets -> (0 <= t < 2 ^ Z.of_nat n)%Z) ->
  (forall psi, apply_gates (gates oracle) psi
               = Some (fun b => oracle_phase n targets b * psi b)) ->
  (forall psi, apply_gates (gates diffuser) psi
               = Some (fun b => - reflect_about_uniform n psi b)) ->
  forall (k : Z) (iterations : list Z) (qc : circuit) (psi0 : amplitudes)
         (alpha beta : R),
    apply_gates (gates qc) psi0 = Some (two_valued n targets alpha beta) ->
    apply_gates
      (gates (fold_left (Grover.grover_iteration oracle diffuser k)
                        iterations qc))
      psi0
    = Some (two_valued n targets
              (fst (iterate_step (INR (List.length targets)) (2 ^ n)
                                 (List.length iterations) (alpha, beta)))
              (snd (iterate_step (INR (List.length targets)) (2 ^ n)
                                 (List.length iterations) (alpha, beta)))).
Proof.
  intros Hn Hnodup Hrange Horacle Hdiffuser k iterations.
  induction iterations as [|iteration iterations IH]; intros qc psi0 alpha beta Hqc.
  - exact Hqc.
  - cbn [fold_left List.length iterate_step].
    rewrite (IH _ psi0 _ _
               (@grover_iteration_amplitudes n targets oracle diffuser alpha beta
                  Hn Hnodup Hrange Horacle Hdiffuser k iteration qc psi0 Hqc)).
    rewrite <- surjective_pairing. reflexivity.
Qed.

Section Angle.

Variables M N : R.
Hypothesis HM : 0 < M.
Hypothesis HMN : M < N.

Let theta := asin (sqrt (M / N)).

Lemma ratio_bounds : 0 <= M / N <= 1.
Proof.
  split.
  - apply Rlt_le, Rdiv_lt_0_compat; lra.
  - apply Rmult_le_reg_r with N; [lra|]. unfold Rdiv.
    rewrite Rmult_assoc, Rinv_l by lra. lra.
Qed.

Lemma sin_theta : sin theta = sqrt M / sqrt N.
Proof.
  unfold theta. rewrite sin_asin.
  - apply sqrt_div_alt. lra.
  - pose proof ratio_bounds as [H0 H1].
    pose proof (sqrt_pos (M / N)).
    assert (sqrt (M / N) <= sqrt 1) by (apply sqrt_le_1_alt; exact H1).
    rewrite sqrt_1 in *. lra.
Qed.

Lemma cos_theta : cos theta = sqrt (N - M) / sqrt N.
Proof.
  unfold theta. rewrite cos_asin.
  - rewrite <- sqrt_div_alt by lra. f_equal.
    unfold Rsqr. rewrite sqrt_sqrt by apply ratio_bounds. field. lra.
  - pose proof ratio_bounds as [H0 H1].
    pose proof (sqrt_pos (M / N)).
    assert (sqrt (M / N) <= sqrt 1) by (apply sqrt_le_1_alt; exact H1).
    rewrite sqrt_1 in *. lra.
Qed.

Lemma sin_2theta : sin (2 * theta) = 2 * sqrt M * sqrt (N - M) / N.
Proof.
  assert (HrN : 0 < sqrt N) by (apply sqrt_lt_R0; lra).
  assert (HrN2 : sqrt N * sqrt N = N) by (apply sqrt_sqrt; lra).
  rewrite sin_2a, sin_theta, cos_theta.
  set (rM := sqrt M). set (rK := sqrt (N - M)). clearbody rM rK.
  set (rN := sqrt N) in *. clearbody rN.
  rewrite <- HrN2. field. lra.
Qed.

Lemma cos_2theta : cos (2 * theta) = 1 - 2 * M / N.
Proof.
  assert (HrN : 0 < sqrt N) by (apply sqrt_lt_R0; lra).
  assert (HrN2 : sqrt N * sqrt N = N) by (apply sqrt_sqrt; lra).
  assert (HM2 : sqrt M * sqrt M = M) by (apply sqrt_sqrt; lra).
  rewrite cos_2a_sin, sin_theta.
  set (rM := sqrt M) in *. set (rN := sqrt N) in *.
  replace (2 * (rM / rN) * (rM / rN)) with (2 * (rM * rM) / (rN * rN))
    by (field; lra).
  rewrite HM2, HrN2. reflexivity.
Qed.

Lemma grover_step_rotates (s phi : R) :
  grover_step M N (s * sin phi / sqrt M, s * cos phi / sqrt (N - M))
  = (- s * sin (phi + 2 * theta) / sqrt M,
     - s * cos (phi + 2 * theta) / sqrt (N - M)).
Proof.
  assert (HrM : 0 < sqrt M) by (apply sqrt_lt_R0; lra).
  assert (HrK : 0 < sqrt (N - M)) by (apply sqrt_lt_R0; lra).
  assert (HM2 : M = sqrt M * sqrt M) by (rewrite sqrt_sqrt; lra).
  assert (HN2 : N = sqrt M * sqrt M + sqrt (N - M) * sqrt (N - M))
    by (rewrite !sqrt_sqrt; lra).
  rewrite sin_plus, cos_plus, sin_2theta, cos_2theta.
  unfold grover_step. cbn [fst snd].
  set (rM := sqrt M) in *. set (rK := sqrt (N - M)) in *. clearbody rM rK.
  assert (HNpos : 0 < rM * rM + rK * rK) by nra.
  rewrite HN2, HM2.
  f_equal; field; repeat split; lra.
Qed.

Lemma iterate_step_rotates (k : nat) :
  forall s phi,
    iterate_step M N k (s * sin phi / sqrt M, s * cos phi / sqrt (N - M))
    = ((-1) ^ k * s * sin (phi + 2 * INR k * theta) / sqrt M,
       (-1) ^ k * s * cos (phi + 2 * INR k * theta) / sqrt (N - M)).
Proof.
  induction k as [|k IH]; intros s phi.
  - cbn [iterate_step pow INR]. rewrite Rmult_0_r, Rmult_0_l, Rplus_0_r, !Rmult_1_l.
    reflexivity.
  - cbn [iterate_step]. rewrite grover_step_rotates, IH, S_INR.
    replace (phi + 2 * theta + 2 * INR k * theta)
      with (phi + 2 * (INR k + 1) * theta) by ring.
    cbn [pow]. f_equal; f_equal; ring.
Qed.

Lemma uniform_amplitudes :
  (/ sqrt N, / sqrt N)
  = (1 * sin theta / sqrt M, 1 * cos theta / sqrt (N - M)).
Proof.
  assert (HrM : 0 < sqrt M) by (apply sqrt_lt_R0; lra).
  assert (HrK : 0 < sqrt (N - M)) by (apply sqrt_lt_R0; lra).
  assert (HrN : 0 < sqrt N) by (apply sqrt_lt_R0; lra).
  rewrite sin_theta, cos_theta. f_equal; field; split; lra.
Qed.

Lemma grover_amplitudes (k : nat) :
  iterate_step M N k (/ sqrt N, / sqrt N)
  = ((-1) ^ k * sin ((2 * INR k + 1) * theta) / sqrt M,
     (-1) ^ k * cos ((2 * INR k + 1) * theta) / sqrt (N - M)).
Proof.
  rewrite uniform_amplitudes, iterate_step_rotates.
  replace (theta + 2 * INR k * theta) with ((2 * INR k + 1) * theta) by ring.
  f_equal; f_equal; ring.
Qed.

End Angle.

Lemma inv_sqrt2_pow (n : nat) : (/ sqrt 2) ^ n = / sqrt (2 ^ n).
Proof.
  induction n as [|n IH].
  - cbn [pow]. rewrite sqrt_1, Rinv_1. reflexivity.
  - cbn [pow]. rewrite IH.
    rewrite sqrt_mult by (try lra; apply pow_le; lra).
    rewrite Rinv_mult. reflexivity.
Qed.

Lemma hadamards_zero_state (n : nat) :
  hadamards n (zero_state n) = fun _ => / sqrt (2 ^ n).
Proof.
  apply functional_extensionality. intros b.
  rewrite (@hadamards_of_zero_supported n (zero_state n)).
  - unfold zero_state. rewrite all_zero_clear_below, inv_sqrt2_pow. ring.
  - intros c Hc. unfold zero_state. rewrite Hc. reflexivity.
Qed.

Lemma sum_squares_const (alpha : R) (psi : amplitudes) (targets : list Z) :
  (forall t, In t targets -> psi (basis_of t) = alpha) ->
  success_probability targets psi = INR (List.length targets) * alpha ^ 2.
Proof.
  unfold success_probability.
  induction targets as [|t targets IH]; intros H.
  - cbn. ring.
  - cbn [map fold_right]. rewrite IH by (intros; apply H; right; assumption).
    rewrite (H t) by (left; reflexivity).
    change (List.length (t :: targets)) with (S (List.length targets)).
    rewrite S_INR. ring.
Qed.

(** X9.  Grover's circuit does what the result analysis says it does.
    For [n >= 1] qubits, distinct marked states within [0 .. 2^n - 1], at
    least one and not all of them, and [k >= 0] iterations,
    [create_grover_circuit] returns a circuit that ends in the measurement
    of all qubits, and the instructions before it take [|0...0>] to a
    state with amplitude [(-1)^k sin((2k+1) theta) / sqrt M] on every
    marked basis state and [(-1)^k cos((2k+1) theta) / sqrt (N - M)] on
    every other one, where [theta = asin (sqrt (M / N))].  The probability
    of measuring a marked state is therefore the [theoretical_prob] that
    [analyze_results] prints. *)
Theorem grover_success_probability
        (round_quarter_pi_sqrt : Z -> Z -> outcome Z) (n_qubits : nat)
        (marked_states : list Grover.marked_state) (targets : list Z)
        (num_iterations : Z) :
  (1 <= n_qubits)%nat ->
  Grover.marked_ints marked_states = Returns targets ->
  NoDup targets ->
  (forall t, In t targets -> (0 <= t < 2 ^ Z.of_nat n_qubits)%Z) ->
  (0 < List.length targets < 2 ^ n_qubits)%nat ->
  (0 <= num_iterations)%Z ->
  let M := INR (List.length targets) in
  let N := 2 ^ n_qubits in
  let theta := asin (sqrt (M / N)) in
  let k := Z.to_nat num_iterations in
  exists qc body psi,
    Grover.create_grover_circuit round_quarter_pi_sqrt n_qubits marked_states
                                 (Some num_iterations) = Returns qc
    /\ gates qc = body ++ [Gmeasure (seq 0 n_qubits) (seq 0 n_qubits)]
    /\ apply_gates body (zero_state n_qubits) = Some psi
    /\ (forall x, (0 <= x < 2 ^ Z.of_nat n_qubits)%Z ->
                  psi (basis_of x)
                  = if existsb (Z.eqb x) targets
                    then (-1) ^ k * sin ((2 * INR k + 1) * theta) / sqrt M
                    else (-1) ^ k * cos ((2 * INR k + 1) * theta) / sqrt (N - M))
    /\ success_probability targets psi * 100
       = theoretical_prob n_qubits (List.length targets) num_iterations.
Proof.
  intros Hn Hints Hnodup Hrange [HM0 HMN] Hk M N theta k.
  assert (HM : 0 < M) by (apply lt_0_INR; exact HM0).
  assert (HMN' : M < N).
  { unfold M, N.
    replace (2 ^ n_qubits) with (INR (2 ^ n_qubits))
      by (rewrite pow_INR; reflexivity).
    apply lt_INR. exact HMN. }
  unfold Grover.create_grover_circuit. cbn [bind].
  destruct (@apply_oracle n_qubits marked_states targets Hn Hints)
    as (oracle & -> & Horacle).
  destruct (@apply_diffuser n_qubits Hn) as (diffuser & -> & Hdiffuser).
  cbn [bind].
  set (start := add_gate Gbarrier
                  (extend (map Gh (seq 0 n_qubits))
                          (QuantumCircuit n_qubits n_qubits))).
  assert (Hstart : apply_gates (gates start) (zero_state n_qubits)
                   = Some (two_valued n_qubits targets (/ sqrt N) (/ sqrt N))).
  { unfold start, add_gate, extend, QuantumCircuit. cbn [gates app].
    rewrite apply_gates_app, apply_h_layer. cbn [apply_gates apply_gate].
    rewrite hadamards_zero_state. f_equal.
    apply functional_extensionality. intros b. unfold two_valued.
    destruct (marked_by n_qubits targets b); reflexivity. }
  pose proof (@grover_loop_amplitudes n_qubits targets oracle diffuser Hn Hnodup
                Hrange Horacle Hdiffuser num_iterations
                (map Z.of_nat (seq 0 (Z.to_nat num_iterations))) start
                (zero_state n_qubits) (/ sqrt N) (/ sqrt N) Hstart) as Hloop.
  rewrite length_map, length_seq in Hloop.
  fold M N k in Hloop.
  rewrite (@grover_amplitudes M N HM HMN' k) in Hloop. cbn [fst snd] in Hloop.
  fold theta in Hloop.
  set (looped := fold_left _ _ start) in *.
  set (alpha := (-1) ^ k * sin ((2 * INR k + 1) * theta) / sqrt M) in *.
  set (beta := (-1) ^ k * cos ((2 * INR k + 1) * theta) / sqrt (N - M)) in *.
  exists (add_gate (Gmeasure (seq 0 n_qubits) (seq 0 n_qubits))
                   (add_gate Gbarrier looped)),
         (gates looped ++ [Gbarrier]),
         (two_valued n_qubits targets alpha beta).
  assert (Hat : forall x, (0 <= x < 2 ^ Z.of_nat n_qubits)%Z ->
                  two_valued n_qubits targets alpha beta (basis_of x)
                  = if existsb (Z.eqb x) targets then alpha else beta).
  { intros x Hx. unfold two_valued.
    rewrite marked_by_basis_of by assumption. reflexivity. }
  split; [reflexivity|]. split; [reflexivity|]. split; [|split].
  - rewrite apply_gates_app, Hloop. reflexivity.
  - exact Hat.
  - rewrite (@sum_squares_const alpha).
    + unfold theoretical_prob. fold M N theta.
      replace (IZR num_iterations) with (INR k)
        by (unfold k; rewrite INR_IZR_INZ, Z2Nat.id by exact Hk; reflexivity).
      unfold alpha. fold M.
      assert (HrM : 0 < sqrt M) by (apply sqrt_lt_R0; lra).
      assert (HM2 : sqrt M * sqrt M = M) by (apply sqrt_sqrt; lra).
      assert (Hsign : ((-1) ^ k) ^ 2 = 1).
      { rewrite <- pow_mult, Nat.mul_comm, pow_mult.
        replace ((-1) ^ 2) with 1 by ring. apply pow1. }
      set (sn := sin ((2 * INR k + 1) * theta)) in *.
      replace (M * ((-1) ^ k * sn / sqrt M) ^ 2)
        with (((-1) ^ k) ^ 2 * sn ^ 2 * (M / (sqrt M * sqrt M)))
        by (field; lra).
      rewrite Hsign, HM2. field. lra.
    + intros t Ht. rewrite Hat by (apply Hrange; exact Ht).
      assert (Hin : existsb (Z.eqb t) targets = true).
      { apply existsb_exists. exists t. split; [exact Ht | apply Z.eqb_refl]. }
      rewrite Hin. reflexivity.
Qed.

Lemma grover_success_probability_witness :
  exists qc body psi,
    Grover.create_grover_circuit (fun _ _ => Returns 1%Z) 2
                                 [Grover.StateStr "11"] (Some 1%Z) = Returns qc
    /\ gates qc = body ++ [Gmeasure (seq 0 2) (seq 0 2)]
    /\ apply_gates body (zero_state 2) = Some psi
    /\ (forall x, (0 <= x < 2 ^ Z.of_nat 2)%Z ->
                  psi (basis_of x)
                  = if existsb (Z.eqb x) [3%Z]
                    then (-1) ^ 1 * sin ((2 * INR 1 + 1)
                                         * asin (sqrt (INR 1 / 2 ^ 2)))
                         / sqrt (INR 1)
                    else (-1) ^ 1 * cos ((2 * INR 1 + 1)
                                         * asin (sqrt (INR 1 / 2 ^ 2)))
                         / sqrt (2 ^ 2 - INR 1))
    /\ success_probability [3%Z] psi * 100 = theoretical_prob 2 1 1.
Proof.
  apply (@grover_success_probability (fun _ _ => Returns 1%Z) 2%nat
           [Grover.StateStr "11"] [3%Z] 1%Z).
  - lia.
  - reflexivity.
  - constructor; [intros [] | constructor].
  - intros t [<-|[]]. cbn. lia.
  - cbn. lia.
  - lia.
Defined.

(** With two qubits and one marked state, one iteration finds it with
    certainty. *)
Example theoretical_prob_two_qubits : theoretical_prob 2 1 1 = 100.
Proof.
  unfold theoretical_prob. cbv zeta.
  replace (INR 1 / 2 ^ 2) with (1 / 4) by (cbn; field).
  assert (H1 : 0 < 1) by lra. assert (H4 : 1 < 4) by lra.
  replace ((2 * 1 + 1) * asin (sqrt (1 / 4)))
    with (asin (sqrt (1 / 4)) + 2 * asin (sqrt (1 / 4))) by ring.
  rewrite sin_plus, (sin_2theta H1 H4), (cos_2theta H1 H4),
          (sin_theta H1 H4), (cos_theta H1 H4).
  assert (Hs4 : sqrt 4 = 2)
    by (replace 4 with (2 * 2) by ring; apply sqrt_square; lra).
  rewrite sqrt_1, Hs4.
  assert (H3 : sqrt (4 - 1) * sqrt (4 - 1) = 3) by (rewrite sqrt_sqrt; lra).
  set (r3 := sqrt (4 - 1)) in *.
  replace ((1 / 2 * (1 - 2 * 1 / 4) + r3 / 2 * (2 * 1 * r3 / 4)) ^ 2 * 100)
    with ((1 / 4 + (r3 * r3) / 4) ^ 2 * 100) by field.
  rewrite H3. field.
Qed.

Lemma raised_oracle_stays_raised (n : nat) (e : exn) (targets : list Z) :
  fold_left (fun acc target =>
               (oracle <- acc ;;
                marking <- Grover.mark_target n target ;;
                Returns (extend marking oracle))%outcome)
            targets (Raises e)
  = Raises e.
Proof.
  induction targets as [|target rest IH]; [reflexivity|].
  cbn [fold_left bind]. exact IH.
Qed.

(** Without qubits [create_oracle] fails on its first marked state. *)
Lemma create_oracle_without_qubits (marked_states : list Grover.marked_state)
      (target : Z) (rest : list Z) :
  Grover.marked_ints marked_states = Returns (target :: rest) ->
  Grover.create_oracle 0 marked_states
  = Raises (SdkError "Index -1 out of range for size 0.").
Proof.
  intros Hints. unfold Grover.create_oracle. rewrite Hints.
  cbn [bind fold_left].
  exact (raised_oracle_stays_raised
           0 (SdkError "Index -1 out of range for size 0.") rest).
Qed.

(** X10.  Edge cases of [create_grover_circuit].  With no marked state and
    no iteration count given, it raises [ZeroDivisionError] (from
    [N / num_marked] in [optimal_iterations]) before any circuit is built.
    The default iteration count, when there is one, is at least [1].  On
    at least one qubit and with an iteration count of zero or less the
    loop body never runs: the circuit is the Hadamard layer, two barriers
    and the measurement, without oracle or diffuser.  Without qubits the
    function never returns a circuit: given an iteration count, the
    multi-controlled [Z] of the oracle or of the diffuser addresses qubit
    [-1] and the SDK refuses it. *)
Theorem create_grover_circuit_edges
        (round_quarter_pi_sqrt : Z -> Z -> outcome Z) (n_qubits : nat) :
  Grover.create_grover_circuit round_quarter_pi_sqrt n_qubits [] None
  = Raises ZeroDivisionError
  /\ (forall num_marked k,
         Grover.optimal_iterations round_quarter_pi_sqrt n_qubits num_marked
         = Returns k -> (1 <= k)%Z)
  /\ (forall marked_states targets num_iterations,
         (1 <= n_qubits)%nat ->
         Grover.marked_ints marked_states = Returns targets ->
         (num_iterations <= 0)%Z ->
         Grover.create_grover_circuit round_quarter_pi_sqrt n_qubits
                                      marked_states (Some num_iterations)
         = Returns {| num_qubits := n_qubits; num_clbits := n_qubits;
                      gates := map Gh (seq 0 n_qubits)
                               ++ [Gbarrier; Gbarrier;
                                   Gmeasure (seq 0 n_qubits) (seq 0 n_qubits)] |})
  /\ (forall marked_states targets num_iterations,
         Grover.marked_ints marked_states = Returns targets ->
         Grover.create_grover_circuit round_quarter_pi_sqrt 0
                                      marked_states (Some num_iterations)
         = Raises (SdkError "Index -1 out of range for size 0.")).
Proof.
  split; [reflexivity|]. split; [|split].
  - intros num_marked k. unfold Grover.optimal_iterations.
    destruct (num_marked =? 0)%Z; [discriminate|].
    destruct (round_quarter_pi_sqrt _ num_marked) as [rounded| |]; cbn [bind];
      try discriminate.
    intros H. inversion H. lia.
  - intros marked_states targets num_iterations Hn Hints Hk.
    unfold Grover.create_grover_circuit. cbn [bind].
    destruct (@apply_oracle n_qubits marked_states targets Hn Hints)
      as (oracle & -> & _).
    destruct (@apply_diffuser n_qubits Hn) as (diffuser & -> & _).
    cbn [bind].
    replace (Z.to_nat num_iterations) with 0%nat by lia.
    cbn [seq map fold_left]. unfold add_gate, extend, QuantumCircuit.
    cbn [gates num_qubits num_clbits app]. rewrite <- !app_assoc. reflexivity.
  - intros marked_states targets num_iterations Hints.
    unfold Grover.create_grover_circuit. cbn [bind].
    destruct targets as [|target rest].
    + unfold Grover.create_oracle. rewrite Hints. reflexivity.
    + rewrite (create_oracle_without_qubits marked_states Hints). reflexivity.
Qed.

Lemma create_grover_circuit_edges_witness :
  Grover.create_grover_circuit (fun _ _ => Returns 1%Z) 2
                               [Grover.StateStr "11"] (Some 0%Z)
  = Returns {| num_qubits := 2; num_clbits := 2;
               gates := map Gh (seq 0 2)
                        ++ [Gbarrier; Gbarrier;
                            Gmeasure (seq 0 2) (seq 0 2)] |}
  /\ Grover.create_grover_circuit (fun _ _ => Returns 1%Z) 0
                                  [Grover.StateStr "11"] (Some 1%Z)
     = Raises (SdkError "Index -1 out of range for size 0.").
Proof.
  split.
  - apply (proj1 (proj2 (proj2 (create_grover_circuit_edges
                                  (fun _ _ => Returns 1%Z) 2)))
             [Grover.StateStr "11"] [3%Z] 0%Z).
    + lia.
    + reflexivity.
    + lia.
  - apply (proj2 (proj2 (proj2 (create_grover_circuit_edges
                                  (fun _ _ => Returns 1%Z) 2)))
             [Grover.StateStr "11"] [3%Z] 1%Z).
    reflexivity.
Defined.

End GroverSearch.

(** ** The Deutsch algorithm *)

Section DeutschAlgorithm.

Local Open Scope R_scope.
Import Deutsch.

Lemma deutsch_amplitudes (oracle : list gate) :
  In oracle [[]; [Gx 1]; [Gcx 0 1]; [Gcx 0 1; Gx 1]] ->
  exists psi,
    apply_gates ([Gx 1; Gbarrier; Gh 0; Gh 1; Gbarrier] ++ oracle
                 ++ [Gbarrier; Gh 0; Gbarrier]) (zero_state 2) = Some psi
    /\ forall b,
        psi b * psi b
        = if Bool.eqb (b 0%nat) (match oracle with
                                 | Gcx _ _ :: _ => true
                                 | _ => false
                                 end)
          then / 2 else 0.
Proof.
  pose proof inv_sqrt2_squared as Hr.
  set (r := / sqrt 2) in *.
  assert (H2 : r ^ 2 = / 2) by (rewrite <- Hr; ring).
  assert (H4 : r ^ 4 = / 4)
    by (replace (r ^ 4) with (r ^ 2 * r ^ 2) by ring; rewrite H2; field).
  assert (H6 : r ^ 6 = / 8)
    by (replace (r ^ 6) with (r ^ 2 * r ^ 4) by ring; rewrite H2, H4; field).
  intros [<-|[<-|[<-|[<-|[]]]]]; eexists; (split; [reflexivity|]); intros b;
    unfold hadamard, zero_state, all_zero, flip_bit, set_bit;
    cbn [forallb seq Nat.eqb negb andb];
    destruct (b 0%nat), (b 1%nat); cbn [negb andb sign Bool.eqb];
    change (/ sqrt 2) with r; clearbody r; ring_simplify; lra.
Qed.

(** X11.  The Deutsch circuit decides what the result analysis expects.
    For each of the four oracle types [create_deutsch_circuit] returns a
    circuit that ends in the measurement of qubit [0], and the
    instructions before it take [|00>] to a state in which qubit [0] is
    the [expected_measurement] of [analyze_results] with certainty: [0]
    for the constant oracles, [1] for the balanced ones (each value of
    qubit [1] has probability one half).  For any other oracle type the
    function raises [ValueError]. *)
Theorem deutsch_circuit_decides (oracle_type : string) :
  match create_deutsch_circuit oracle_type with
  | Returns qc =>
      In oracle_type ["constant_0"; "constant_1"; "balanced_identity";
                      "balanced_negation"]%string
      /\ exists body psi,
          gates qc = body ++ [Gmeasure [0%nat] [0%nat]]
          /\ apply_gates body (zero_state 2) = Some psi
          /\ forall b,
              psi b * psi b
              = if Bool.eqb (b 0%nat) (expected_measurement oracle_type)
                then / 2 else 0
  | Raises e =>
      ~ In oracle_type ["constant_0"; "constant_1"; "balanced_identity";
                        "balanced_negation"]%string
      /\ e = ValueError ("Unknown oracle type: " ++ oracle_type)
  | OutOfFuel => False
  end.
Proof.
  unfold create_deutsch_circuit, create_oracle.
  destruct (String.eqb_spec oracle_type "constant_0") as [->|N0].
  { cbn [bind]. split; [cbn; auto|].
    destruct (@deutsch_amplitudes []) as (psi & Hpsi & Hsq); [cbn; auto|].
    eexists; exists psi. split; [reflexivity|]. split; [exact Hpsi | exact Hsq]. }
  destruct (String.eqb_spec oracle_type "constant_1") as [->|N1].
  { cbn [bind]. split; [cbn; auto|].
    destruct (@deutsch_amplitudes [Gx 1]) as (psi & Hpsi & Hsq); [cbn; auto|].
    eexists; exists psi. split; [reflexivity|]. split; [exact Hpsi | exact Hsq]. }
  destruct (String.eqb_spec oracle_type "balanced_identity") as [->|N2].
  { cbn [bind]. split; [cbn; auto|].
    destruct (@deutsch_amplitudes [Gcx 0 1]) as (psi & Hpsi & Hsq); [cbn; auto|].
    eexists; exists psi. split; [reflexivity|]. split; [exact Hpsi | exact Hsq]. }
  destruct (String.eqb_spec oracle_type "balanced_negation") as [->|N3].
  { cbn [bind]. split; [cbn; auto|].
    destruct (@deutsch_amplitudes [Gcx 0 1; Gx 1]) as (psi & Hpsi & Hsq);
      [cbn; auto|].
    eexists; exists psi. split; [reflexivity|]. split; [exact Hpsi | exact Hsq]. }
  cbn [bind]. split; [|reflexivity].
  intros [H|[H|[H|[H|[]]]]]; congruence.
Qed.

End DeutschAlgorithm.

(** ** Sifting the keys of BB84 *)

Section BB84Sifting.

Import BB84.
Local Open Scope Z_scope.

Lemma getitem_nth (l : list Z) (i : nat) :
  (i < List.length l)%nat -> getitem l i = Returns (nth i l 0).
Proof.
  intros Hi. unfold getitem.
  destruct (nth_error l i) as [v|] eqn:E.
  - rewrite (nth_error_nth _ _ 0 E). reflexivity.
  - apply nth_error_None in E. lia.
Qed.

Lemma getitem_past (l : list Z) (i : nat) :
  (List.length l <= i)%nat -> getitem l i = Raises IndexError.
Proof.
  intros Hi. unfold getitem.
  rewrite (proj2 (nth_error_None l i) Hi). reflexivity.
Qed.

Lemma remove_garbage_from_returns (a_bases b_bases bits : list Z) :
  forall i,
    (i + List.length bits <= List.length a_bases)%nat ->
    (i + List.length bits <= List.length b_bases)%nat ->
    remove_garbage_from i a_bases b_bases bits
    = Returns (map (fun j => nth (j - i) bits 0)
                   (filter (fun j => nth j a_bases 0 =? nth j b_bases 0)
                           (seq i (List.length bits)))).
Proof.
  induction bits as [|bit rest IH]; intros i Ha Hb; [reflexivity|].
  cbn [List.length] in Ha, Hb.
  cbn [remove_garbage_from List.length seq filter].
  rewrite !getitem_nth by lia. cbn [bind].
  rewrite IH by lia. cbn [bind].
  assert (Hrest : map (fun j => nth (j - S i) rest 0)
                      (filter (fun j => nth j a_bases 0 =? nth j b_bases 0)
                              (seq (S i) (List.length rest)))
                  = map (fun j => nth (j - i) (bit :: rest) 0)
                        (filter (fun j => nth j a_bases 0 =? nth j b_bases 0)
                                (seq (S i) (List.length rest)))).
  { apply map_ext_in. intros j Hj. apply filter_In in Hj. destruct Hj as [Hj _].
    apply in_seq in Hj. replace (j - i)%nat with (S (j - S i)) by lia.
    reflexivity. }
  rewrite Hrest.
  destruct (nth i a_bases 0 =? nth i b_bases 0); [|reflexivity].
  cbn [map]. rewrite Nat.sub_diag. reflexivity.
Qed.

Lemma remove_garbage_from_raises (a_bases b_bases bits : list Z) :
  forall i,
    (i <= List.length a_bases)%nat -> (i <= List.length b_bases)%nat ->
    (List.length a_bases < i + List.length bits
     \/ List.length b_bases < i + List.length bits)%nat ->
    remove_garbage_from i a_bases b_bases bits = Raises IndexError.
Proof.
  induction bits as [|bit rest IH]; intros i Hia Hib Hshort.
  - cbn [List.length] in Hshort. lia.
  - cbn [List.length] in Hshort. cbn [remove_garbage_from].
    destruct (Nat.le_gt_cases (List.length a_bases) i) as [Ha|Ha].
    { rewrite getitem_past by exact Ha. reflexivity. }
    rewrite getitem_nth by exact Ha. cbn [bind].
    destruct (Nat.le_gt_cases (List.length b_bases) i) as [Hb|Hb].
    { rewrite getitem_past by exact Hb. reflexivity. }
    rewrite getitem_nth by exact Hb. cbn [bind].
    rewrite IH by lia. reflexivity.
Qed.

(** X12.  [remove_garbage] keeps, in order, the bits at the positions
    where the two lists of bases agree, when both lists of bases are at
    least as long as the list of bits; when one of them is shorter it
    raises [IndexError], also if all the positions it has agree. *)
Theorem remove_garbage_sifts (a_bases b_bases bits : list Z) :
  if ((List.length bits <=? List.length a_bases)
      && (List.length bits <=? List.length b_bases))%nat
  then remove_garbage a_bases b_bases bits
       = Returns (map (fun i => nth i bits 0)
                      (matching_bases a_bases b_bases (List.length bits)))
  else remove_garbage a_bases b_bases bits = Raises IndexError.
Proof.
  unfold remove_garbage, matching_bases.
  destruct (Nat.leb_spec (List.length bits) (List.length a_bases)) as [Ha|Ha];
    [destruct (Nat.leb_spec (List.length bits) (List.length b_bases)) as [Hb|Hb]|];
    cbn [andb].
  - rewrite remove_garbage_from_returns by lia.
    rewrite (map_ext (fun j => nth (j - 0) bits 0) (fun i => nth i bits 0))
      by (intros; rewrite Nat.sub_0_r; reflexivity).
    reflexivity.
  - apply remove_garbage_from_raises; lia.
  - apply remove_garbage_from_raises; lia.
Qed.

Lemma count_errors_map (f g : nat -> Z) (l : list nat) :
  count_errors (map f l) (map g l)
  = Z.of_nat (List.length (filter (fun i => negb (f i =? g i)) l)).
Proof.
  induction l as [|i l IH]; [reflexivity|].
  cbn [map filter]. rewrite count_errors_cons, IH.
  destruct (f i =? g i); cbn [negb List.length]; lia.
Qed.

Lemma calculate_qber_map (f g : nat -> Z) (k0 : nat) (l0 : list nat) :
  calculate_qber (map f (k0 :: l0)) (map g (k0 :: l0))
  = Returns (Qred (inject_Z (Z.of_nat (List.length
                                         (filter (fun i => negb (f i =? g i))
                                                 (k0 :: l0))))
                   / inject_Z (Z.of_nat (List.length (k0 :: l0))))).
Proof.
  unfold calculate_qber. cbn [map].
  change (f k0 :: map f l0) with (map f (k0 :: l0)).
  change (g k0 :: map g l0) with (map g (k0 :: l0)).
  rewrite count_errors_map, length_map.
  unfold exact_true_div.
  rewrite (proj2 (Z.eqb_neq _ 0)) by (cbn [List.length]; lia).
  reflexivity.
Qed.

(** X13.  Sifting composed with the error rate.  For Alice's bits and
    Bob's results of the same length, not longer than the two lists of
    bases, the two sifted keys have the same length (the number of
    positions where the bases agree), and [calculate_qber] of them is the
    number of those positions where the bits differ, divided by the number
    of those positions; it is [0] when the bases agree nowhere. *)
Theorem sifted_qber (alice_bases bob_bases alice_bits bob_bits : list Z) :
  List.length bob_bits = List.length alice_bits ->
  (List.length alice_bits <= List.length alice_bases)%nat ->
  (List.length alice_bits <= List.length bob_bases)%nat ->
  let kept := matching_bases alice_bases bob_bases (List.length alice_bits) in
  let wrong :=
    filter (fun i => negb (nth i alice_bits 0 =? nth i bob_bits 0)) kept in
  exists alice_key bob_key q,
    remove_garbage alice_bases bob_bases alice_bits = Returns alice_key
    /\ remove_garbage alice_bases bob_bases bob_bits = Returns bob_key
    /\ List.length alice_key = List.length kept
    /\ List.length bob_key = List.length kept
    /\ calculate_qber alice_key bob_key = Returns q
    /\ match kept with
       | [] => q = 0%Q
       | _ :: _ =>
           (q == inject_Z (Z.of_nat (List.length wrong))
                 / inject_Z (Z.of_nat (List.length kept)))%Q
       end.
Proof.
  intros Hlen Ha Hb kept wrong.
  pose proof (remove_garbage_sifts alice_bases bob_bases alice_bits) as HA.
  pose proof (remove_garbage_sifts alice_bases bob_bases bob_bits) as HB.
  rewrite Hlen in HB.
  rewrite (proj2 (Nat.leb_le _ _) Ha), (proj2 (Nat.leb_le _ _) Hb) in HA, HB.
  cbn [andb] in HA, HB. fold kept in HA, HB.
  exists (map (fun i => nth i alice_bits 0) kept),
         (map (fun i => nth i bob_bits 0) kept).
  destruct kept as [|k0 kept0] eqn:Hkept.
  - exists 0%Q. cbn [map]. repeat split; assumption.
  - eexists. split; [exact HA|]. split; [exact HB|].
    rewrite !length_map. split; [reflexivity|]. split; [reflexivity|].
    split; [apply calculate_qber_map|].
    rewrite Qred_correct. reflexivity.
Qed.

Lemma sifted_qber_witness :
  exists alice_key bob_key q,
    remove_garbage [0; 1; 1; 0] [0; 0; 1; 1] [1; 0; 1; 1] = Returns alice_key
    /\ remove_garbage [0; 1; 1; 0] [0; 0; 1; 1] [1; 1; 0; 1] = Returns bob_key
    /\ List.length alice_key = 2%nat
    /\ List.length bob_key = 2%nat
    /\ calculate_qber alice_key bob_key = Returns q
    /\ (q == inject_Z 1 / inject_Z 2)%Q.
Proof.
  apply (@sifted_qber [0; 1; 1; 0] [0; 0; 1; 1] [1; 0; 1; 1] [1; 1; 0; 1]).
  - reflexivity.
  - cbn. lia.
  - cbn. lia.
Defined.

End BB84Sifting.

(** ** An eavesdropper who guesses every basis *)

Section BB84Eve.

Import BB84.
Local Open Scope Z_scope.

Lemma map_nth_seq_from (bits : list Z) :
  forall start (prefix : list Z),
    List.length prefix = start ->
    map (fun i => nth i (prefix ++ bits) 0) (seq start (List.length bits)) = bits.
Proof.
  induction bits as [|bit rest IH]; intros start prefix Hstart; [reflexivity|].
  cbn [List.length seq map].
  rewrite app_nth2 by lia. rewrite Hstart, Nat.sub_diag. cbn [nth]. f_equal.
  specialize (IH (S start) (prefix ++ [bit])).
  rewrite <- app_assoc in IH. apply IH.
  rewrite length_app. cbn [List.length]. lia.
Qed.

Lemma getitem_cases (l : list Z) (i : nat) :
  (exists v, getitem l i = Returns v) \/ getitem l i = Raises IndexError.
Proof.
  unfold getitem. destruct (nth_error l i) as [v|]; [left; exists v|right];
    reflexivity.
Qed.

Lemma eve_measures_alices_bits (randint : nat -> Z)
      (alice_bits alice_bases eve_bases : list Z) (indices : list nat) :
  (forall i, In i indices ->
             (i < List.length alice_bits)%nat
             /\ (i < List.length alice_bases)%nat
             /\ nth_error eve_bases i = nth_error alice_bases i) ->
  forall drawn,
    eve_measures randint drawn alice_bits alice_bases eve_bases indices
    = Returns (map (fun i => nth i alice_bits 0) indices).
Proof.
  induction indices as [|i rest IH]; intros Hok drawn; [reflexivity|].
  destruct (Hok i (or_introl eq_refl)) as (Hbit & Hbase & Heve).
  cbn [eve_measures map].
  assert (Hget : getitem eve_bases i = getitem alice_bases i)
    by (unfold getitem; rewrite Heve; reflexivity).
  rewrite Hget, (getitem_nth alice_bases Hbase). cbn [bind].
  rewrite Z.eqb_refl, (getitem_nth alice_bits Hbit). cbn [bind].
  rewrite IH by (intros j Hj; apply Hok; right; exact Hj).
  reflexivity.
Qed.

Lemma eve_resends_as_alice (alice_bits alice_bases eve_bases : list Z)
      (indices : list nat) :
  (forall i, In i indices -> nth_error eve_bases i = nth_error alice_bases i) ->
  eve_resends alice_bits eve_bases indices
  = alice_prepares alice_bits alice_bases indices.
Proof.
  induction indices as [|i rest IH]; intros Hok; [reflexivity|].
  cbn [eve_resends alice_prepares].
  rewrite IH by (intros j Hj; apply Hok; right; exact Hj).
  assert (Hget : getitem eve_bases i = getitem alice_bases i)
    by (unfold getitem; rewrite (Hok i (or_introl eq_refl)); reflexivity).
  rewrite Hget.
  destruct (getitem_cases alice_bits i) as [[bit ->]| ->],
           (getitem_cases alice_bases i) as [[basis ->]| ->]; reflexivity.
Qed.

(** X14.  An eavesdropper who measures every qubit in Alice's basis cannot
    be detected.  When Eve's bases agree with Alice's at every position,
    [create_bb84_circuit_with_eve] draws no random number, gives Eve
    exactly Alice's bits, and builds the very circuit that the run
    without Eve builds (it also fails exactly when that one fails). *)
Theorem eve_in_alices_bases_is_transparent
        (randint : nat -> Z) (alice_bits alice_bases eve_bases bob_bases : list Z) :
  (List.length alice_bits <= List.length alice_bases)%nat ->
  (forall i, (i < List.length alice_bits)%nat ->
             nth_error eve_bases i = nth_error alice_bases i) ->
  create_bb84_circuit_with_eve randint alice_bits alice_bases eve_bases bob_bases
  = (qc <- standard_circuit (List.length alice_bits) alice_bits alice_bases
                            bob_bases ;;
     Returns (qc, alice_bits))%outcome.
Proof.
  intros Hlen Heve.
  unfold create_bb84_circuit_with_eve, standard_circuit.
  rewrite eve_measures_alices_bits.
  - pose proof (@map_nth_seq_from alice_bits 0%nat [] eq_refl) as Hbits.
    cbn [app] in Hbits. rewrite Hbits. cbn [bind].
    rewrite (@eve_resends_as_alice alice_bits alice_bases eve_bases).
    + destruct (alice_prepares alice_bits alice_bases
                  (seq 0 (List.length alice_bits))) as [prepared| |];
        cbn [bind]; try reflexivity.
      destruct (bob_measures bob_bases (seq 0 (List.length alice_bits)))
        as [measured| |]; reflexivity.
    + intros i Hi. apply in_seq in Hi. apply Heve. lia.
  - intros i Hi. apply in_seq in Hi. split; [lia|]. split; [lia|].
    apply Heve. lia.
Qed.

Lemma eve_in_alices_bases_is_transparent_witness :
  create_bb84_circuit_with_eve (fun _ => 1) [1; 0; 1] [0; 1; 1] [0; 1; 1; 0]
                               [1; 1; 0]
  = (qc <- standard_circuit 3 [1; 0; 1] [0; 1; 1] [1; 1; 0] ;;
     Returns (qc, [1; 0; 1]))%outcome.
Proof.
  apply (@eve_in_alices_bases_is_transparent (fun _ => 1) [1; 0; 1] [0; 1; 1]
           [0; 1; 1; 0] [1; 1; 0]).
  - cbn. lia.
  - intros [|[|[|i]]] Hi; try reflexivity. cbn in Hi. lia.
Defined.

End BB84Eve.

(** ** Circuits of single-qubit gates on product states *)

Section ProductStates.

Local Open Scope R_scope.

Lemma product_state_ext (n : nat) (fs gs : nat -> bool -> R) (b : basis) :
  (forall i, (i < n)%nat -> fs i (b i) = gs i (b i)) ->
  product_state n fs b = product_state n gs b.
Proof.
  induction n as [|n IH]; intros H; [reflexivity|].
  cbn [product_state]. rewrite IH by (intros; apply H; lia).
  rewrite H by lia. reflexivity.
Qed.

Lemma product_state_set_bit_above (n q : nat) (v : bool)
      (fs : nat -> bool -> R) (b : basis) :
  (n <= q)%nat -> product_state n fs (set_bit q v b) = product_state n fs b.
Proof.
  induction n as [|n IH]; intros Hq; [reflexivity|].
  cbn [product_state]. rewrite IH by lia.
  rewrite set_bit_other by lia. reflexivity.
Qed.

(** Setting qubit [q] of the argument replaces the factor of qubit [q]. *)
Lemma product_state_set_bit (n q : nat) (v : bool)
      (fs : nat -> bool -> R) (b : basis) :
  (q < n)%nat ->
  product_state n fs (set_bit q v b)
  = product_state n (fun i => if (i =? q)%nat then fun _ => fs q v else fs i) b.
Proof.
  induction n as [|n IH]; intros Hq; [lia|].
  cbn [product_state].
  destruct (Nat.eq_dec q n) as [->|Hne].
  - rewrite product_state_set_bit_above by lia.
    rewrite set_bit_same, Nat.eqb_refl.
    f_equal. apply product_state_ext. intros i Hi.
    rewrite (proj2 (Nat.eqb_neq i n)) by lia. reflexivity.
  - rewrite IH by lia. rewrite set_bit_other by lia.
    rewrite (proj2 (Nat.eqb_neq n q)) by lia. reflexivity.
Qed.

(** A product state is linear in each factor. *)
Lemma product_state_linear (n q : nat) (alpha beta : R)
      (f g : bool -> R) (fs : nat -> bool -> R) (b : basis) :
  (q < n)%nat ->
  product_state n (fun i => if (i =? q)%nat
                            then fun v => alpha * f v + beta * g v
                            else fs i) b
  = alpha * product_state n (fun i => if (i =? q)%nat then f else fs i) b
    + beta * product_state n (fun i => if (i =? q)%nat then g else fs i) b.
Proof.
  induction n as [|n IH]; intros Hq; [lia|].
  cbn [product_state].
  destruct (Nat.eq_dec q n) as [->|Hne].
  - rewrite Nat.eqb_refl.
    rewrite (@product_state_ext n _ fs), (@product_state_ext n (fun i => if (i =? n)%nat then f else fs i) fs),
            (@product_state_ext n (fun i => if (i =? n)%nat then g else fs i) fs).
    + ring.
    + intros i Hi. rewrite (proj2 (Nat.eqb_neq i n)) by lia. reflexivity.
    + intros i Hi. rewrite (proj2 (Nat.eqb_neq i n)) by lia. reflexivity.
    + intros i Hi. rewrite (proj2 (Nat.eqb_neq i n)) by lia. reflexivity.
  - rewrite IH by lia. rewrite (proj2 (Nat.eqb_neq n q)) by lia. ring.
Qed.

Lemma apply_single_qubit (n : nat) (g : gate) (fs : nat -> bool -> R) :
  single_qubit n g = true ->
  apply_gate g (product_state n fs)
  = Some (product_state n (fun i => on_qubit i (fs i) g)).
Proof.
  destruct g; cbn [single_qubit]; try discriminate; intros Hq.
  - (* h *)
    apply Nat.ltb_lt in Hq. cbn [apply_gate on_qubit]. f_equal.
    apply functional_extensionality. intros b. unfold hadamard.
    rewrite !product_state_set_bit by exact Hq.
    rewrite (@product_state_ext n
               (fun i => if (q =? i)%nat
                         then fun v => / sqrt 2 * (fs i false + sign v * fs i true)
                         else fs i)
               (fun i => if (i =? q)%nat
                         then fun v => / sqrt 2 * (fs q false)
                                       + (/ sqrt 2 * sign (b q)) * (fs q true)
                         else fs i)).
    + rewrite product_state_linear by exact Hq. ring.
    + intros i Hi. rewrite (Nat.eqb_sym q i).
      destruct (Nat.eqb_spec i q) as [->|]; [ring | reflexivity].
  - (* x *)
    apply Nat.ltb_lt in Hq. cbn [apply_gate on_qubit]. f_equal.
    apply functional_extensionality. intros b. unfold flip_bit.
    rewrite product_state_set_bit by exact Hq.
    apply product_state_ext. intros i Hi. rewrite (Nat.eqb_sym q i).
    destruct (Nat.eqb_spec i q) as [->|]; reflexivity.
  - (* barrier *)
    reflexivity.
Qed.

Lemma apply_single_qubits (n : nat) (gs : list gate) :
  forallb (single_qubit n) gs = true ->
  forall fs,
    apply_gates gs (product_state n fs)
    = Some (product_state n (fun i => fold_left (on_qubit i) gs (fs i))).
Proof.
  induction gs as [|g gs IH]; intros Hgs fs; [reflexivity|].
  cbn [forallb] in Hgs. apply andb_prop in Hgs. destruct Hgs as [Hg Hgs].
  cbn [apply_gates fold_left]. rewrite apply_single_qubit by exact Hg.
  apply IH. exact Hgs.
Qed.

Lemma zero_state_product (n : nat) :
  zero_state n = product_state n (fun _ => ket_zero).
Proof.
  apply functional_extensionality. intros b. unfold zero_state.
  induction n as [|n IH]; [reflexivity|].
  cbn [product_state]. rewrite <- IH, all_zero_S.
  unfold ket_zero. destruct (all_zero n b), (b n); cbn [andb negb]; ring.
Qed.

(** A factor that vanishes makes the product vanish. *)
Lemma product_state_zero (n i : nat) (fs : nat -> bool -> R) (b : basis) :
  (i < n)%nat -> fs i (b i) = 0 -> product_state n fs b = 0.
Proof.
  induction n as [|n IH]; intros Hi Hz; [lia|].
  cbn [product_state].
  destruct (Nat.eq_dec i n) as [->|Hne].
  - rewrite Hz. ring.
  - rewrite IH by (assumption || lia). ring.
Qed.

End ProductStates.

(** ** What Bob measures in BB84 *)

Section BB84Channel.

Import BB84.
Local Open Scope Z_scope.

Lemma fold_on_qubit_other (i j : nat) (gs : list gate) (f : bool -> R) :
  j <> i -> Forall (touches_only j) gs -> fold_left (on_qubit i) gs f = f.
Proof.
  intros Hne Hgs. revert f. induction Hgs as [|g gs Hg _ IH]; intros f;
    [reflexivity|].
  cbn [fold_left]. rewrite <- (IH f) at 2. f_equal.
  destruct g; cbn [touches_only] in Hg; try contradiction; cbn [on_qubit];
    try reflexivity; subst; rewrite (proj2 (Nat.eqb_neq j i) Hne); reflexivity.
Qed.

Lemma fold_on_qubit_flat_map (F : nat -> list gate) (i : nat) :
  (forall j, Forall (touches_only j) (F j)) ->
  forall indices f,
    NoDup indices ->
    fold_left (on_qubit i) (flat_map F indices) f
    = if in_dec Nat.eq_dec i indices then fold_left (on_qubit i) (F i) f else f.
Proof.
  intros HF. induction indices as [|j rest IH]; intros f Hnodup; [reflexivity|].
  inversion Hnodup as [|? ? Hnotin Hrest]; subst.
  cbn [flat_map]. rewrite fold_left_app.
  destruct (Nat.eq_dec j i) as [->|Hne].
  - rewrite IH by exact Hrest.
    destruct (in_dec Nat.eq_dec i rest) as [Hin|_]; [contradiction|].
    destruct (in_dec Nat.eq_dec i (i :: rest)) as [_|Hout]; [reflexivity|].
    exfalso. apply Hout. left. reflexivity.
  - rewrite (@fold_on_qubit_other i j (F j) f Hne (HF j)).
    rewrite IH by exact Hrest.
    destruct (in_dec Nat.eq_dec i rest) as [Hin|Hout],
             (in_dec Nat.eq_dec i (j :: rest)) as [Hin'|Hout'];
      try reflexivity.
    + exfalso. apply Hout'. right. exact Hin.
    + exfalso. destruct Hin' as [Heq|Hin']; [congruence | contradiction].
Qed.

Lemma prepare_touches (j : nat) (bit basis : Z) :
  Forall (touches_only j) (prepare j bit basis).
Proof.
  unfold prepare. destruct (basis =? 0), (bit =? 1), (bit =? 0);
    repeat constructor.
Qed.

Lemma touches_single_qubit (n : nat) (F : nat -> list gate) (indices : list nat) :
  (forall j, Forall (touches_only j) (F j)) ->
  (forall j, In j indices -> (j < n)%nat) ->
  forallb (single_qubit n) (flat_map F indices) = true.
Proof.
  intros HF Hlt. apply forallb_forall. intros g Hg.
  apply in_flat_map in Hg. destruct Hg as (j & Hj & Hg).
  pose proof (HF j) as Hall. rewrite Forall_forall in Hall.
  specialize (Hall g Hg). specialize (Hlt j Hj).
  destruct g; cbn [touches_only] in Hall; try contradiction; cbn [single_qubit];
    try reflexivity; subst; apply Nat.ltb_lt; exact Hlt.
Qed.

Lemma getitem_returns (l : list Z) (i : nat) (v : Z) :
  getitem l i = Returns v -> v = nth i l 0.
Proof.
  unfold getitem. destruct (nth_error l i) as [w|] eqn:E; [|discriminate].
  intros H. inversion H. subst. symmetry. apply nth_error_nth. exact E.
Qed.

Lemma alice_prepares_gates (alice_bits alice_bases : list Z) (indices : list nat) :
  forall gs,
    alice_prepares alice_bits alice_bases indices = Returns gs ->
    gs = flat_map (fun j => prepare j (nth j alice_bits 0) (nth j alice_bases 0))
                  indices.
Proof.
  induction indices as [|j rest IH]; intros gs; cbn [alice_prepares flat_map].
  - intros H. inversion H. reflexivity.
  - destruct (getitem alice_bases j) as [basis| |] eqn:Hbasis; cbn [bind];
      try discriminate.
    destruct (getitem alice_bits j) as [bit| |] eqn:Hbit; cbn [bind];
      try discriminate.
    destruct (alice_prepares alice_bits alice_bases rest) as [gs'| |];
      cbn [bind]; try discriminate.
    intros H. inversion H.
    rewrite (getitem_returns _ _ Hbasis), (getitem_returns _ _ Hbit), (IH gs' eq_refl).
    reflexivity.
Qed.

Lemma eve_resends_gates (eve_bits eve_bases : list Z) (indices : list nat) :
  forall gs,
    eve_resends eve_bits eve_bases indices = Returns gs ->
    gs = flat_map (fun j => prepare j (nth j eve_bits 0) (nth j eve_bases 0))
                  indices.
Proof.
  induction indices as [|j rest IH]; intros gs; cbn [eve_resends flat_map].
  - intros H. inversion H. reflexivity.
  - destruct (getitem eve_bits j) as [bit| |] eqn:Hbit; cbn [bind];
      try discriminate.
    destruct (getitem eve_bases j) as [basis| |] eqn:Hbasis; cbn [bind];
      try discriminate.
    destruct (eve_resends eve_bits eve_bases rest) as [gs'| |];
      cbn [bind]; try discriminate.
    intros H. inversion H.
    rewrite (getitem_returns _ _ Hbasis), (getitem_returns _ _ Hbit), (IH gs' eq_refl).
    reflexivity.
Qed.

Lemma bob_measures_gates (bob_bases : list Z) (indices : list nat) :
  forall gs,
    bob_measures bob_bases indices = Returns gs ->
    gs = flat_map (fun j => if nth j bob_bases 0 =? 1 then [Gh j] else [])
                  indices.
Proof.
  induction indices as [|j rest IH]; intros gs; cbn [bob_measures flat_map].
  - intros H. inversion H. reflexivity.
  - destruct (getitem bob_bases j) as [basis| |] eqn:Hbasis; cbn [bind];
      try discriminate.
    destruct (bob_measures bob_bases rest) as [gs'| |]; cbn [bind];
      try discriminate.
    intros H. inversion H.
    rewrite (getitem_returns _ _ Hbasis), (IH gs' eq_refl). reflexivity.
Qed.

(** One qubit: prepared for [bit] in [basis] and measured in the same
    basis, it is never found in the other value. *)
Lemma sent_bit_is_received (i : nat) (bit basis : Z) :
  is_bit bit -> is_bit basis ->
  fold_left (on_qubit i) (if basis =? 1 then [Gh i] else [])
            (fold_left (on_qubit i) (prepare i bit basis) ket_zero)
            (negb (bit =? 1))
  = 0%R.
Proof.
  pose proof inv_sqrt2_squared as Hr.
  intros [-> | ->] [-> | ->];
    cbv [prepare Z.eqb Pos.eqb fold_left on_qubit negb];
    rewrite ?Nat.eqb_refl; cbv [ket_zero sign negb];
    try reflexivity; set (r := (/ sqrt 2)%R) in *; clearbody r; nra.
Qed.

(** The instructions before the final measurement, for bits [bits] sent
    in the bases [bases] to Bob. *)
Lemma channel_amplitudes (n : nat) (bits bases bob_bases : list Z) :
  Forall is_bit bits -> Forall is_bit bases ->
  (n <= List.length bits)%nat -> (n <= List.length bases)%nat ->
  exists psi,
    apply_gates
      (flat_map (fun j => prepare j (nth j bits 0) (nth j bases 0)) (seq 0 n)
       ++ [Gbarrier]
       ++ flat_map (fun j => if nth j bob_bases 0 =? 1 then [Gh j] else [])
                   (seq 0 n))
      (zero_state n) = Some psi
    /\ forall i, (i < n)%nat -> nth i bases 0 = nth i bob_bases 0 ->
         forall b, b i = negb (nth i bits 0 =? 1) -> psi b = 0%R.
Proof.
  intros Hbits Hbases Hnbits Hnbases.
  set (prep := fun j => prepare j (nth j bits 0) (nth j bases 0)).
  set (meas := fun j => if nth j bob_bases 0 =? 1 then [Gh j] else []).
  assert (Hprep : forall j, Forall (touches_only j) (prep j))
    by (intros j; apply prepare_touches).
  assert (Hmeas : forall j, Forall (touches_only j) (meas j)).
  { intros j. unfold meas. destruct (nth j bob_bases 0 =? 1); repeat constructor. }
  assert (Hlocal : forallb (single_qubit n)
                     (flat_map prep (seq 0 n) ++ [Gbarrier]
                      ++ flat_map meas (seq 0 n)) = true).
  { rewrite !forallb_app.
    rewrite (@touches_single_qubit n prep (seq 0 n) Hprep),
            (@touches_single_qubit n meas (seq 0 n) Hmeas);
      try (intros j Hj; apply in_seq in Hj; lia).
    reflexivity. }
  rewrite zero_state_product.
  rewrite (apply_single_qubits _ _ Hlocal).
  eexists. split; [reflexivity|].
  intros i Hi Hsame b Hb.
  apply product_state_zero with (i := i); [exact Hi|].
  rewrite !fold_left_app.
  rewrite (@fold_on_qubit_flat_map prep i Hprep (seq 0 n) ket_zero (seq_NoDup n 0)).
  destruct (in_dec Nat.eq_dec i (seq 0 n)) as [_|Hout];
    [|exfalso; apply Hout; apply in_seq; lia].
  cbn [fold_left on_qubit].
  rewrite (@fold_on_qubit_flat_map meas i Hmeas (seq 0 n) _ (seq_NoDup n 0)).
  destruct (in_dec Nat.eq_dec i (seq 0 n)) as [_|Hout];
    [|exfalso; apply Hout; apply in_seq; lia].
  rewrite Hb. unfold prep, meas. rewrite <- Hsame.
  apply sent_bit_is_received.
  - rewrite Forall_forall in Hbits. apply Hbits. apply nth_In. lia.
  - rewrite Forall_forall in Hbases. apply Hbases. apply nth_In. lia.
Qed.

Lemma getitem_in_range (l : list Z) (i : nat) (v : Z) :
  getitem l i = Returns v -> (i < List.length l)%nat.
Proof.
  unfold getitem. destruct (nth_error l i) as [w|] eqn:E; [|discriminate].
  intros _. apply nth_error_Some. congruence.
Qed.

Lemma seq_in_range (n len : nat) :
  (forall j, In j (seq 0 n) -> (j < len)%nat) -> (n <= len)%nat.
Proof.
  intros H. destruct n as [|n]; [lia|].
  specialize (H n). rewrite in_seq in H. lia.
Qed.

Lemma alice_prepares_in_range (alice_bits alice_bases : list Z)
      (indices : list nat) :
  forall gs,
    alice_prepares alice_bits alice_bases indices = Returns gs ->
    forall j, In j indices ->
      (j < List.length alice_bits)%nat /\ (j < List.length alice_bases)%nat.
Proof.
  induction indices as [|i rest IH]; intros gs; cbn [alice_prepares];
    [intros _ j []|].
  destruct (getitem alice_bases i) as [basis| |] eqn:Hbasis; cbn [bind];
    try discriminate.
  destruct (getitem alice_bits i) as [bit| |] eqn:Hbit; cbn [bind];
    try discriminate.
  destruct (alice_prepares alice_bits alice_bases rest) as [gs'| |];
    cbn [bind]; try discriminate.
  intros _ j [<-|Hj].
  - split; eapply getitem_in_range; eassumption.
  - apply (IH gs' eq_refl). exact Hj.
Qed.

Lemma eve_resends_in_range (eve_bits eve_bases : list Z) (indices : list nat) :
  forall gs,
    eve_resends eve_bits eve_bases indices = Returns gs ->
    forall j, In j indices ->
      (j < List.length eve_bits)%nat /\ (j < List.length eve_bases)%nat.
Proof.
  induction indices as [|i rest IH]; intros gs; cbn [eve_resends];
    [intros _ j []|].
  destruct (getitem eve_bits i) as [bit| |] eqn:Hbit; cbn [bind];
    try discriminate.
  destruct (getitem eve_bases i) as [basis| |] eqn:Hbasis; cbn [bind];
    try discriminate.
  destruct (eve_resends eve_bits eve_bases rest) as [gs'| |];
    cbn [bind]; try discriminate.
  intros _ j [<-|Hj].
  - split; eapply getitem_in_range; eassumption.
  - apply (IH gs' eq_refl). exact Hj.
Qed.

Ltac all_bits :=
  repeat first
    [ apply Forall_nil
    | apply Forall_cons; [first [left; reflexivity | right; reflexivity]|] ].

(** X15.  Without an eavesdropper and on ideal hardware, Bob's sifted key
    is Alice's.  When the branch of [run_bb84_with_eavesdropping] without
    Eve has built its circuit from bits and bases that are [0] or [1], the
    circuit ends in the measurement of all qubits, and in the state before
    it every basis state has amplitude [0] in which a qubit where Bob's
    basis equals Alice's differs from Alice's bit. *)
Theorem standard_circuit_delivers_alices_bits
        (n_bits : nat) (alice_bits alice_bases bob_bases : list Z) (qc : circuit) :
  standard_circuit n_bits alice_bits alice_bases bob_bases = Returns qc ->
  Forall is_bit alice_bits -> Forall is_bit alice_bases ->
  exists body psi,
    gates qc = body ++ [Gmeasure (seq 0 n_bits) (seq 0 n_bits)]
    /\ apply_gates body (zero_state n_bits) = Some psi
    /\ forall i, In i (matching_bases alice_bases bob_bases n_bits) ->
         forall b, b i = negb (nth i alice_bits 0 =? 1) -> psi b = 0%R.
Proof.
  unfold standard_circuit. intros Hqc Hbits Hbases.
  destruct (alice_prepares alice_bits alice_bases (seq 0 n_bits))
    as [prepared| |] eqn:Hprep; cbn [bind] in Hqc; try discriminate.
  destruct (bob_measures bob_bases (seq 0 n_bits)) as [measured| |] eqn:Hmeas;
    cbn [bind] in Hqc; try discriminate.
  inversion Hqc as [Hgates]. clear Hqc.
  pose proof (alice_prepares_in_range _ _ _ Hprep) as Hrange.
  assert (Hnbits : (n_bits <= List.length alice_bits)%nat)
    by (apply seq_in_range; intros j Hj; apply Hrange; exact Hj).
  assert (Hnbases : (n_bits <= List.length alice_bases)%nat)
    by (apply seq_in_range; intros j Hj; apply Hrange; exact Hj).
  destruct (@channel_amplitudes n_bits alice_bits alice_bases bob_bases
              Hbits Hbases Hnbits Hnbases) as (psi & Hpsi & Hzero).
  rewrite <- (alice_prepares_gates _ _ _ Hprep),
          <- (bob_measures_gates _ _ Hmeas) in Hpsi.
  exists (prepared ++ [Gbarrier] ++ measured), psi.
  split; [|split].
  - unfold add_gate, extend, QuantumCircuit. cbn [gates app].
    rewrite <- !app_assoc. reflexivity.
  - exact Hpsi.
  - intros i Hi. unfold matching_bases in Hi. apply filter_In in Hi.
    destruct Hi as [Hi Hsame]. apply in_seq in Hi. apply Z.eqb_eq in Hsame.
    apply Hzero; [lia | exact Hsame].
Qed.

Lemma standard_circuit_delivers_alices_bits_witness :
  exists body psi,
    gates {| num_qubits := 2; num_clbits := 2;
             gates := [Gx 0; Gx 1; Gh 1; Gbarrier; Gh 1;
                       Gmeasure [0; 1]%nat [0; 1]%nat] |}
    = body ++ [Gmeasure (seq 0 2) (seq 0 2)]
    /\ apply_gates body (zero_state 2) = Some psi
    /\ forall i, In i (matching_bases [0; 1] [0; 1] 2) ->
         forall b, b i = negb (nth i [1; 1] 0 =? 1) -> psi b = 0%R.
Proof.
  apply (@standard_circuit_delivers_alices_bits 2%nat [1; 1] [0; 1] [0; 1]).
  - reflexivity.
  - all_bits.
  - all_bits.
Defined.

Lemma eve_measures_results (randint : nat -> Z)
      (alice_bits alice_bases eve_bases : list Z) :
  Forall is_bit alice_bits -> (forall k, is_bit (randint k)) ->
  forall len start drawn eve_bits,
    eve_measures randint drawn alice_bits alice_bases eve_bases (seq start len)
    = Returns eve_bits ->
    List.length eve_bits = len
    /\ Forall is_bit eve_bits
    /\ forall k, (k < len)%nat ->
         nth (start + k) eve_bases 0 = nth (start + k) alice_bases 0 ->
         nth k eve_bits 0 = nth (start + k) alice_bits 0.
Proof.
  intros Hbits Hrand. induction len as [|len IH];
    intros start drawn eve_bits; cbn [seq eve_measures].
  - intros H. inversion H. subst. repeat split; [constructor | intros; lia].
  - destruct (getitem eve_bases start) as [eve_basis| |] eqn:Heve; cbn [bind];
      try discriminate.
    destruct (getitem alice_bases start) as [alice_basis| |] eqn:Halice;
      cbn [bind]; try discriminate.
    apply getitem_returns in Heve, Halice.
    destruct (Z.eqb_spec eve_basis alice_basis) as [Hsame|Hdiff].
    + destruct (getitem alice_bits start) as [bit| |] eqn:Hbit; cbn [bind];
        try discriminate.
      destruct (eve_measures randint drawn alice_bits alice_bases eve_bases
                             (seq (S start) len)) as [rest| |] eqn:Hrest;
        cbn [bind]; try discriminate.
      intros H. inversion H. subst eve_bits. clear H.
      destruct (IH _ _ _ Hrest) as (Hlen & Hall & Hnth).
      pose proof (getitem_in_range _ _ Hbit) as Hin.
      apply getitem_returns in Hbit.
      split; [cbn; lia|]. split.
      * constructor; [|exact Hall]. subst bit.
        rewrite Forall_forall in Hbits. apply Hbits, nth_In. exact Hin.
      * intros [|k] Hk Hb.
        -- rewrite Nat.add_0_r. exact Hbit.
        -- cbn [nth]. replace (start + S k)%nat with (S start + k)%nat in * by lia.
           apply Hnth; [lia | exact Hb].
    + destruct (eve_measures randint (S drawn) alice_bits alice_bases eve_bases
                             (seq (S start) len)) as [rest| |] eqn:Hrest;
        cbn [bind]; try discriminate.
      intros H. inversion H. subst eve_bits. clear H.
      destruct (IH _ _ _ Hrest) as (Hlen & Hall & Hnth).
      split; [cbn; lia|]. split.
      * constructor; [apply Hrand | exact Hall].
      * intros [|k] Hk Hb.
        -- rewrite Nat.add_0_r in Hb. congruence.
        -- cbn [nth]. replace (start + S k)%nat with (S start + k)%nat in * by lia.
           apply Hnth; [lia | exact Hb].
Qed.

(** X16.  With an eavesdropper, Bob receives Eve's bits, not Alice's.
    When [create_bb84_circuit_with_eve] returns, for bits, random
    draws and bases that are [0] or [1]: Eve has one bit per qubit, equal
    to Alice's wherever Eve's basis is Alice's; the circuit ends in the
    measurement of all qubits; and in the state before it every basis
    state has amplitude [0] in which a qubit where Bob's basis equals
    Eve's differs from Eve's bit. *)
Theorem bob_receives_eves_bits
        (randint : nat -> Z) (alice_bits alice_bases eve_bases bob_bases : list Z)
        (qc : circuit) (eve_bits : list Z) :
  create_bb84_circuit_with_eve randint alice_bits alice_bases eve_bases bob_bases
  = Returns (qc, eve_bits) ->
  Forall is_bit alice_bits -> (forall k, is_bit (randint k)) ->
  Forall is_bit eve_bases ->
  let n := List.length alice_bits in
  List.length eve_bits = n
  /\ (forall i, (i < n)%nat -> nth i eve_bases 0 = nth i alice_bases 0 ->
                nth i eve_bits 0 = nth i alice_bits 0)
  /\ exists body psi,
      gates qc = body ++ [Gmeasure (seq 0 n) (seq 0 n)]
      /\ apply_gates body (zero_state n) = Some psi
      /\ forall i, (i < n)%nat -> nth i eve_bases 0 = nth i bob_bases 0 ->
           forall b, b i = negb (nth i eve_bits 0 =? 1) -> psi b = 0%R.
Proof.
  intros Hqc Hbits Hrand Hbases n.
  unfold create_bb84_circuit_with_eve in Hqc. fold n in Hqc.
  destruct (eve_measures randint 0 alice_bits alice_bases eve_bases (seq 0 n))
    as [measured_bits| |] eqn:Heve; cbn [bind] in Hqc; try discriminate.
  destruct (eve_resends measured_bits eve_bases (seq 0 n))
    as [resent| |] eqn:Hresent; cbn [bind] in Hqc; try discriminate.
  destruct (bob_measures bob_bases (seq 0 n)) as [measured| |] eqn:Hmeas;
    cbn [bind] in Hqc; try discriminate.
  inversion Hqc as [[Hgates Hsame]]. subst measured_bits. clear Hqc.
  destruct (@eve_measures_results randint alice_bits alice_bases eve_bases
              Hbits Hrand n 0%nat 0%nat eve_bits Heve) as (Hlen & Hall & Hnth).
  split; [exact Hlen|]. split; [exact Hnth|].
  pose proof (eve_resends_in_range _ _ _ Hresent) as Hrange.
  assert (Hnbases : (n <= List.length eve_bases)%nat)
    by (apply seq_in_range; intros j Hj; apply Hrange; exact Hj).
  destruct (@channel_amplitudes n eve_bits eve_bases bob_bases
              Hall Hbases ltac:(lia) Hnbases) as (psi & Hpsi & Hzero).
  rewrite <- (eve_resends_gates _ _ _ Hresent),
          <- (bob_measures_gates _ _ Hmeas) in Hpsi.
  exists (resent ++ [Gbarrier] ++ measured), psi.
  split; [|split].
  - unfold add_gate, extend, QuantumCircuit. cbn [gates app].
    rewrite <- !app_assoc. reflexivity.
  - exact Hpsi.
  - exact Hzero.
Qed.

Lemma bob_receives_eves_bits_witness :
  List.length [1; 1] = 2%nat
  /\ (forall i, (i < 2)%nat -> nth i [0; 0] 0 = nth i [0; 1] 0 ->
                nth i [1; 1] 0 = nth i [1; 0] 0)
  /\ exists body psi,
      gates {| num_qubits := 2; num_clbits := 2;
               gates := [Gx 0; Gx 1; Gbarrier;
                         Gmeasure [0; 1]%nat [0; 1]%nat] |}
      = body ++ [Gmeasure (seq 0 2) (seq 0 2)]
      /\ apply_gates body (zero_state 2) = Some psi
      /\ forall i, (i < 2)%nat -> nth i [0; 0] 0 = nth i [0; 0] 0 ->
           forall b, b i = negb (nth i [1; 1] 0 =? 1) -> psi b = 0%R.
Proof.
  apply (@bob_receives_eves_bits (fun _ => 1) [1; 0] [0; 1] [0; 0] [0; 0]).
  - reflexivity.
  - all_bits.
  - intros _. right. reflexivity.
  - all_bits.
Defined.

End BB84Channel.

(** ** The ansatz of the VQE script *)

Section VQEAnsatz.

Import VQE.

Lemma firstn_add {A : Type} (a b : nat) (l : list A) :
  firstn (a + b) l = firstn a l ++ firstn b (skipn a l).
Proof.
  revert l. induction a as [|a IH]; intros l; [reflexivity|].
  destruct l as [|x l]; cbn [Nat.add firstn skipn app].
  - rewrite firstn_nil. reflexivity.
  - rewrite IH. reflexivity.
Qed.

Lemma ry_angles_app (gs1 gs2 : list gate) :
  ry_angles (gs1 ++ gs2) = ry_angles gs1 ++ ry_angles gs2.
Proof. unfold ry_angles. apply flat_map_app. Qed.

Lemma count_cx_app (gs1 gs2 : list gate) :
  count_cx (gs1 ++ gs2) = (count_cx gs1 + count_cx gs2)%nat.
Proof. unfold count_cx. rewrite filter_app, length_app. reflexivity. Qed.

Lemma rotation_layer_returns (params : list Q) (qubits : list nat) :
  forall qc idx,
    (idx + List.length qubits <= List.length params)%nat ->
    exists qc',
      rotation_layer params qubits qc idx
      = Returns (qc', (idx + List.length qubits)%nat)
      /\ num_qubits qc' = num_qubits qc
      /\ ry_angles (gates qc')
         = ry_angles (gates qc) ++ firstn (List.length qubits) (skipn idx params)
      /\ count_cx (gates qc') = count_cx (gates qc).
Proof.
  induction qubits as [|i rest IH]; intros qc idx Hlen.
  - exists qc. cbn [rotation_layer List.length firstn].
    rewrite Nat.add_0_r, app_nil_r. repeat split; reflexivity.
  - cbn [List.length] in Hlen. cbn [rotation_layer].
    unfold getitem.
    destruct (nth_error params idx) as [theta|] eqn:Hget;
      [|apply nth_error_None in Hget; lia].
    cbn [bind].
    destruct (IH (add_gate (Gry theta i) qc) (S idx) ltac:(lia))
      as (qc' & Hret & Hnum & Hangles & Hcx).
    exists qc'. rewrite Hret. cbn [List.length].
    replace (S idx + List.length rest)%nat with (idx + S (List.length rest))%nat
      by lia.
    split; [reflexivity|]. split; [exact Hnum|]. split.
    + rewrite Hangles. unfold add_gate. cbn [gates].
      rewrite ry_angles_app. cbn [ry_angles flat_map app].
      rewrite <- app_assoc. f_equal. cbn [app].
      assert (Hskip : skipn idx params = theta :: skipn (S idx) params).
      { clear -Hget. revert params Hget.
        induction idx as [|idx IHidx]; intros [|p params] Hget;
          cbn in Hget; try discriminate.
        - inversion Hget. reflexivity.
        - cbn [skipn]. apply IHidx. exact Hget. }
      rewrite Hskip. reflexivity.
    + rewrite Hcx. unfold add_gate. cbn [gates].
      rewrite count_cx_app. cbn. lia.
Qed.

Lemma rotation_layer_raises (params : list Q) (qubits : list nat) :
  forall qc idx,
    (idx <= List.length params)%nat ->
    (List.length params < idx + List.length qubits)%nat ->
    rotation_layer params qubits qc idx = Raises IndexError.
Proof.
  induction qubits as [|i rest IH]; intros qc idx Hidx Hshort.
  - cbn [List.length] in Hshort. lia.
  - cbn [List.length] in Hshort. cbn [rotation_layer]. unfold getitem.
    destruct (nth_error params idx) as [theta|] eqn:Hget; [|reflexivity].
    cbn [bind]. apply IH; [|lia].
    assert (idx < List.length params)%nat by (apply nth_error_Some; congruence).
    lia.
Qed.

Lemma count_cx_entangle (n : nat) (start : nat) :
  count_cx (map (fun i => Gcx i (i + 1)) (seq start n)) = n.
Proof.
  revert start. induction n as [|n IH]; intros start; [reflexivity|].
  cbn [seq map]. unfold count_cx in *. cbn [filter List.length].
  rewrite IH. reflexivity.
Qed.

Lemma ry_angles_entangle (n : nat) (start : nat) :
  ry_angles (map (fun i => Gcx i (i + 1)) (seq start n)) = [].
Proof.
  revert start. induction n as [|n IH]; intros start; [reflexivity|].
  cbn [seq map]. unfold ry_angles in *. cbn [flat_map app]. apply IH.
Qed.

Lemma ansatz_layers_returns (n_qubits : nat) (params : list Q) (layers : nat)
      (layer_range : list nat) :
  forall qc idx,
    (idx + List.length layer_range * n_qubits <= List.length params)%nat ->
    exists qc',
      ansatz_layers n_qubits params layers layer_range qc idx
      = Returns (qc', (idx + List.length layer_range * n_qubits)%nat)
      /\ num_qubits qc' = num_qubits qc
      /\ ry_angles (gates qc')
         = ry_angles (gates qc)
           ++ firstn (List.length layer_range * n_qubits) (skipn idx params)
      /\ count_cx (gates qc')
         = (count_cx (gates qc) + List.length layer_range * (n_qubits - 1))%nat.
Proof.
  induction layer_range as [|layer rest IH]; intros qc idx Hlen.
  - exists qc. cbn [ansatz_layers List.length Nat.mul firstn].
    rewrite !Nat.add_0_r, app_nil_r. repeat split; reflexivity.
  - cbn [List.length Nat.mul] in Hlen. cbn [ansatz_layers].
    destruct (@rotation_layer_returns params (seq 0 n_qubits) qc idx)
      as (qc1 & Hret1 & Hnum1 & Hangles1 & Hcx1);
      [rewrite length_seq; lia|].
    rewrite length_seq in *. rewrite Hret1. cbn [bind fst snd].
    set (qc2 := extend (map (fun i => Gcx i (i + 1)) (seq 0 (n_qubits - 1))) qc1).
    set (qc3 := if (layer <? layers - 1)%nat then add_gate Gbarrier qc2 else qc2).
    assert (Hnum3 : num_qubits qc3 = num_qubits qc).
    { unfold qc3, qc2. destruct (layer <? layers - 1)%nat; exact Hnum1. }
    assert (Hangles3 : ry_angles (gates qc3) = ry_angles (gates qc1)).
    { unfold qc3, qc2, add_gate, extend.
      destruct (layer <? layers - 1)%nat; cbn [gates];
        rewrite ?ry_angles_app, ry_angles_entangle, ?app_nil_r; reflexivity. }
    assert (Hcx3 : count_cx (gates qc3) = (count_cx (gates qc1) + (n_qubits - 1))%nat).
    { unfold qc3, qc2, add_gate, extend.
      destruct (layer <? layers - 1)%nat; cbn [gates];
        rewrite ?count_cx_app, count_cx_entangle; cbn; lia. }
    destruct (IH qc3 (idx + n_qubits)%nat ltac:(lia))
      as (qc' & Hret & Hnum & Hangles & Hcx).
    exists qc'. rewrite Hret. cbn [List.length Nat.mul].
    split; [f_equal; f_equal; lia|]. split; [congruence|]. split.
    + rewrite Hangles, Hangles3, Hangles1, <- app_assoc. f_equal.
      rewrite (firstn_add n_qubits (List.length rest * n_qubits)).
      rewrite skipn_skipn. f_equal. f_equal. f_equal. lia.
    + rewrite Hcx, Hcx3, Hcx1. lia.
Qed.

Lemma ansatz_layers_raises (n_qubits : nat) (params : list Q) (layers : nat)
      (layer_range : list nat) :
  forall qc idx,
    (idx <= List.length params)%nat ->
    (List.length params < idx + List.length layer_range * n_qubits)%nat ->
    ansatz_layers n_qubits params layers layer_range qc idx = Raises IndexError.
Proof.
  induction layer_range as [|layer rest IH]; intros qc idx Hidx Hshort.
  - cbn [List.length Nat.mul] in Hshort. lia.
  - cbn [List.length Nat.mul] in Hshort. cbn [ansatz_layers].
    destruct (Nat.le_gt_cases (idx + n_qubits) (List.length params)) as [Hfits|Hnot].
    + destruct (@rotation_layer_returns params (seq 0 n_qubits) qc idx)
        as (qc1 & Hret1 & _); [rewrite length_seq; exact Hfits|].
      rewrite length_seq in Hret1. rewrite Hret1. cbn [bind fst snd].
      apply IH; lia.
    + rewrite rotation_layer_raises; [reflexivity | exact Hidx |].
      rewrite length_seq. exact Hnot.
Qed.

(** X17.  [create_ansatz] needs [(layers + 1) * n_qubits] parameters.
    With at least that many it returns a circuit on [n_qubits] qubits
    whose rotation angles are, in program order, exactly the first
    [(layers + 1) * n_qubits] parameters (any further parameter is
    ignored), with [layers * (n_qubits - 1)] entangling [cx] gates; with
    fewer it raises [IndexError]. *)
Theorem create_ansatz_parameters (n_qubits : nat) (params : list Q) (layers : nat) :
  if ((layers + 1) * n_qubits <=? List.length params)%nat
  then exists qc,
      create_ansatz n_qubits params layers = Returns qc
      /\ num_qubits qc = n_qubits
      /\ ry_angles (gates qc) = firstn ((layers + 1) * n_qubits) params
      /\ count_cx (gates qc) = (layers * (n_qubits - 1))%nat
  else create_ansatz n_qubits params layers = Raises IndexError.
Proof.
  unfold create_ansatz.
  destruct (Nat.leb_spec ((layers + 1) * n_qubits) (List.length params))
    as [Hfits|Hshort].
  - destruct (@ansatz_layers_returns n_qubits params layers (seq 0 layers)
                (QuantumCircuit n_qubits 0) 0%nat)
      as (qc1 & Hret1 & Hnum1 & Hangles1 & Hcx1);
      [rewrite length_seq; lia|].
    rewrite length_seq in *. rewrite Hret1. cbn [bind fst snd].
    destruct (@rotation_layer_returns params (seq 0 n_qubits) qc1
                (0 + layers * n_qubits)%nat)
      as (qc2 & Hret2 & Hnum2 & Hangles2 & Hcx2);
      [rewrite length_seq; lia|].
    rewrite length_seq in *. rewrite Hret2. cbn [bind fst].
    exists qc2. split; [reflexivity|].
    split; [rewrite Hnum2, Hnum1; reflexivity|]. split.
    + rewrite Hangles2, Hangles1. cbn [QuantumCircuit gates ry_angles flat_map app skipn Nat.add].
      replace ((layers + 1) * n_qubits)%nat with (layers * n_qubits + n_qubits)%nat
        by lia.
      rewrite firstn_add. reflexivity.
    + rewrite Hcx2, Hcx1. reflexivity.
  - destruct (Nat.le_gt_cases (layers * n_qubits) (List.length params))
      as [Hloop|Hloop].
    + destruct (@ansatz_layers_returns n_qubits params layers (seq 0 layers)
                  (QuantumCircuit n_qubits 0) 0%nat)
        as (qc1 & Hret1 & _); [rewrite length_seq; lia|].
      rewrite length_seq in Hret1. rewrite Hret1. cbn [bind fst snd].
      rewrite rotation_layer_raises; [reflexivity | lia |].
      rewrite length_seq. lia.
    + rewrite ansatz_layers_raises; [reflexivity | lia |].
      rewrite length_seq. lia.
Qed.

End VQEAnsatz.

(** ** The optimisation loop of the VQE script *)

Section VQESearch.

Import VQE.

Lemma returns_only_bind {A B : Type} (PA : A -> Prop) (PB : B -> Prop)
      (m : script A) (k : A -> script B) :
  returns_only PA m -> (forall a, PA a -> returns_only PB (k a)) ->
  returns_only PB (sbind m k).
Proof.
  intros Hm Hk n b. unfold sbind. specialize (Hm n).
  destruct (m n) as [[a|e|] d1]; cbn [fst]; try discriminate.
  intros Hb. apply (Hk a (Hm a eq_refl) _ b Hb).
Qed.

Lemma returns_only_any {A : Type} (m : script A) : returns_only (fun _ => True) m.
Proof. intros n a _. exact I. Qed.

Lemma returns_only_ret {A : Type} (P : A -> Prop) (a : A) :
  P a -> returns_only P (ret a).
Proof. intros Ha n b Hb. inversion Hb. subst. exact Ha. Qed.

Lemma best_is_least_step (best : option Q) (history : list Q) (energy : Q) :
  best_is_least best history ->
  best_is_least
    (if match best with
        | None => true
        | Some best_energy => negb (Qle_bool best_energy energy)
        end
     then Some energy else best)
    (history ++ [energy]).
Proof.
  unfold best_is_least. destruct best as [b|].
  - intros [Hin Hall].
    destruct (Qle_bool b energy) eqn:Hle; cbn [negb].
    + apply Qle_bool_iff in Hle. split; [apply in_or_app; left; exact Hin|].
      apply Forall_app. split; [exact Hall | repeat constructor; exact Hle].
    + assert (Hlt : (energy < b)%Q).
      { apply Qnot_le_lt. intros H. apply Qle_bool_iff in H. congruence. }
      split; [apply in_or_app; right; left; reflexivity|].
      apply Forall_app. split.
      * apply Forall_forall. intros x Hx. rewrite Forall_forall in Hall.
        apply Qle_trans with b; [apply Qlt_le_weak; exact Hlt | apply Hall, Hx].
      * repeat constructor. apply Qle_refl.
  - intros ->. cbn [app]. split; [left; reflexivity|].
    repeat constructor. apply Qle_refl.
Qed.

Lemma optimise_best (rt : runtime) (cloud : sdk) (rng : numpy_random) (n_qubits : nat)
      (shots : Z) (max_iterations : nat) (iterations : list nat) :
  forall st,
    best_is_least (best st) (history st) ->
    returns_only
      (fun st' => best_is_least (best st') (history st')
                  /\ List.length (history st')
                     = (List.length (history st) + List.length iterations)%nat)
      (optimise rt cloud rng n_qubits shots max_iterations iterations st).
Proof.
  induction iterations as [|iteration rest IH]; intros st Hst.
  - apply returns_only_ret. cbn [List.length]. split; [exact Hst | lia].
  - cbn [optimise].
    eapply returns_only_bind; [apply returns_only_any | intros _ _].
    eapply returns_only_bind; [apply returns_only_any | intros energy _].
    eapply returns_only_bind; [apply returns_only_any | intros _ _].
    intros n st' Hret.
    match type of Hret with
    | fst (optimise _ _ _ _ _ _ _ ?s _) = _ =>
        destruct (IH s (@best_is_least_step _ _ energy Hst) n st' Hret) as [Hbest Hlen]
    end.
    split; [exact Hbest|]. rewrite Hlen. cbn [history List.length].
    rewrite length_app. cbn [List.length]. lia.
Qed.

(** X19.  What [run_vqe] returns.  When a call of [run_vqe] returns, its
    list [energies] has one entry per iteration, and [best_energy] is the
    least of them: it occurs in the list and no entry is below it; it is
    still [float('inf')] only when there was no iteration. *)
Theorem run_vqe_best_energy (rt : runtime) (cloud : sdk) (rng : numpy_random)
        (creds : credentials) (n_qubits max_iterations : nat) (shots : Z)
        (n : nat) (res : results) :
  fst (run_vqe rt cloud rng creds n_qubits max_iterations shots n) = Returns res ->
  List.length (energies res) = max_iterations
  /\ best_is_least (best_energy res) (energies res).
Proof.
  revert n res.
  change (returns_only
            (fun res => List.length (energies res) = max_iterations
                        /\ best_is_least (best_energy res) (energies res))
            (run_vqe rt cloud rng creds n_qubits max_iterations shots)).
  unfold run_vqe.
  do 7 (eapply returns_only_bind; [apply returns_only_any | intros ? _]).
  eapply returns_only_bind.
  - apply optimise_best. reflexivity.
  - intros st [Hbest Hlen]. cbn [history List.length] in Hlen.
    rewrite length_seq in Hlen.
    eapply returns_only_bind; [apply returns_only_any | intros final_ansatz _].
    eapply returns_only_bind; [apply returns_only_any | intros _ _].
    apply returns_only_ret. cbn [energies best_energy].
    split; [exact Hlen | exact Hbest].
Qed.

Lemma run_vqe_best_energy_witness :
  exists res,
    fst (run_vqe exact_runtime sample_cloud sample_rng sample_credentials
                 2 3 1024 0%nat)
    = Returns res
    /\ List.length (energies res) = 3%nat
    /\ best_is_least (best_energy res) (energies res).
Proof.
  eexists. split; [vm_compute; reflexivity|].
  eapply (@run_vqe_best_energy exact_runtime sample_cloud sample_rng
                               sample_credentials 2 3 1024 0%nat).
  vm_compute. reflexivity.
Defined.

End VQESearch.

(** ** The circuits of the QFT script *)

Section QFTCircuits.

Import QFT.

Lemma agrees_S (n : nat) (x : Z) (b : basis) :
  agrees (S n) x b
  = (agrees n x b && Bool.eqb (b n) (Z.testbit x (Z.of_nat n)))%bool.
Proof.
  unfold agrees. rewrite seq_S, forallb_app. cbn [forallb Nat.add].
  rewrite andb_true_r. reflexivity.
Qed.

Lemma basis_state_product (n : nat) (x : Z) :
  basis_state n x
  = product_state n (fun i v => if Bool.eqb v (Z.testbit x (Z.of_nat i))
                                then 1%R else 0%R).
Proof.
  apply functional_extensionality. intros b. unfold basis_state.
  induction n as [|n IH]; [reflexivity|].
  cbn [product_state]. rewrite <- IH, agrees_S.
  destruct (agrees n x b), (Bool.eqb (b n) (Z.testbit x (Z.of_nat n)));
    cbn [andb]; ring.
Qed.

(** X20.  The [X] gates that [create_qft_demo_circuit] and
    [create_qft_inverse_test_circuit] put in front of the transform
    prepare the input state: they take [|0...0>] to the basis state whose
    qubit [i] is bit [i] of [input_state], that is to
    [|input_state mod 2^n>]; bits of [input_state] from position [n] on
    are dropped. *)
Theorem prepare_input_prepares (n_qubits : nat) (input_state : Z) :
  apply_gates (prepare_input n_qubits input_state) (zero_state n_qubits)
  = Some (basis_state n_qubits input_state)
  /\ basis_state n_qubits input_state
     = basis_state n_qubits (input_state mod 2 ^ Z.of_nat n_qubits).
Proof.
  split.
  - set (F := fun i : nat =>
                if (Z.land (Z.shiftr input_state (Z.of_nat i)) 1 =? 0)%Z
                then [] else [Gx i]).
    assert (HF : forall j, Forall (touches_only j) (F j)).
    { intros j. unfold F.
      destruct (Z.land (Z.shiftr input_state (Z.of_nat j)) 1 =? 0)%Z;
        repeat constructor. }
    change (prepare_input n_qubits input_state)
      with (flat_map F (seq 0 n_qubits)).
    rewrite zero_state_product, apply_single_qubits.
    + f_equal. rewrite basis_state_product.
      apply functional_extensionality. intros b.
      apply product_state_ext. intros i Hi.
      rewrite (@fold_on_qubit_flat_map F i HF (seq 0 n_qubits) ket_zero
                 (seq_NoDup n_qubits 0)).
      destruct (in_dec Nat.eq_dec i (seq 0 n_qubits)) as [_|Hout];
        [|exfalso; apply Hout; apply in_seq; lia].
      unfold F. rewrite shift_and_one.
      destruct (Z.testbit input_state (Z.of_nat i));
        cbn [negb fold_left on_qubit]; rewrite ?Nat.eqb_refl;
        unfold ket_zero; destruct (b i); reflexivity.
    + apply touches_single_qubit; [exact HF|].
      intros j Hj. apply in_seq in Hj. lia.
  - apply functional_extensionality. intros b. unfold basis_state.
    replace (agrees n_qubits (input_state mod 2 ^ Z.of_nat n_qubits) b)
      with (agrees n_qubits input_state b); [reflexivity|].
    unfold agrees. apply forallb_ext_in. intros i Hi.
    apply in_seq in Hi. rewrite Z.mod_pow2_bits_low by lia. reflexivity.
Qed.

Lemma qft_rotations_gates (n : nat) :
  forall qc,
    gates (qft_rotations qc n) = gates qc ++ rotations n
    /\ num_qubits (qft_rotations qc n) = num_qubits qc.
Proof.
  induction n as [|n IH]; intros qc; cbn [qft_rotations rotations].
  - rewrite app_nil_r. split; reflexivity.
  - destruct (IH (extend (map (fun qubit => Gcp (two_pi_over_pow2 (n - qubit + 1))
                                                qubit n) (seq 0 n))
                         (add_gate (Gh n) qc))) as [Hg Hn].
    rewrite Hg, Hn. unfold extend, add_gate. cbn [gates num_qubits].
    rewrite <- !app_assoc. split; reflexivity.
Qed.

Lemma count_app (kind : gate -> bool) (gs1 gs2 : list gate) :
  count kind (gs1 ++ gs2) = (count kind gs1 + count kind gs2)%nat.
Proof. unfold count. rewrite filter_app, length_app. reflexivity. Qed.

Lemma count_map_all {A : Type} (kind : gate -> bool) (f : A -> gate) (l : list A) :
  (forall x, kind (f x) = true) -> count kind (map f l) = List.length l.
Proof.
  intros H. unfold count. induction l as [|x l IH]; [reflexivity|].
  cbn [map filter]. rewrite H. cbn [List.length]. rewrite IH. reflexivity.
Qed.

Lemma count_map_none {A : Type} (kind : gate -> bool) (f : A -> gate) (l : list A) :
  (forall x, kind (f x) = false) -> count kind (map f l) = 0%nat.
Proof.
  intros H. unfold count. induction l as [|x l IH]; [reflexivity|].
  cbn [map filter]. rewrite H. exact IH.
Qed.

Lemma rotations_counts (n : nat) :
  count is_h (rotations n) = n
  /\ (2 * count is_cp (rotations n) = n * (n - 1))%nat
  /\ count is_swap (rotations n) = 0%nat
  /\ Forall (within n) (rotations n).
Proof.
  induction n as [|n (Hh & Hcp & Hswap & Hin)]; cbn [rotations].
  - repeat split; constructor.
  - change (Gh n :: ?l) with ([Gh n] ++ l).
    rewrite !count_app.
    rewrite (count_map_none is_h), (count_map_all is_cp),
            (count_map_none is_swap), length_seq by reflexivity.
    rewrite Hh, Hswap.
    split; [reflexivity|]. split; [cbn [count filter is_cp List.length]; nia|].
    split; [reflexivity|].
    apply Forall_app. split; [|apply Forall_app; split].
    + apply Forall_cons; [|apply Forall_nil]. split; cbn [qubits_of].
      * constructor; [intros [] | constructor].
      * apply Forall_cons; [lia | apply Forall_nil].
    + apply Forall_forall. intros g Hg. apply in_map_iff in Hg.
      destruct Hg as (q & <- & Hq). apply in_seq in Hq.
      split; cbn [qubits_of].
      * constructor; [intros [H|[]]; lia | constructor; [intros [] | constructor]].
      * apply Forall_cons; [lia|]. apply Forall_cons; [lia | apply Forall_nil].
    + eapply Forall_impl; [|exact Hin].
      intros g [Hnd Hlt]. split; [exact Hnd|].
      eapply Forall_impl; [|exact Hlt]. intros q Hq. cbn beta in *. lia.
Qed.

(** X21.  The size of the transform.  [create_qft_circuit(n, swap)] builds
    a circuit on [n] qubits with exactly [n] Hadamard gates,
    [n (n - 1) / 2] controlled phase rotations and, when [swap] is set,
    [n // 2] swaps, and nothing else; every instruction acts on distinct
    qubits of the register. *)
Theorem create_qft_circuit_size (n_qubits : nat) (swap : bool) :
  let qc := create_qft_circuit n_qubits swap in
  num_qubits qc = n_qubits
  /\ count is_h (gates qc) = n_qubits
  /\ (2 * count is_cp (gates qc) = n_qubits * (n_qubits - 1))%nat
  /\ count is_swap (gates qc) = (if swap then n_qubits / 2 else 0)%nat
  /\ List.length (gates qc)
     = (count is_h (gates qc) + count is_cp (gates qc)
        + count is_swap (gates qc))%nat
  /\ Forall (within n_qubits) (gates qc).
Proof.
  cbv zeta. unfold create_qft_circuit.
  destruct (qft_rotations_gates n_qubits (QuantumCircuit n_qubits 0)) as [Hg Hn].
  cbn [QuantumCircuit gates num_qubits app] in Hg, Hn.
  destruct (rotations_counts n_qubits) as (Hh & Hcp & Hswap & Hin).
  assert (Hlen : List.length (rotations n_qubits)
                 = (count is_h (rotations n_qubits)
                    + count is_cp (rotations n_qubits))%nat).
  { clear. induction n_qubits as [|n IH]; [reflexivity|].
    cbn [rotations]. change (Gh n :: ?l) with ([Gh n] ++ l).
    rewrite !count_app, !length_app, IH.
    rewrite (count_map_none is_h), (count_map_all is_cp), length_map
      by reflexivity.
    cbn [count filter is_h is_cp List.length]. lia. }
  destruct swap.
  - unfold swap_registers, extend. cbn [gates num_qubits]. rewrite Hg, Hn.
    rewrite !count_app, length_app, length_map, length_seq.
    rewrite (count_map_none is_h), (count_map_none is_cp),
            (count_map_all is_swap), length_seq by reflexivity.
    rewrite Hh, Hswap, Hlen, Hh.
    split; [reflexivity|]. split; [lia|]. split; [lia|]. split; [lia|].
    split; [lia|].
    apply Forall_app. split; [exact Hin|].
    apply Forall_forall. intros g Hg'. apply in_map_iff in Hg'.
    destruct Hg' as (q & <- & Hq). apply in_seq in Hq.
    pose proof (Nat.Div0.mul_div_le n_qubits 2) as Hdiv.
    split; cbn [qubits_of].
    + constructor; [intros [H|[]]; lia | constructor; [intros [] | constructor]].
    + apply Forall_cons; [lia|]. apply Forall_cons; [lia | apply Forall_nil].
  - rewrite Hg, Hn, Hh, Hswap, Hlen, Hh.
    split; [reflexivity|]. split; [reflexivity|]. split; [exact Hcp|].
    split; [reflexivity|]. split; [lia | exact Hin].
Qed.

Ltac compare_indices :=
  repeat match goal with
         | |- context [(?a <? ?b)%nat] => destruct (Nat.ltb_spec a b)
         | |- context [(?a <=? ?b)%nat] => destruct (Nat.leb_spec a b)
         | |- context [(?a =? ?b)%nat] => destruct (Nat.eqb_spec a b)
         end;
  cbn [orb andb]; try reflexivity; try lia; try (f_equal; lia).

Lemma reverse_outer_step (n m : nat) (b : basis) :
  (2 * S m <= n)%nat ->
  reverse_outer n m (set_bit m (b (n - m - 1)%nat)
                             (set_bit (n - m - 1) (b m) b))
  = reverse_outer n (S m) b.
Proof.
  intros Hm. apply functional_extensionality. intros i.
  unfold reverse_outer, set_bit. compare_indices.
Qed.

Lemma apply_outer_swaps (n m : nat) :
  (2 * m <= n)%nat ->
  forall psi,
    apply_gates (map (fun qubit => Gswap qubit (n - qubit - 1)) (seq 0 m)) psi
    = Some (fun b => psi (reverse_outer n m b)).
Proof.
  induction m as [|m IH]; intros Hm psi.
  - cbn [seq map apply_gates]. f_equal. apply functional_extensionality.
    intros b. f_equal. apply functional_extensionality. intros i.
    unfold reverse_outer. compare_indices.
  - rewrite seq_S, map_app, apply_gates_app, IH by lia.
    cbn [map apply_gates apply_gate Nat.add]. f_equal.
    apply functional_extensionality. intros b.
    rewrite reverse_outer_step by exact Hm. reflexivity.
Qed.

(** X22.  [swap_registers] reverses the order of the qubits, as its
    docstring says: the swaps it appends take the amplitude of every
    assignment of the qubits [0 .. n-1] to the assignment read in the
    opposite order, for even and for odd [n]. *)
Theorem swap_registers_reverses (qc : circuit) (n : nat) :
  exists swaps,
    gates (swap_registers qc n) = gates qc ++ swaps
    /\ forall psi,
        apply_gates swaps psi = Some (fun b => psi (reverse_qubits n b)).
Proof.
  eexists. split; [reflexivity|]. intros psi.
  pose proof (Nat.Div0.mul_div_le n 2) as Hlow.
  pose proof (Nat.div_mod_eq n 2) as Hdiv.
  pose proof (Nat.mod_upper_bound n 2 ltac:(lia)) as Hmod.
  rewrite apply_outer_swaps by lia. f_equal.
  apply functional_extensionality. intros b. f_equal.
  apply functional_extensionality. intros i.
  unfold reverse_outer, reverse_qubits. compare_indices.
Qed.

End QFTCircuits.

(** ** The circuits of the Shor script *)

Section ShorCircuits.

Import Shor.
Local Open Scope Z_scope.

Lemma rotations_blocks (n : nat) :
  rotations n
  = flat_map (fun i => Gh i :: map (fun j => Gcp (two_pi_over_pow2 (i - j + 1)) j i)
                                   (seq 0 i))
             (rev (seq 0 n)).
Proof.
  induction n as [|n IH]; [reflexivity|].
  rewrite seq_S, rev_app_distr. cbn [rev app flat_map rotations Nat.add].
  rewrite IH. reflexivity.
Qed.

Lemma Permutation_flat_map_pointwise {A B : Type} (f g : A -> list B) (l : list A) :
  (forall x, Permutation (f x) (g x)) ->
  Permutation (flat_map f l) (flat_map g l).
Proof.
  intros H. induction l as [|x l IH]; [constructor|].
  cbn [flat_map]. apply Permutation_app; [apply H | exact IH].
Qed.

(** X23.  The Shor script builds the same transform as the QFT script.
    [create_qft_circuit(n)] of the Shor script and
    [create_qft_circuit(n, swap=True)] of the QFT script have the same
    number of qubits and the same instructions; only their order differs
    (the Shor script applies the rotations onto each qubit in descending
    order of the control), and not at all up to two qubits. *)
Theorem shor_qft_matches_qft_script (n_qubits : nat) :
  num_qubits (create_qft_circuit n_qubits)
  = num_qubits (QFT.create_qft_circuit n_qubits true)
  /\ Permutation (gates (create_qft_circuit n_qubits))
                 (gates (QFT.create_qft_circuit n_qubits true))
  /\ ((n_qubits <= 2)%nat ->
      gates (create_qft_circuit n_qubits)
      = gates (QFT.create_qft_circuit n_qubits true)).
Proof.
  unfold create_qft_circuit, QFT.create_qft_circuit, QFT.swap_registers, extend.
  destruct (qft_rotations_gates n_qubits (QuantumCircuit n_qubits 0)) as [Hg Hn].
  cbn [gates num_qubits QuantumCircuit app] in *.
  rewrite Hg, Hn, rotations_blocks.
  split; [reflexivity|]. split.
  - apply Permutation_app; [|apply Permutation_refl].
    apply Permutation_flat_map_pointwise. intros i.
    apply perm_skip. rewrite map_rev. apply Permutation_sym, Permutation_rev.
  - intros Hsmall.
    destruct n_qubits as [|[|[|n]]]; [reflexivity | reflexivity | reflexivity | lia].
Qed.

Ltac residues y :=
  match goal with
  | H : 0 <= y < 15 |- _ =>
      assert (y = 0 \/ y = 1 \/ y = 2 \/ y = 3 \/ y = 4 \/ y = 5 \/ y = 6
              \/ y = 7 \/ y = 8 \/ y = 9 \/ y = 10 \/ y = 11 \/ y = 12
              \/ y = 13 \/ y = 14) as Hcases by lia;
      clear H;
      repeat (destruct Hcases as [Hcases|Hcases]; [subst y|]); [..|subst y]
  end.

Ltac same_basis_state :=
  f_equal; apply functional_extensionality;
  let i := fresh "i" in
  intros [|[|[|[|i]]]]; [reflexivity | reflexivity | reflexivity | reflexivity |];
  unfold set_bit, basis_of; cbn [Nat.eqb];
  rewrite !(@testbit_above 4) by (cbn; lia); reflexivity.

(** X24.  What the swap networks of
    [create_controlled_modular_multiplication] do for [N = 15].  On the
    residues [0 .. 14] of the four work qubits, the network for [a = 4]
    is multiplication by [4] modulo [15]; the network for [a = 7], which
    is also the network for [a = 2], is multiplication by [8] modulo
    [15]: it moves the amplitude of [|y>] to [|8 y mod 15>]. *)
Theorem modular_multiplication_networks (psi : amplitudes) (y : Z) :
  0 <= y < 15 ->
  (exists psi4,
      apply_gates (gates (create_controlled_modular_multiplication 4 15)) psi
      = Some psi4
      /\ psi4 (basis_of (4 * y mod 15)) = psi (basis_of y))
  /\ (exists psi7,
         apply_gates (gates (create_controlled_modular_multiplication 7 15)) psi
         = Some psi7
         /\ psi7 (basis_of (8 * y mod 15)) = psi (basis_of y))
  /\ create_controlled_modular_multiplication 2 15
     = create_controlled_modular_multiplication 7 15.
Proof.
  intros Hy. split; [|split; [|reflexivity]].
  - eexists. split; [reflexivity|]. cbv beta.
    residues y; same_basis_state.
  - eexists. split; [reflexivity|]. cbv beta.
    residues y; same_basis_state.
Qed.

Lemma modular_multiplication_networks_witness :
  (exists psi4,
      apply_gates (gates (create_controlled_modular_multiplication 4 15))
                  (basis_state 4 7) = Some psi4
      /\ psi4 (basis_of (4 * 7 mod 15)) = basis_state 4 7 (basis_of 7))
  /\ (exists psi7,
         apply_gates (gates (create_controlled_modular_multiplication 7 15))
                     (basis_state 4 7) = Some psi7
         /\ psi7 (basis_of (8 * 7 mod 15)) = basis_state 4 7 (basis_of 7))
  /\ create_controlled_modular_multiplication 2 15
     = create_controlled_modular_multiplication 7 15.
Proof.
  apply (@modular_multiplication_networks (basis_state 4 7) 7). lia.
Defined.

End ShorCircuits.

(** ** The circuit of the Shor script *)

Section ShorCircuitShape.

Import Shor.
Local Open Scope Z_scope.

Lemma shor_qft_unmeasured (n : nat) :
  Forall unmeasured (gates (create_qft_circuit n)).
Proof.
  unfold create_qft_circuit, extend. cbn [gates QuantumCircuit app].
  apply Forall_app. split.
  - apply Forall_forall. intros g Hg. apply in_flat_map in Hg.
    destruct Hg as (i & _ & [<-|Hg]); [exact I|].
    apply in_map_iff in Hg. destruct Hg as (j & <- & _). exact I.
  - apply map_unmeasured. intros q. exact I.
Qed.

Lemma inverse_gates_unmeasured (gs : list gate) :
  forall acc inv,
    Forall unmeasured acc ->
    inverse_gates gs acc = Returns inv -> Forall unmeasured inv.
Proof.
  induction gs as [|g gs IH]; intros acc inv Hacc; cbn [inverse_gates].
  - intros H. inversion H. subst. exact Hacc.
  - destruct (inverse_gate g) as [i| |] eqn:Hi; try discriminate.
    apply IH. constructor; [|exact Hacc].
    destruct g; cbn in Hi; inversion Hi; exact I.
Qed.

Lemma inverse_gates_count (kind : gate -> bool) (gs : list gate) :
  (forall g i, inverse_gate g = Returns i -> kind i = kind g) ->
  forall acc inv,
    inverse_gates gs acc = Returns inv ->
    count kind inv = (count kind gs + count kind acc)%nat.
Proof.
  intros Hkind. induction gs as [|g gs IH]; intros acc inv; cbn [inverse_gates].
  - intros H. inversion H. reflexivity.
  - destruct (inverse_gate g) as [i| |] eqn:Hi; try discriminate.
    intros H. rewrite (IH _ _ H). unfold count. cbn [filter].
    rewrite (Hkind g i Hi). destruct (kind g); cbn [List.length]; lia.
Qed.

Lemma controlled_steps (N a : Z) (work_qubits : list nat) (qubits : list nat) :
  N <> 0 ->
  forall qc,
    exists gs,
      fold_left
        (fun acc q =>
           (qc <- acc ;;
            a_power <- modular_exponentiation a (2 ^ Z.of_nat q) N ;;
            Returns (compose_on
                       (control (create_controlled_modular_multiplication
                                   a_power N))
                       (q :: work_qubits) qc))%outcome)
        qubits (Returns qc)
      = Returns (extend gs qc)
      /\ List.length gs = List.length qubits
      /\ Forall (fun g => is_cswaps g = true) gs.
Proof.
  intros HN.
  match goal with |- context [fold_left ?f] => set (step := f) end.
  induction qubits as [|q rest IH]; intros qc.
  - exists []. cbn [fold_left]. unfold extend. rewrite app_nil_r.
    destruct qc; repeat split; constructor.
  - cbn [fold_left].
    destruct (modular_exponentiation_returns a (2 ^ Z.of_nat q) HN) as (x & Hx).
    pose (U := compose_on (control (create_controlled_modular_multiplication x N))
                          (q :: work_qubits) qc).
    assert (Hstep : step (Returns qc) q = Returns U).
    { unfold step. cbn [bind]. rewrite Hx. reflexivity. }
    rewrite Hstep.
    destruct (IH U) as (gs & Hgs & Hlen & Hall).
    eexists (_ :: gs). split; [|split].
    + rewrite Hgs. unfold U, compose_on, control, add_gate, extend.
      cbn [gates num_qubits num_clbits QuantumCircuit app map map_qubits].
      rewrite <- app_assoc. reflexivity.
    + cbn [List.length]. rewrite Hlen. reflexivity.
    + constructor; [reflexivity | exact Hall].
Qed.

Lemma raised_stays_raised {A B : Type} (f : outcome A -> B -> outcome A)
      (e : exn) (l : list B) :
  (forall b, f (Raises e) b = Raises e) ->
  fold_left f l (Raises e) = Raises e.
Proof.
  intros Hf. induction l as [|b l IH]; [reflexivity|].
  cbn [fold_left]. rewrite Hf. exact IH.
Qed.

(** X25.  The shape of Shor's circuit.  For every modulus other than
    zero [create_shor_circuit(N, a, n_count)] returns a circuit with
    [n_count + 4] qubits and [n_count] classical bits that ends in the one
    measurement it has, of the counting qubits [0 .. n_count-1], and that
    holds exactly one controlled multiplication per counting qubit.  For
    [N = 0] and at least one counting qubit it raises
    [ZeroDivisionError]. *)
Theorem create_shor_circuit_shape (N a : Z) (n_count : nat) :
  (N <> 0 ->
   exists qc body,
     create_shor_circuit N a n_count = Returns qc
     /\ num_qubits qc = (n_count + 4)%nat
     /\ num_clbits qc = n_count
     /\ gates qc = body ++ [Gmeasure (seq 0 n_count) (seq 0 n_count)]
     /\ Forall unmeasured body
     /\ count is_cswaps body = n_count)
  /\ (N = 0 -> (1 <= n_count)%nat ->
      create_shor_circuit N a n_count = Raises ZeroDivisionError).
Proof.
  split.
  - intros HN. unfold create_shor_circuit. cbv zeta.
    match goal with
    | |- context [fold_left ?f ?l (Returns ?q)] =>
        destruct (@controlled_steps N a (seq n_count 4) l HN q)
          as (gs & Hgs & Hlen & Hall)
    end.
    rewrite Hgs. cbn [bind].
    unfold create_inverse_qft_circuit, inverse.
    destruct (inverse_gates_returns (shor_qft_unmeasured n_count) [])
      as (inv & Hinv).
    rewrite Hinv. cbn [bind].
    eexists.
    exists (Gx (nth 0 (seq n_count 4) 0%nat)
            :: Gbarrier
            :: ((((map Gh (seq 0 n_count) ++ [Gbarrier]) ++ gs) ++ [Gbarrier])
                ++ map (map_qubits (fun i => nth i (seq 0 n_count) i)) inv)
               ++ [Gbarrier]).
    split; [reflexivity|].
    unfold add_gate, compose_on, extend, QuantumCircuit.
    cbn [gates num_qubits num_clbits app].
    split; [reflexivity|]. split; [reflexivity|]. split; [reflexivity|].
    rewrite length_seq in Hlen.
    assert (Hinv_un : Forall unmeasured inv)
      by (eapply inverse_gates_unmeasured; [constructor | exact Hinv]).
    assert (Hinv_count : count is_cswaps inv = 0%nat).
    { rewrite (@inverse_gates_count is_cswaps _
                 ltac:(intros g i Hi; destruct g; cbn in Hi; inversion Hi;
                       reflexivity) [] inv Hinv).
      unfold create_qft_circuit, extend. cbn [gates QuantumCircuit app].
      rewrite count_app, (count_map_none is_cswaps) by reflexivity.
      unfold count. cbn [filter List.length]. rewrite Nat.add_0_r, Nat.add_0_r.
      induction (rev (seq 0 n_count)) as [|i l IH]; [reflexivity|].
      cbn [flat_map]. rewrite filter_app, length_app, IH. cbn [filter is_cswaps].
      fold (count is_cswaps
              (map (fun j => Gcp (two_pi_over_pow2 (i - j + 1)) j i)
                   (rev (seq 0 i)))).
      rewrite (count_map_none is_cswaps) by reflexivity. reflexivity. }
    split.
    + apply Forall_cons; [exact I|]. apply Forall_cons; [exact I|].
      repeat (apply Forall_app; split); try (repeat constructor; fail).
      * apply map_unmeasured. intros q. exact I.
      * eapply Forall_impl; [|exact Hall].
        intros g Hg. destruct g; try discriminate. exact I.
      * apply Forall_forall. intros g Hg. apply in_map_iff in Hg.
        destruct Hg as (g0 & <- & Hg0). rewrite Forall_forall in Hinv_un.
        specialize (Hinv_un g0 Hg0). destruct g0; try contradiction; exact I.
    + match goal with
      | |- count _ (?g1 :: ?g2 :: ?l) = _ => change (g1 :: g2 :: l) with ([g1; g2] ++ l)
      end.
      rewrite !count_app.
      rewrite (count_map_none is_cswaps) by reflexivity.
      assert (Hgs_count : count is_cswaps gs = List.length gs).
      { clear -Hall. unfold count. induction Hall as [|g gs Hg _ IH];
          [reflexivity|]. cbn [filter]. rewrite Hg. cbn [List.length].
        rewrite IH. reflexivity. }
      assert (Hmapped : count is_cswaps
                          (map (map_qubits (fun i => nth i (seq 0 n_count) i)) inv)
                        = count is_cswaps inv).
      { clear. unfold count. induction inv as [|g inv IH]; [reflexivity|].
        cbn [map filter]. destruct g; cbn [map_qubits is_cswaps List.length];
          rewrite ?IH; reflexivity. }
      rewrite Hgs_count, Hlen, Hmapped, Hinv_count.
      unfold count. cbn [filter is_cswaps List.length]. lia.
  - intros -> Hn. unfold create_shor_circuit. cbv zeta.
    destruct n_count as [|n]; [lia|].
    cbn [seq fold_left bind].
    replace (modular_exponentiation a (2 ^ Z.of_nat 0) 0)
      with (@Raises Z ZeroDivisionError) by reflexivity.
    cbn [bind]. rewrite raised_stays_raised; [reflexivity|].
    intros b. reflexivity.
Qed.

End ShorCircuitShape.

(** ** The oracle of the Grover script on arbitrary lists *)

Section GroverOracleMarks.

Local Open Scope R_scope.

Lemma agrees_mod (n : nat) (t : Z) (b : basis) :
  agrees n (t mod 2 ^ Z.of_nat n) b = agrees n t b.
Proof.
  unfold agrees. apply forallb_ext_in. intros i Hi. apply in_seq in Hi.
  rewrite Z.mod_pow2_bits_low by lia. reflexivity.
Qed.

Lemma agrees_basis_of_mod (n : nat) (t x : Z) :
  (0 <= x < 2 ^ Z.of_nat n)%Z ->
  agrees n t (basis_of x) = (t mod 2 ^ Z.of_nat n =? x)%Z.
Proof.
  intros Hx. rewrite <- agrees_mod.
  rewrite agrees_basis_of by (try exact Hx; apply Z.mod_pos_bound; lia).
  apply Z.eqb_sym.
Qed.

Lemma oracle_phase_times_marked (n : nat) (targets : list Z) (x : Z) :
  (0 <= x < 2 ^ Z.of_nat n)%Z ->
  oracle_phase n targets (basis_of x) = (-1) ^ times_marked n targets x.
Proof.
  intros Hx. unfold times_marked.
  induction targets as [|t rest IH]; cbn [oracle_phase filter List.length].
  - cbn [pow]. reflexivity.
  - rewrite IH, (@agrees_basis_of_mod n t x Hx).
    destruct (t mod 2 ^ Z.of_nat n =? x)%Z; cbn [sign List.length pow]; ring.
Qed.

(** X26.  What [create_oracle] does with any list of marked states, also
    one with repetitions or entries outside [0 .. 2^n - 1]: on at least one
    qubit the oracle multiplies the amplitude of the basis state [x] by
    [-1] once for every entry whose low [n] bits spell [x].  So a state
    that is listed twice, or as an integer and as a string, is left
    unmarked, and an entry [t] beyond the register marks [t mod 2^n]. *)
Theorem create_oracle_marks_per_entry
        (n_qubits : nat) (marked_states : list Grover.marked_state)
        (targets : list Z) :
  (1 <= n_qubits)%nat ->
  Grover.marked_ints marked_states = Returns targets ->
  exists oracle,
    Grover.create_oracle n_qubits marked_states = Returns oracle /\
    forall psi, exists psi',
        apply_gates (gates oracle) psi = Some psi' /\
        forall x, (0 <= x < 2 ^ Z.of_nat n_qubits)%Z ->
                  psi' (basis_of x)
                  = (-1) ^ times_marked n_qubits targets x * psi (basis_of x).
Proof.
  intros Hn Hints.
  destruct (@apply_oracle n_qubits marked_states targets Hn Hints)
    as (oracle & Horacle & Hacts).
  exists oracle. split; [exact Horacle|].
  intros psi. rewrite Hacts.
  eexists. split; [reflexivity|].
  intros x Hx. cbv beta. rewrite (@oracle_phase_times_marked n_qubits targets x Hx).
  reflexivity.
Qed.

Lemma create_oracle_marks_per_entry_witness :
  exists oracle,
    Grover.create_oracle 3 [Grover.StateInt 5; Grover.StateStr "101";
                            Grover.StateInt 9]
    = Returns oracle /\
    forall psi, exists psi',
        apply_gates (gates oracle) psi = Some psi' /\
        forall x, (0 <= x < 2 ^ Z.of_nat 3)%Z ->
                  psi' (basis_of x)
                  = (-1) ^ times_marked 3 [5; 5; 9]%Z x * psi (basis_of x).
Proof.
  apply (@create_oracle_marks_per_entry
           3 [Grover.StateInt 5; Grover.StateStr "101"; Grover.StateInt 9]
           [5; 5; 9]%Z).
  - lia.
  - reflexivity.
Defined.

End GroverOracleMarks.

(** ** The expectation value of a Pauli string *)

Section VQEExpectation.

Import VQE.

Lemma without_spaces (s : string) :
  is_bitstring s ->
  Forall (fun c => c = "0"%char \/ c = "1"%char)
         (filter (fun c => negb (Ascii.eqb c " ")) (list_ascii_of_string s)).
Proof.
  unfold is_bitstring. intros H. apply Forall_forall. intros c Hc.
  apply filter_In in Hc. destruct Hc as [Hin Hns].
  rewrite Forall_forall in H. destruct (H c Hin) as [->|[->| ->]]; auto.
  discriminate.
Qed.

Lemma skipn_nth (A : Type) (d : A) (l : list A) (i : nat) :
  (i < List.length l)%nat -> skipn i l = nth i l d :: skipn (S i) l.
Proof.
  revert i. induction l as [|x l IH]; intros i Hi; [cbn in Hi; lia|].
  destruct i as [|i]; [reflexivity|].
  cbn [skipn nth]. apply IH. cbn in Hi. lia.
Qed.

(** The parity that the inner loop of [compute_expectation] reaches from
    qubit [i] on is the parity of the measured ones among the qubits from
    [i] on. *)
Lemma parity_of_measured_ones (bitstring : list ascii) :
  Forall (fun c => c = "0"%char \/ c = "1"%char) bitstring ->
  forall (pauli_string : list ascii) (i : nat) (parity : bool),
    parity_of bitstring i pauli_string (Z.b2z parity)
    = Returns
        (Z.b2z (xorb parity
                     (Nat.odd
                        (List.length
                           (filter (fun pq => negb (Ascii.eqb (fst pq) "I")
                                              && Ascii.eqb (snd pq) "1")
                                   (combine pauli_string
                                            (skipn i (rev bitstring)))))))).
Proof.
  intros Hbits. induction pauli_string as [|pauli rest IH]; intros i parity.
  - cbn [parity_of combine filter List.length Nat.odd]. 
    destruct parity; reflexivity.
  - cbn [parity_of].
    destruct (Nat.lt_ge_cases i (List.length bitstring)) as [Hi|Hi].
    + rewrite (@skipn_nth _ "0"%char (rev bitstring) i)
        by (rewrite length_rev; exact Hi).
      cbn [combine filter fst snd].
      rewrite rev_nth by exact Hi.
      replace (Z.of_nat (List.length bitstring) - 1 - Z.of_nat i)%Z
        with (Z.of_nat (List.length bitstring - S i)) by lia.
      rewrite Nat2Z.id.
      assert (Hc : nth (List.length bitstring - S i) bitstring "0"%char = "0"%char
                   \/ nth (List.length bitstring - S i) bitstring "0"%char
                      = "1"%char).
      { rewrite Forall_forall in Hbits. apply Hbits, nth_In. lia. }
      destruct (Ascii.eqb pauli "I"); cbn [negb andb]; [apply IH|].
      destruct (Z.geb_spec (Z.of_nat (List.length bitstring - S i)) 0) as [_|Hneg];
        [|lia].
      destruct Hc as [-> | ->];
        [change (int_digit "0") with (Returns 0%Z)
        |change (int_digit "1") with (Returns 1%Z)];
        cbn [bind];
        [change ("0" =? "1")%char with false | change ("1" =? "1")%char with true];
        cbn [filter].
      * replace (Z.lxor (Z.b2z parity) 0) with (Z.b2z parity)
          by (destruct parity; reflexivity).
        apply IH.
      * replace (Z.lxor (Z.b2z parity) 1) with (Z.b2z (negb parity))
          by (destruct parity; reflexivity).
        rewrite IH. cbn [List.length]. rewrite Nat.odd_succ.
        rewrite <- Nat.negb_odd. f_equal.
        destruct parity, (Nat.odd _); reflexivity.
    + rewrite skipn_all2 by (rewrite length_rev; exact Hi).
      assert (Hrest : forall l : list ascii, combine l (@nil ascii) = []).
      { intros l. destruct l; reflexivity. }
      rewrite Hrest. cbn [filter List.length Nat.odd].
      specialize (IH (S i) parity).
      rewrite skipn_all2 in IH by (rewrite length_rev; lia).
      rewrite Hrest in IH. cbn [filter List.length Nat.odd] in IH.
      destruct (Ascii.eqb pauli "I"); [exact IH|].
      destruct (Z.geb_spec (Z.of_nat (List.length bitstring) - 1 - Z.of_nat i) 0)
        as [Hge|_]; [lia | exact IH].
Qed.

Lemma eigenvalue_of_parity (bitstring pauli_string : string) :
  is_bitstring bitstring ->
  exists parity,
    parity_of (filter (fun c => negb (Ascii.eqb c " "))
                      (list_ascii_of_string bitstring))
              0 (list_ascii_of_string pauli_string) 0
    = Returns parity
    /\ (1 - 2 * parity)%Z = eigenvalue_of bitstring pauli_string.
Proof.
  intros Hbits.
  pose proof (@parity_of_measured_ones _ (without_spaces Hbits)
                (list_ascii_of_string pauli_string) 0%nat false) as H.
  cbn [skipn Z.b2z xorb] in H. rewrite H.
  eexists. split; [reflexivity|].
  unfold eigenvalue_of, measured_ones. cbv zeta.
  destruct (Nat.odd _); reflexivity.
Qed.

Lemma compute_expectation_from_weighted (rt : runtime) (pauli_string : string)
      (shots : Z) (counts : list (string * Z)) :
  Forall (fun bc => is_bitstring (fst bc)) counts ->
  forall expectation,
    compute_expectation_from rt expectation counts
                             (list_ascii_of_string pauli_string) shots
    = fold_left
        (fun acc bc =>
           (expectation <- acc ;;
            term <- true_div rt (eigenvalue_of (fst bc) pauli_string * snd bc)
                             shots ;;
            Returns (float_add rt expectation term))%outcome)
        counts (Returns expectation).
Proof.
  induction 1 as [|[bitstring count] counts Hbit _ IH]; intros expectation.
  - reflexivity.
  - cbn [compute_expectation_from fold_left fst snd bind].
    destruct (@eigenvalue_of_parity bitstring pauli_string Hbit)
      as (parity & Hparity & Heigenvalue).
    rewrite Hparity. cbn [bind]. cbv zeta. rewrite Heigenvalue.
    destruct (true_div rt (eigenvalue_of bitstring pauli_string * count) shots)
      as [term|e|]; cbn [bind].
    + apply IH.
    + clear. induction counts as [|bc counts IH]; [reflexivity | exact IH].
    + clear. induction counts as [|bc counts IH]; [reflexivity | exact IH].
Qed.

(** X18.  An expectation value is a sum of counts weighted by [+1] and
    [-1].  On counts of binary bitstrings (spaces between registers are
    dropped), and whatever the rounding of the floats,
    [compute_expectation] returns or raises as the sum does that starts
    from [0.0] and adds, in the order of the dictionary,
    [eigenvalue * count / shots]; the eigenvalue of a bitstring is [-1]
    when an odd number of the qubits that the Pauli string measures (the
    positions where it is not ['I']) read [1], and [1] otherwise, qubit
    [i] being the character [i] places from the right end. *)
Theorem compute_expectation_weighs_parities (rt : runtime)
        (counts : list (string * Z)) (pauli_string : string) (shots : Z) :
  Forall (fun bc => is_bitstring (fst bc)) counts ->
  compute_expectation rt counts pauli_string shots
  = weighted_sum rt pauli_string shots counts.
Proof.
  intros Hcounts. unfold compute_expectation, weighted_sum.
  apply compute_expectation_from_weighted. exact Hcounts.
Qed.

Lemma compute_expectation_weighs_parities_witness :
  compute_expectation exact_runtime [("00", 600); ("1 0", 424)]%string%Z "IZ" 1024
  = weighted_sum exact_runtime "IZ" 1024 [("00", 600); ("1 0", 424)]%string%Z.
Proof.
  apply (@compute_expectation_weighs_parities
           exact_runtime [("00", 600); ("1 0", 424)]%string%Z "IZ" 1024).
  assert (Hbits : forall s, In s ["00"; "1 0"]%string -> is_bitstring s).
  { intros s [<-|[<-|[]]]; unfold is_bitstring; cbn [list_ascii_of_string];
      repeat (apply Forall_cons; [auto|]); apply Forall_nil. }
  apply Forall_cons; [apply Hbits; cbn; auto|].
  apply Forall_cons; [apply Hbits; cbn; auto|].
  apply Forall_nil.
Defined.

(** Qubit [1] of ["1 0"] reads [1]: the Pauli string ["IZ"] measures it,
    and ["ZI"], which measures qubit [0], does not. *)
Example eigenvalue_of_little_endian :
  eigenvalue_of "1 0" "IZ" = (-1)%Z /\ eigenvalue_of "1 0" "ZI" = 1%Z.
Proof. split; reflexivity. Qed.

End VQEExpectation.

(** ** Where the credentials of the scripts come from *)

Section ScriptCredentials.

Variable creds : credentials.








End ScriptCredentials.


Section CredentialClaims.



(** On the sample world each of the four scripts constructs the service
    once, with the two values of the environment. *)
Example scripts_connect_once :
  let service := [Service "ibm_quantum_platform" (sample_env "IBM_QUANTUM_TOKEN"%string)
                          (sample_env "IBM_QUANTUM_INSTANCE"%string)] in
  filter is_service
         (trace_of (DeutschScript.main exact_runtime sample_cloud sample_env))
  = service
  /\ filter is_service (trace_of (Shor.main exact_runtime sample_cloud sample_env))
     = service
  /\ filter is_service
            (trace_of (GroverScript.main exact_runtime sample_math sample_cloud
                                         sample_env))
     = service
  /\ filter is_service
            (trace_of (VQE.main exact_runtime sample_cloud sample_rng sample_env))
     = service.
Proof.
  cbv zeta. repeat split; vm_compute; reflexivity.
Qed.

End CredentialClaims.
